(** * auditok.util: the reader pipeline and the channel selector

    A shallow embedding of [src/auditok/util.py]: the proxies [_Recorder],
    [_Limiter], [_FixedSizeAudioReader], [_OverlapAudioReader], the facade
    [AudioReader], [make_channel_selector] and [AudioEnergyValidator]; then
    [StringDataSource], [make_duration_formatter] and
    [ADSFactory._check_normalize_args].

    Conventions.
    - Python [bytes] are lists of bytes; [None] is [option]'s [None].
    - A Python object is a state value; a method takes the state and returns
      an [outcome] (a value or a raised exception) together with the new
      state, so that what a call mutated before raising is kept.
    - Durations ([block_dur], [hop_dur], [max_read]) are Python floats in the
      source.  They are embedded as exact rationals: [int] truncates towards
      zero and [round] rounds half to even, as Python does, but the rounding
      error of a float product is not modelled. *)

From Stdlib Require Import String ZArith QArith List Bool Lia.
Import ListNotations.
Local Open Scope Z_scope.

(** ** Python values and exceptions *)

Definition bytes := list Byte.byte.

(** The byte string of an ASCII literal. *)
Definition bytes_of (s : string) : bytes := list_byte_of_string s.

Definition len (x : bytes) : Z := Z.of_nat (List.length x).

(** The exceptions the module raises or lets through. *)
Inductive exn : Type :=
| ValueError
| TypeError
| RuntimeError
| AttributeError
| ZeroDivisionError
| AudioIOError (msg : string)
| TooSamllBlockDuration.

Inductive outcome (A : Type) : Type :=
| Ret (a : A)
| Raise (e : exn).
Arguments Ret {A} a.
Arguments Raise {A} e.

(** [x[k:]] on bytes, for any integer [k]. *)
Definition slice_from (k : Z) (x : bytes) : bytes :=
  if k <? 0 then skipn (Z.to_nat (Z.max 0 (len x + k))) x
  else skipn (Z.to_nat k) x.

(** [x[:k]] on bytes, for any integer [k]. *)
Definition slice_to (k : Z) (x : bytes) : bytes :=
  if k <? 0 then firstn (Z.to_nat (Z.max 0 (len x + k))) x
  else firstn (Z.to_nat k) x.

(** [int(x)]: truncation towards zero. *)
Definition py_int (x : Q) : Z := Z.quot (Qnum x) (Zpos (Qden x)).

(** [floor(x)], the spec's wording for block and hop sizes. *)
Definition floorQ (x : Q) : Z := Z.div (Qnum x) (Zpos (Qden x)).

(** [round(x)]: to the nearest integer, ties to the even one. *)
Definition py_round (x : Q) : Z :=
  let d := Zpos (Qden x) in
  let f := Z.div (Qnum x) d in
  let r := Z.modulo (Qnum x) d in
  match Z.compare (2 * r) d with
  | Lt => f
  | Gt => f + 1
  | Eq => if Z.even f then f else f + 1
  end.

(** [x * n] for a duration [x] and an integer [n]. *)
Definition scale (x : Q) (n : Z) : Q := Qmult x (inject_Z n).

(** ** The audio source interface

    What the proxies use of the object they wrap: the attributes [sr], [sw],
    [ch] and [data], and the methods [is_open], [open], [close], [read] and
    [rewind].  [S] is the type of the object's state. *)

Record AudioSource (S : Type) : Type := {
  src_sr : S -> Z;
  src_sw : S -> Z;
  src_ch : S -> Z;
  src_is_open : S -> bool;
  src_open : S -> outcome unit * S;
  src_close : S -> outcome unit * S;
  src_read : Z -> S -> outcome (option bytes) * S;
  src_rewind : S -> outcome unit * S;
  src_data : S -> outcome bytes
}.
Arguments src_sr {S} _ _.
Arguments src_sw {S} _ _.
Arguments src_ch {S} _ _.
Arguments src_is_open {S} _ _.
Arguments src_open {S} _ _.
Arguments src_close {S} _ _.
Arguments src_read {S} _ _ _.
Arguments src_rewind {S} _ _.
Arguments src_data {S} _ _.

(** An attribute that holds one of two kinds of object: the method called is
    that of the object found there. *)
Definition lift_l {A B R : Type} (r : R * A) : R * (A + B) := (fst r, inl (snd r)).
Definition lift_r {A B R : Type} (r : R * B) : R * (A + B) := (fst r, inr (snd r)).

Definition either {A B : Type} (oa : AudioSource A) (ob : AudioSource B)
  : AudioSource (A + B) :=
  {| src_sr := fun s => match s with inl x => src_sr oa x | inr y => src_sr ob y end;
     src_sw := fun s => match s with inl x => src_sw oa x | inr y => src_sw ob y end;
     src_ch := fun s => match s with inl x => src_ch oa x | inr y => src_ch ob y end;
     src_is_open := fun s =>
       match s with inl x => src_is_open oa x | inr y => src_is_open ob y end;
     src_open := fun s =>
       match s with inl x => lift_l (src_open oa x) | inr y => lift_r (src_open ob y) end;
     src_close := fun s =>
       match s with inl x => lift_l (src_close oa x) | inr y => lift_r (src_close ob y) end;
     src_read := fun size s =>
       match s with
       | inl x => lift_l (src_read oa size x)
       | inr y => lift_r (src_read ob size y)
       end;
     src_rewind := fun s =>
       match s with inl x => lift_l (src_rewind oa x) | inr y => lift_r (src_rewind ob y) end;
     src_data := fun s =>
       match s with inl x => src_data oa x | inr y => src_data ob y end |}.

(** ** The in-memory source *)

Module BufferAudioSource.

(** Modelled from the spec: [auditok.io.BufferAudioSource], the in-memory
    source that [_Recorder.rewind] builds, is not in this module.  The spec
    gives it the raw source surface (open, close, isOpen, read, rewind and
    the three stream parameters) over a raw byte buffer, rewindable at
    will; [read(n)] hands out the next [n] samples of the buffer in order,
    fewer at the end of the buffer and end-of-stream once nothing is left
    (the fixed-window property of section 8); a source that is not open is
    a [SourceUnavailable] failure. *)
Record t : Type := {
  data : bytes;
  sampling_rate : Z;
  sample_width : Z;
  channels : Z;
  position : nat;
  opened : bool
}.

(** Modelled from the spec: the in-memory source built over a raw byte
    buffer and the three stream parameters; it starts closed, at the start
    of the buffer. *)
Definition init (d : bytes) (sr sw ch : Z) : t :=
  {| data := d; sampling_rate := sr; sample_width := sw; channels := ch;
     position := 0%nat; opened := false |}.

Definition set_position (p : nat) (s : t) : t :=
  {| data := data s; sampling_rate := sampling_rate s;
     sample_width := sample_width s; channels := channels s;
     position := p; opened := opened s |}.

Definition set_opened (o : bool) (s : t) : t :=
  {| data := data s; sampling_rate := sampling_rate s;
     sample_width := sample_width s; channels := channels s;
     position := position s; opened := o |}.

(** Modelled from the spec: [open], [close] and [rewind] of the in-memory
    source; it supports rewinding at will, back to the start of the buffer. *)
Definition open (s : t) : outcome unit * t := (Ret tt, set_opened true s).
Definition close (s : t) : outcome unit * t := (Ret tt, set_opened false s).
Definition rewind (s : t) : outcome unit * t := (Ret tt, set_position 0%nat s).

(** Modelled from the spec: [read(size)] of the in-memory source hands out
    the next [size] samples of [sample_width * channels] bytes, fewer at the
    end of the buffer, and end-of-stream when nothing is left; reading a
    source that is not open fails. *)
Definition read (size : Z) (s : t) : outcome (option bytes) * t :=
  if opened s then
    let chunk :=
      firstn (Z.to_nat (size * (sample_width s * channels s)))
             (skipn (position s) (data s)) in
    match chunk with
    | [] => (Ret None, s)
    | _ :: _ => (Ret (Some chunk), set_position (position s + List.length chunk)%nat s)
    end
  else (Raise (AudioIOError "Stream is not open"), s).

(** Modelled from the spec: the in-memory source as an audio source; its
    [data] is the buffer it was built over. *)
Definition ops : AudioSource t :=
  {| src_sr := sampling_rate; src_sw := sample_width; src_ch := channels;
     src_is_open := opened; src_open := open; src_close := close;
     src_read := read; src_rewind := rewind;
     src_data := fun s => Ret (data s) |}.

End BufferAudioSource.

(** ** [_AudioReadingProxy] *)

Module AudioReadingProxy.
Section Over.
Context {S : Type} (inner : AudioSource S).

(** [if self.rewindable:] tests the bound method [rewindable], not its
    result: a method object is always true. *)
Definition rewindable_is_truthy : bool := true.

Definition rewind (s : S) : outcome unit * S :=
  if rewindable_is_truthy then src_rewind inner s
  else (Raise (AudioIOError "Audio stream is not rewindable"), s).

(** The [data] property of the proxy. *)
Definition data : outcome bytes := Raise AttributeError.

(** Attribute lookup: when the property found on the class raises
    [AttributeError], Python calls [__getattr__], which asks the wrapped
    object. *)
Definition with_getattr {A : Type} (found fallback : outcome A) : outcome A :=
  match found with
  | Raise AttributeError => fallback
  | _ => found
  end.
End Over.
End AudioReadingProxy.

(** ** [_Recorder] *)

Module Recorder.

(** The two values [_read_block] takes. *)
Inductive read_block : Type :=
| read_and_cache_method
| audio_source_read.

Record t (S : Type) : Type := {
  _audio_source : S + BufferAudioSource.t;
  _cache : option (list bytes);
  _read_block : read_block;
  _read_from_cache : bool;
  _data : option bytes
}.
Arguments _audio_source {S} _.
Arguments _cache {S} _.
Arguments _read_block {S} _.
Arguments _read_from_cache {S} _.
Arguments _data {S} _.

Section Over.
Context {S : Type} (inner : AudioSource S).

(** The methods of whatever [_audio_source] holds: the wrapped source,
    then the in-memory source once [rewind] has replaced it. *)
Definition source : AudioSource (S + BufferAudioSource.t) :=
  either inner BufferAudioSource.ops.

Definition init (audio_source : S) : t S :=
  {| _audio_source := inl audio_source;
     _cache := Some [];
     _read_block := read_and_cache_method;
     _read_from_cache := false;
     _data := None |}.

Definition set_source (s : S + BufferAudioSource.t) (r : t S) : t S :=
  {| _audio_source := s; _cache := _cache r; _read_block := _read_block r;
     _read_from_cache := _read_from_cache r; _data := _data r |}.

Definition read_and_cache (size : Z) (r : t S) : outcome (option bytes) * t S :=
  let (res, s') := src_read source size (_audio_source r) in
  match res with
  | Ret (Some block) =>
      match _cache r with
      | Some c =>
          (Ret (Some block),
           {| _audio_source := s'; _cache := Some (c ++ [block]);
              _read_block := _read_block r;
              _read_from_cache := _read_from_cache r; _data := _data r |})
      | None => (Raise AttributeError, set_source s' r)
      end
  | _ => (res, set_source s' r)
  end.

Definition read (size : Z) (r : t S) : outcome (option bytes) * t S :=
  match _read_block r with
  | read_and_cache_method => read_and_cache size r
  | audio_source_read =>
      let (res, s') := src_read source size (_audio_source r) in
      (res, set_source s' r)
  end.

Definition data (r : t S) : outcome bytes :=
  match _data r with
  | None => Raise RuntimeError
  | Some d => Ret d
  end.

Definition rewindable (r : t S) : bool := true.

Definition rewind (r : t S) : outcome unit * t S :=
  if _read_from_cache r then
    let (res, s') := src_rewind source (_audio_source r) in
    (res, set_source s' r)
  else
    match _cache r with
    | None => (Raise TypeError, r)
    | Some c =>
        let d := concat c in
        let buffer :=
          BufferAudioSource.init d
            (src_sr source (_audio_source r))
            (src_sw source (_audio_source r))
            (src_ch source (_audio_source r)) in
        let (res, s') := src_open source (inr buffer) in
        match res with
        | Ret _ =>
            (Ret tt,
             {| _audio_source := s'; _cache := None;
                _read_block := audio_source_read;
                _read_from_cache := true; _data := Some d |})
        | Raise e =>
            (Raise e,
             {| _audio_source := s'; _cache := None;
                _read_block := audio_source_read;
                _read_from_cache := false; _data := Some d |})
        end
    end.

Definition lift {A : Type} (f : S + BufferAudioSource.t -> outcome A * (S + BufferAudioSource.t))
    (r : t S) : outcome A * t S :=
  let (res, s') := f (_audio_source r) in (res, set_source s' r).

Definition ops : AudioSource (t S) :=
  {| src_sr := fun r => src_sr source (_audio_source r);
     src_sw := fun r => src_sw source (_audio_source r);
     src_ch := fun r => src_ch source (_audio_source r);
     src_is_open := fun r => src_is_open source (_audio_source r);
     src_open := lift (src_open source);
     src_close := lift (src_close source);
     src_read := read;
     src_rewind := rewind;
     src_data := data |}.
End Over.
End Recorder.

(** ** [_Limiter] *)

Module Limiter.

Record t (S : Type) : Type := {
  _audio_source : S;
  _max_read : Q;
  _max_samples : Z;
  _bytes_per_sample : Z;
  _read_samples : Z
}.
Arguments _audio_source {S} _.
Arguments _max_read {S} _.
Arguments _max_samples {S} _.
Arguments _bytes_per_sample {S} _.
Arguments _read_samples {S} _.

Section Over.
Context {S : Type} (inner : AudioSource S).

Definition init (audio_source : S) (max_read : Q) : t S :=
  {| _audio_source := audio_source;
     _max_read := max_read;
     _max_samples := py_round (scale max_read (src_sr inner audio_source));
     _bytes_per_sample := src_sw inner audio_source * src_ch inner audio_source;
     _read_samples := 0 |}.

Definition update (s : S) (read_samples : Z) (l : t S) : t S :=
  {| _audio_source := s; _max_read := _max_read l;
     _max_samples := _max_samples l;
     _bytes_per_sample := _bytes_per_sample l;
     _read_samples := read_samples |}.

Definition data (l : t S) : outcome bytes :=
  match src_data inner (_audio_source l) with
  | Ret d => Ret (slice_to (_max_samples l * _bytes_per_sample l) d)
  | Raise e => Raise e
  end.

Definition max_read (l : t S) : Q := _max_read l.

Definition read (size : Z) (l : t S) : outcome (option bytes) * t S :=
  let size := Z.min (_max_samples l - _read_samples l) size in
  if size <=? 0 then (Ret None, l)
  else
    let (res, s') := src_read inner size (_audio_source l) in
    match res with
    | Raise e => (Raise e, update s' (_read_samples l) l)
    | Ret None => (Ret None, update s' (_read_samples l) l)
    | Ret (Some block) =>
        if _bytes_per_sample l =? 0
        then (Raise ZeroDivisionError, update s' (_read_samples l) l)
        else (Ret (Some block),
              update s' (_read_samples l + len block / _bytes_per_sample l) l)
    end.

Definition rewind (l : t S) : outcome unit * t S :=
  let (res, s') := AudioReadingProxy.rewind inner (_audio_source l) in
  match res with
  | Ret _ => (Ret tt, update s' 0 l)
  | Raise e => (Raise e, update s' (_read_samples l) l)
  end.

Definition lift {A : Type} (f : S -> outcome A * S) (l : t S) : outcome A * t S :=
  let (res, s') := f (_audio_source l) in (res, update s' (_read_samples l) l).

Definition ops : AudioSource (t S) :=
  {| src_sr := fun l => src_sr inner (_audio_source l);
     src_sw := fun l => src_sw inner (_audio_source l);
     src_ch := fun l => src_ch inner (_audio_source l);
     src_is_open := fun l => src_is_open inner (_audio_source l);
     src_open := lift (src_open inner);
     src_close := lift (src_close inner);
     src_read := read;
     src_rewind := rewind;
     src_data := data |}.
End Over.
End Limiter.

(** ** [_FixedSizeAudioReader] *)

Module FixedSizeAudioReader.

Record t (S : Type) : Type := {
  _audio_source : S;
  _block_size : Z
}.
Arguments _audio_source {S} _.
Arguments _block_size {S} _.

Section Over.
Context {S : Type} (inner : AudioSource S).

Definition init (audio_source : S) (block_dur : Q) : outcome (t S) :=
  if Qle_bool block_dur 0 then Raise ValueError
  else
    let block_size := py_int (scale block_dur (src_sr inner audio_source)) in
    if block_size =? 0 then Raise TooSamllBlockDuration
    else Ret {| _audio_source := audio_source; _block_size := block_size |}.

Definition set_source (s : S) (w : t S) : t S :=
  {| _audio_source := s; _block_size := _block_size w |}.

Definition read (w : t S) : outcome (option bytes) * t S :=
  let (res, s') := src_read inner (_block_size w) (_audio_source w) in
  (res, set_source s' w).

Definition rewind (w : t S) : outcome unit * t S :=
  let (res, s') := AudioReadingProxy.rewind inner (_audio_source w) in
  (res, set_source s' w).

Definition is_open (w : t S) : bool := src_is_open inner (_audio_source w).

Definition open (w : t S) : outcome unit * t S :=
  let (res, s') := src_open inner (_audio_source w) in (res, set_source s' w).

Definition close (w : t S) : outcome unit * t S :=
  let (res, s') := src_close inner (_audio_source w) in (res, set_source s' w).

Definition block_size (w : t S) : Z := _block_size w.

Definition data (w : t S) : outcome bytes :=
  AudioReadingProxy.with_getattr AudioReadingProxy.data
    (src_data inner (_audio_source w)).
End Over.
End FixedSizeAudioReader.

(** ** [_OverlapAudioReader] *)

Module OverlapAudioReader.

(** A generator made by [_iter_blocks_with_overlap]: where it is suspended,
    with the locals [_hop_size_bytes] and [cache] once they are bound.
    Each [at_] state is one [yield] of the source, in the order they are
    written; at [at_yield_None_first] the local [block] is [None]. *)
Inductive generator : Type :=
| created
| at_yield_AudioIOError
| at_yield_None_first
| at_yield_block_first (_hop_size_bytes : Z) (cache : bytes)
| at_yield_block (_hop_size_bytes : Z) (cache : bytes)
| at_yield_None (_hop_size_bytes : Z) (cache : bytes)
| finished.

(** What a generator yields: the class [AudioIOError], [None] or a block. *)
Inductive yielded : Type :=
| the_class_AudioIOError
| the_value_None
| a_block (block : bytes).

(** The result of [next]. *)
Inductive resumed : Type :=
| Yield (v : yielded)
| Throw (e : exn)
| StopIteration.

Record t (S : Type) : Type := {
  _audio_source : S;
  _block_size : Z;
  _hop_size : Z;
  _blocks : generator
}.
Arguments _audio_source {S} _.
Arguments _block_size {S} _.
Arguments _hop_size {S} _.
Arguments _blocks {S} _.

Section Over.
Context {S : Type} (inner : AudioSource S).

Definition iter_blocks_with_overlap : generator := created.

Definition init (audio_source : S) (block_dur hop_dur : Q) : outcome (t S) :=
  if Qle_bool block_dur hop_dur then Raise ValueError
  else
    match FixedSizeAudioReader.init inner audio_source block_dur with
    | Raise e => Raise e
    | Ret f =>
        Ret {| _audio_source := FixedSizeAudioReader._audio_source f;
               _block_size := FixedSizeAudioReader._block_size f;
               _hop_size := py_int (scale hop_dur (src_sr inner audio_source));
               _blocks := iter_blocks_with_overlap |}
    end.

Definition update (s : S) (g : generator) (w : t S) : t S :=
  {| _audio_source := s; _block_size := _block_size w;
     _hop_size := _hop_size w; _blocks := g |}.

(** From the top of the body to the first [yield] reached. *)
Definition from_start (w : t S) : resumed * S * generator :=
  if src_is_open inner (_audio_source w) then
    let (res, s') := src_read inner (_block_size w) (_audio_source w) in
    match res with
    | Raise e => (Throw e, s', finished)
    | Ret None => (Yield the_value_None, s', at_yield_None_first)
    | Ret (Some block) =>
        let hop_size_bytes := _hop_size w * src_sw inner s' * src_ch inner s' in
        (Yield (a_block block), s',
         at_yield_block_first hop_size_bytes (slice_from hop_size_bytes block))
    end
  else (Yield the_class_AudioIOError, _audio_source w, at_yield_AudioIOError).

(** One turn of [while True]: [if block:] holds for non-empty bytes only. *)
Definition from_loop (hop_size_bytes : Z) (cache : bytes) (w : t S)
  : resumed * S * generator :=
  let (res, s') := src_read inner (_hop_size w) (_audio_source w) in
  match res with
  | Raise e => (Throw e, s', finished)
  | Ret (Some (x :: rest)) =>
      let block := cache ++ x :: rest in
      (Yield (a_block block), s',
       at_yield_block hop_size_bytes (slice_from hop_size_bytes block))
  | Ret _ => (Yield the_value_None, s', at_yield_None hop_size_bytes cache)
  end.

(** [next(self._blocks)]. *)
Definition next (w : t S) : resumed * S * generator :=
  match _blocks w with
  | created => from_start w
  | at_yield_AudioIOError => from_start w
  | at_yield_None_first =>
      (* [cache = block[_hop_size_bytes:]] with [block] being [None] *)
      (Throw TypeError, _audio_source w, finished)
  | at_yield_block_first h c => from_loop h c w
  | at_yield_block h c => from_loop h c w
  | at_yield_None h c => from_loop h c w
  | finished => (StopIteration, _audio_source w, finished)
  end.

Definition read (w : t S) : outcome (option bytes) * t S :=
  let '(r, s', g') := next w in
  let w' := update s' g' w in
  match r with
  | Yield the_class_AudioIOError =>
      (Raise (AudioIOError "Audio Stream is not open."), w')
  | Yield the_value_None => (Ret None, w')
  | Yield (a_block block) => (Ret (Some block), w')
  | Throw e => (Raise e, w')
  | StopIteration => (Ret None, w')
  end.

Definition rewind (w : t S) : outcome unit * t S :=
  let (res, s') := AudioReadingProxy.rewind inner (_audio_source w) in
  match res with
  | Ret _ => (Ret tt, update s' iter_blocks_with_overlap w)
  | Raise e => (Raise e, update s' (_blocks w) w)
  end.

Definition is_open (w : t S) : bool := src_is_open inner (_audio_source w).

Definition open (w : t S) : outcome unit * t S :=
  let (res, s') := src_open inner (_audio_source w) in
  (res, update s' (_blocks w) w).

Definition close (w : t S) : outcome unit * t S :=
  let (res, s') := src_close inner (_audio_source w) in
  (res, update s' (_blocks w) w).

Definition block_size (w : t S) : Z := _block_size w.
Definition hop_size (w : t S) : Z := _hop_size w.

Definition data (w : t S) : outcome bytes :=
  AudioReadingProxy.with_getattr AudioReadingProxy.data
    (src_data inner (_audio_source w)).
End Over.
End OverlapAudioReader.

(** ** [AudioReader] *)

Module AudioReader.

(** What [input] is after each step of [__init__]. *)
Definition recorded (S : Type) : Type := (S + Recorder.t S)%type.
Definition limited (S : Type) : Type := (recorded S + Limiter.t (recorded S))%type.
Definition windowed (S : Type) : Type :=
  (FixedSizeAudioReader.t (limited S) + OverlapAudioReader.t (limited S))%type.

Record t (S : Type) : Type := {
  _record : bool;
  _audio_source : windowed S
}.
Arguments _record {S} _.
Arguments _audio_source {S} _.

Section Over.
Context {S : Type} (inner : AudioSource S).

Definition recorded_ops : AudioSource (recorded S) :=
  either inner (Recorder.ops inner).
Definition limited_ops : AudioSource (limited S) :=
  either recorded_ops (Limiter.ops recorded_ops).

Definition init (input : S) (block_dur : Q) (hop_dur : option Q)
    (record : bool) (max_read : option Q) : outcome (t S) :=
  let input1 : recorded S :=
    if record then inr (Recorder.init input) else inl input in
  let input2 : limited S :=
    match max_read with
    | Some m => inr (Limiter.init recorded_ops input1 m)
    | None => inl input1
    end in
  match hop_dur with
  | Some h =>
      match OverlapAudioReader.init limited_ops input2 block_dur h with
      | Ret w => Ret {| _record := record; _audio_source := inr w |}
      | Raise e => Raise e
      end
  | None =>
      match FixedSizeAudioReader.init limited_ops input2 block_dur with
      | Ret w => Ret {| _record := record; _audio_source := inl w |}
      | Raise e => Raise e
      end
  end.

Definition rewindable (a : t S) : bool := _record a.

Definition set_source (w : windowed S) (a : t S) : t S :=
  {| _record := _record a; _audio_source := w |}.

Definition read (a : t S) : outcome (option bytes) * t S :=
  match _audio_source a with
  | inl w =>
      let (res, w') := FixedSizeAudioReader.read limited_ops w in
      (res, set_source (inl w') a)
  | inr w =>
      let (res, w') := OverlapAudioReader.read limited_ops w in
      (res, set_source (inr w') a)
  end.

(** [self.open()] and [self.close()], found through [__getattr__] on the
    window reader, which inherits them from the proxy. *)
Definition open (a : t S) : outcome unit * t S :=
  match _audio_source a with
  | inl w =>
      let (res, w') := FixedSizeAudioReader.open limited_ops w in
      (res, set_source (inl w') a)
  | inr w =>
      let (res, w') := OverlapAudioReader.open limited_ops w in
      (res, set_source (inr w') a)
  end.

Definition close (a : t S) : outcome unit * t S :=
  match _audio_source a with
  | inl w =>
      let (res, w') := FixedSizeAudioReader.close limited_ops w in
      (res, set_source (inl w') a)
  | inr w =>
      let (res, w') := OverlapAudioReader.close limited_ops w in
      (res, set_source (inr w') a)
  end.

(** [self.rewind()], found through [__getattr__]. *)
Definition rewind (a : t S) : outcome unit * t S :=
  if negb (rewindable a) then (Raise AttributeError, a)
  else
    match _audio_source a with
    | inl w =>
        let (res, w') := FixedSizeAudioReader.rewind limited_ops w in
        (res, set_source (inl w') a)
    | inr w =>
        let (res, w') := OverlapAudioReader.rewind limited_ops w in
        (res, set_source (inr w') a)
    end.

(** [self.data], found through [__getattr__]. *)
Definition data (a : t S) : outcome bytes :=
  if negb (rewindable a) then Raise AttributeError
  else
    let found :=
      match _audio_source a with
      | inl w => FixedSizeAudioReader.data limited_ops w
      | inr w => OverlapAudioReader.data limited_ops w
      end in
    match found with
    | Raise AttributeError => Raise AttributeError
    | _ => found
    end.
End Over.
End AudioReader.

(** ** [make_channel_selector] and [AudioEnergyValidator] *)

(** The values [selected] / [use_channel] may hold.  A Python [bool] is an
    [int]; [sel_float] stands for the objects of any other type. *)
Inductive selected_value : Type :=
| sel_None
| sel_int (i : Z)
| sel_bool (v : bool)
| sel_str (s : string)
| sel_float (x : Q).

(** [isinstance(selected, int)], with the integer it then is. *)
Definition as_int (selected : selected_value) : option Z :=
  match selected with
  | sel_int i => Some i
  | sel_bool true => Some 1
  | sel_bool false => Some 0
  | _ => None
  end.

(** [selected in ("mix", "avg", "average")]. *)
Definition in_mix_avg_average (selected : selected_value) : bool :=
  match selected with
  | sel_str s => String.eqb s "mix" || String.eqb s "avg" || String.eqb s "average"
  | _ => false
  end.

(** [selected in (None, "any")]. *)
Definition in_None_any (selected : selected_value) : bool :=
  match selected with
  | sel_None => true
  | sel_str s => String.eqb s "any"
  | _ => false
  end.

Section Signal.
(** The [signal] module is imported, not defined here: its table [FORMAT]
    and its functions are parameters.  [view] is what its channel functions
    return (an array, or a list of arrays). *)
Context {fmt view : Type}.
Variable FORMAT : Z -> option fmt.
Variable bytes_view : bytes -> view.
Variable signal_extract_single_channel : bytes -> fmt -> Z -> Z -> view.
Variable signal_compute_average_channel_stereo : bytes -> Z -> view.
Variable signal_compute_average_channel : bytes -> fmt -> Z -> view.
Variable signal_separate_channels : bytes -> fmt -> Z -> view.
Variable signal_calculate_energy_single_channel : view -> Z -> Q.
Variable signal_calculate_energy_multichannel : view -> Z -> Q.

(** The callables [make_channel_selector] returns: the identity lambda, or
    a [partial] of a [signal] function with the keywords it fixes. *)
Inductive selector : Type :=
| identity
| extract_single_channel (f : fmt) (channels selected : Z)
| compute_average_channel_stereo (sample_width : Z)
| compute_average_channel (f : fmt) (channels : Z)
| separate_channels (f : fmt) (channels : Z).

Definition make_channel_selector (sample_width channels : Z)
    (selected : selected_value) : outcome selector :=
  match FORMAT sample_width with
  | None => Raise ValueError
  | Some f =>
      if channels =? 1 then Ret identity
      else
        match as_int selected with
        | Some i =>
            let i := if i <? 0 then i + channels else i in
            if (i <? 0) || (i >=? channels) then Raise ValueError
            else Ret (extract_single_channel f channels i)
        | None =>
            if in_mix_avg_average selected then
              if channels =? 2 then Ret (compute_average_channel_stereo sample_width)
              else Ret (compute_average_channel f channels)
            else if in_None_any selected then Ret (separate_channels f channels)
            else Raise ValueError
        end
  end.


(** The two values [_energy_fn] takes. *)
Inductive energy_fn : Type :=
| calculate_energy_single_channel
| calculate_energy_multichannel.


Record AudioEnergyValidator : Type := {
  _sample_width : Z;
  _selector : selector;
  _energy_fn : energy_fn;
  _energy_threshold : Q
}.

Definition AudioEnergyValidator_init (energy_threshold : Q)
    (sample_width channels : Z) (use_channel : selected_value)
  : outcome AudioEnergyValidator :=
  match make_channel_selector sample_width channels use_channel with
  | Raise e => Raise e
  | Ret sel =>
      Ret {| _sample_width := sample_width;
             _selector := sel;
             _energy_fn :=
               if (channels =? 1) || negb (in_None_any use_channel)
               then calculate_energy_single_channel
               else calculate_energy_multichannel;
             _energy_threshold := energy_threshold |}
  end.

End Signal.

(** ** Sessions *)

(** A live source, for stating what the proxies do over a source that is not
    a buffer (a capture device, a pipe): each [read] hands out what has
    arrived since the previous one, [None] when nothing has; it cannot be
    rewound. *)
Module LiveSource.
Record t : Type := {
  arriving : list (option bytes);
  sampling_rate : Z;
  sample_width : Z;
  channels : Z
}.

Definition read (size : Z) (s : t) : outcome (option bytes) * t :=
  match arriving s with
  | [] => (Ret None, s)
  | x :: rest =>
      (Ret x, {| arriving := rest; sampling_rate := sampling_rate s;
                 sample_width := sample_width s; channels := channels s |})
  end.

Definition ops : AudioSource t :=
  {| src_sr := sampling_rate; src_sw := sample_width; src_ch := channels;
     src_is_open := fun _ => true;
     src_open := fun s => (Ret tt, s);
     src_close := fun s => (Ret tt, s);
     src_read := read;
     src_rewind := fun s => (Raise (AudioIOError "Audio stream is not rewindable"), s);
     src_data := fun _ => Raise AttributeError |}.
End LiveSource.

(** [n] consecutive calls of a method, with the results in order. *)
Fixpoint calls {W A : Type} (method : W -> outcome A * W) (n : nat) (w : W)
  : list (outcome A) * W :=
  match n with
  | O => ([], w)
  | S n' =>
      let (r, w1) := method w in
      let (rs, w2) := calls method n' w1 in
      (r :: rs, w2)
  end.

(** The client loop [while True: d = read(); if d is None: break;
    data.append(d)], with [fuel] bounding the number of turns: the blocks
    gathered, or the exception that ended the loop; [None] when the fuel ran
    out first. *)
Fixpoint read_until_None {W : Type} (read : W -> outcome (option bytes) * W)
    (fuel : nat) (w : W) : option (outcome (list bytes) * W) :=
  match fuel with
  | O => None
  | S fuel' =>
      match read w with
      | (Raise e, w1) => Some (Raise e, w1)
      | (Ret None, w1) => Some (Ret [], w1)
      | (Ret (Some block), w1) =>
          match read_until_None read fuel' w1 with
          | Some (Ret blocks, w2) => Some (Ret (block :: blocks), w2)
          | other => other
          end
      end
  end.

(** What a client may call on an [AudioReader], in any order. *)
Inductive operation : Type :=
| call_read
| call_rewind
| call_open
| call_close.

Definition perform {S : Type} (inner : AudioSource S) (o : operation)
    (a : AudioReader.t S) : AudioReader.t S :=
  match o with
  | call_read => snd (AudioReader.read inner a)
  | call_rewind => snd (AudioReader.rewind inner a)
  | call_open => snd (AudioReader.open inner a)
  | call_close => snd (AudioReader.close inner a)
  end.

Definition session {S : Type} (inner : AudioSource S) (os : list operation)
    (a : AudioReader.t S) : AudioReader.t S :=
  fold_left (fun a o => perform inner o a) os a.

(** The generator is inside [while True], suspended at one of the three
    [yield]s that resume there, with [_hop_size_bytes = h] and [cache = c]. *)
Definition running (g : OverlapAudioReader.generator) (h : Z) (c : bytes) : Prop :=
  g = OverlapAudioReader.at_yield_block_first h c \/
  g = OverlapAudioReader.at_yield_block h c \/
  g = OverlapAudioReader.at_yield_None h c.

(** The next [n] reads of [size] samples from the source all come back
    [None] or empty. *)
Fixpoint dry {S : Type} (inner : AudioSource S) (size : Z) (n : nat) (s : S) : Prop :=
  match n with
  | O => True
  | S n' =>
      exists s',
        (src_read inner size s = (Ret None, s') \/
         src_read inner size s = (Ret (Some []), s')) /\
        dry inner size n' s'
  end.

(** Each window starts with the last [k] bytes of the one before it. *)
Fixpoint share (k : nat) (windows : list bytes) : Prop :=
  match windows with
  | x :: rest =>
      match rest with
      | y :: _ =>
          (k <= length x)%nat /\ skipn (length x - k) x = firstn k y /\
          length (firstn k y) = k
      | [] => True
      end /\ share k rest
  | [] => True
  end.

(** The sources of the examples. *)
Definition opened_buffer (d : bytes) (sr sw ch : Z) : BufferAudioSource.t :=
  snd (BufferAudioSource.open (BufferAudioSource.init d sr sw ch)).

Definition abcdefghijklmnop : BufferAudioSource.t :=
  opened_buffer (bytes_of "abcdefghijklmnop") 16 1 1.

Definition live (arriving : list (option bytes)) : LiveSource.t :=
  {| LiveSource.arriving := arriving; LiveSource.sampling_rate := 16;
     LiveSource.sample_width := 1; LiveSource.channels := 1 |}.

(** ** Definitions for the statements *)

(** The object the window reader of an [AudioReader] wraps. *)
Definition window_source {S : Type} (a : AudioReader.t S) : AudioReader.limited S :=
  match AudioReader._audio_source a with
  | inl w => FixedSizeAudioReader._audio_source w
  | inr w => OverlapAudioReader._audio_source w
  end.

(** The window reader wraps a limiter with the cap [M], [B] bytes per
    sample, and a recorder below it. *)
Definition capped {S : Type} (M B : Z) (s : AudioReader.limited S) : Prop :=
  exists l r,
    s = inr l /\ Limiter._audio_source l = inr r /\
    Limiter._max_samples l = M /\ Limiter._bytes_per_sample l = B.

(** The same source with another [rewind] method. *)
Definition with_rewind {S : Type} (f : S -> outcome unit * S) (inner : AudioSource S)
  : AudioSource S :=
  {| src_sr := src_sr inner; src_sw := src_sw inner; src_ch := src_ch inner;
     src_is_open := src_is_open inner; src_open := src_open inner;
     src_close := src_close inner; src_read := src_read inner;
     src_rewind := f; src_data := src_data inner |}.

(** A recorder as [__init__], [read] and [rewind] leave it: live with a
    cache, or replaying from the in-memory source. *)
Definition recorder_ready {S : Type} (r : Recorder.t S) : Prop :=
  (Recorder._read_from_cache r = false /\ exists c, Recorder._cache r = Some c) \/
  (Recorder._read_from_cache r = true /\ exists buffer, Recorder._audio_source r = inr buffer).

(** The window reader wraps a ready recorder, directly or under a limiter. *)
Definition over_recorder {S : Type} (s : AudioReader.limited S) : Prop :=
  (exists r, s = inl (inr r) /\ recorder_ready r) \/
  (exists l r, s = inr l /\ Limiter._audio_source l = inr r /\ recorder_ready r).

(** The limiter sits over an open buffer holding at least the cap, and has
    read exactly the bytes before the buffer's position. *)
Definition limiter_on_track (l : Limiter.t BufferAudioSource.t) : Prop :=
  let s := Limiter._audio_source l in
  BufferAudioSource.opened s = true /\
  0 < BufferAudioSource.sample_width s /\
  0 < BufferAudioSource.channels s /\
  Limiter._bytes_per_sample l
    = BufferAudioSource.sample_width s * BufferAudioSource.channels s /\
  0 <= Limiter._read_samples l <= Limiter._max_samples l /\
  Z.of_nat (BufferAudioSource.position s)
    = Limiter._read_samples l * Limiter._bytes_per_sample l /\
  Limiter._max_samples l * Limiter._bytes_per_sample l
    <= len (BufferAudioSource.data s).

(** [Some x] for a non-empty [x], as the in-memory source returns it. *)
Definition nonempty (x : bytes) : option bytes :=
  match x with
  | [] => None
  | _ :: _ => Some x
  end.

(** The recorder of a pipeline, its limiter's counter and the generator of
    its overlap reader replaced; everything else as in [a]. *)
Definition put {S : Type} (k : Z) (r : Recorder.t S) (s : AudioReader.limited S)
  : AudioReader.limited S :=
  match s with
  | inr l => inr (Limiter.update (inr r) k l)
  | inl _ => inl (inr r)
  end.

Definition with_state {S : Type} (g : OverlapAudioReader.generator) (k : Z)
    (r : Recorder.t S) (a : AudioReader.t S) : AudioReader.t S :=
  {| AudioReader._record := AudioReader._record a;
     AudioReader._audio_source :=
       match AudioReader._audio_source a with
       | inl w =>
           inl {| FixedSizeAudioReader._audio_source :=
                    put k r (FixedSizeAudioReader._audio_source w);
                  FixedSizeAudioReader._block_size :=
                    FixedSizeAudioReader._block_size w |}
       | inr w => inr (OverlapAudioReader.update (put k r (OverlapAudioReader._audio_source w)) g w)
       end |}.

(** The bytes the in-memory source under the recorder has handed out: those
    before its position. *)
Definition consumed (a : AudioReader.t BufferAudioSource.t) : bytes :=
  let recorder :=
    match window_source a with
    | inl (inr r) => Some r
    | inr l => match Limiter._audio_source l with inr r => Some r | inl _ => None end
    | inl (inl _) => None
    end in
  match recorder with
  | Some r =>
      match Recorder._audio_source r with
      | inl raw => firstn (BufferAudioSource.position raw) (BufferAudioSource.data raw)
      | inr _ => []
      end
  | None => []
  end.

(** The open in-memory source over [x], at position [q]. *)
Definition buffer_at (sr sw ch : Z) (x : bytes) (q : nat) : BufferAudioSource.t :=
  {| BufferAudioSource.data := x; BufferAudioSource.sampling_rate := sr;
     BufferAudioSource.sample_width := sw; BufferAudioSource.channels := ch;
     BufferAudioSource.position := q; BufferAudioSource.opened := true |}.

(** A recorder over the source [d] that has not been rewound, with cache
    [c]. *)
Definition live_recorder (d : bytes) (sr sw ch : Z) (q : nat) (c : list bytes)
  : Recorder.t BufferAudioSource.t :=
  {| Recorder._audio_source := inl (buffer_at sr sw ch d q);
     Recorder._cache := Some c;
     Recorder._read_block := Recorder.read_and_cache_method;
     Recorder._read_from_cache := false;
     Recorder._data := None |}.

(** A recorder rewound after the first [p] bytes of [d] were read, now at
    position [q] of its own in-memory source. *)
Definition replaying_recorder (d : bytes) (sr sw ch : Z) (p q : nat)
  : Recorder.t BufferAudioSource.t :=
  {| Recorder._audio_source := inr (buffer_at sr sw ch (firstn p d) q);
     Recorder._cache := None;
     Recorder._read_block := Recorder.audio_source_read;
     Recorder._read_from_cache := true;
     Recorder._data := Some (firstn p d) |}.

(** What a read of [n] samples at position [q] of [x] hands out. *)
Definition chunk (sw ch : Z) (x : bytes) (n : Z) (q : nat) : bytes :=
  firstn (Z.to_nat (n * (sw * ch))) (skipn q x).

(** The position after a read of [req] samples, if one was made. *)
Definition after (sw ch : Z) (x : bytes) (req : option Z) (q : nat) : nat :=
  match req with
  | None => q
  | Some n => (q + length (chunk sw ch x n q))%nat
  end.

(** The cache after such a read: the chunk is appended unless it is empty. *)
Definition cache_after (sw ch : Z) (x : bytes) (req : option Z) (q : nat)
    (c : list bytes) : list bytes :=
  match req with
  | None => c
  | Some n => c ++ match chunk sw ch x n q with [] => [] | _ :: _ => [chunk sw ch x n q] end
  end.

(** The limiter, if there is one, counts in samples of [sw * ch] bytes, and
    with its counter at [k] the source at position [q] is within the cap:
    either the counter covers the position, or the source is at its end,
    below the cap. *)
Definition within_limit (sw ch : Z) (d : bytes) (s : AudioReader.limited BufferAudioSource.t)
    (k : Z) (q : nat) : Prop :=
  match s with
  | inr l =>
      Limiter._bytes_per_sample l = sw * ch /\
      ((Z.of_nat q <= k * (sw * ch) /\ k <= Z.max 0 (Limiter._max_samples l)) \/
       (q = length d /\ Z.of_nat q <= Limiter._max_samples l * (sw * ch)))
  | inl _ => True
  end.

(** Reading from [a] with a live recorder at position [q] keeps the recorder
    live, keeps the cap, and gives what reading from [a] with a replaying
    recorder at the same position gives, when the replayed bytes reach as far
    as the live read went. *)
Definition read_agrees (d : bytes) (sr sw ch : Z) (base : AudioReader.t BufferAudioSource.t)
    (g : OverlapAudioReader.generator) (k : Z) (q : nat) (c : list bytes) : Prop :=
  exists res g' k' req,
    AudioReader.read BufferAudioSource.ops
      (with_state g k (live_recorder d sr sw ch q c) base) =
      (res, with_state g' k'
              (live_recorder d sr sw ch (after sw ch d req q) (cache_after sw ch d req q c))
              base) /\
    within_limit sw ch d (window_source base) k' (after sw ch d req q) /\
    forall p, (p <= length d)%nat -> (after sw ch d req q <= p)%nat ->
      AudioReader.read BufferAudioSource.ops
        (with_state g k (replaying_recorder d sr sw ch p q) base) =
      (res, with_state g' k' (replaying_recorder d sr sw ch p (after sw ch d req q)) base).

(** Modelled from the spec: [signal.FORMAT] is not in this module.  The spec
    makes 1, 2 and 4 the valid sample widths, each with a numeric decoding
    format; the codes are named after the width. *)
Definition FORMAT_1_2_4 (sample_width : Z) : option string :=
  if sample_width =? 1 then Some "width 1"%string
  else if sample_width =? 2 then Some "width 2"%string
  else if sample_width =? 4 then Some "width 4"%string
  else None.


(** An overlap reader over a live source that has given "abcd" and will
    give nothing, then "ef": its state after the first read, and after the
    second. *)
Definition resumed_example_1 : OverlapAudioReader.t LiveSource.t :=
  {| OverlapAudioReader._audio_source := live [None; Some (bytes_of "ef")];
     OverlapAudioReader._block_size := 4;
     OverlapAudioReader._hop_size := 2;
     OverlapAudioReader._blocks :=
       OverlapAudioReader.at_yield_block_first 2 (bytes_of "cd") |}.

Definition resumed_example_2 : OverlapAudioReader.t LiveSource.t :=
  {| OverlapAudioReader._audio_source := live [Some (bytes_of "ef")];
     OverlapAudioReader._block_size := 4;
     OverlapAudioReader._hop_size := 2;
     OverlapAudioReader._blocks := OverlapAudioReader.at_yield_None 2 (bytes_of "cd") |}.

(** Gives the pieces of a state of known shape. *)
Ltac shape :=
  repeat match goal with
         | |- exists _, _ => eexists
         | |- _ /\ _ => split
         end;
  try reflexivity; try eassumption; eauto.

(** Unfolds one [read] of a reader down to the read of the wrapped object. *)
Ltac reader_step :=
  unfold AudioReader.read, with_state;
  cbn [AudioReader._audio_source AudioReader._record AudioReader.set_source];
  unfold FixedSizeAudioReader.read, OverlapAudioReader.read, OverlapAudioReader.next,
    OverlapAudioReader.from_start, OverlapAudioReader.from_loop;
  cbn [FixedSizeAudioReader._audio_source FixedSizeAudioReader._block_size
       FixedSizeAudioReader.set_source
       OverlapAudioReader._audio_source OverlapAudioReader._block_size
       OverlapAudioReader._hop_size OverlapAudioReader._blocks OverlapAudioReader.update].

(** ** [StringDataSource] *)

Module StringDataSource.

(** What a caller may pass as [data]: a [str], or an object of another type. *)
Inductive value : Type :=
| a_str (s : string)
| not_a_str.

(** [_current] only ever holds 0 or a count of characters read. *)
Record t : Type := {
  _data : string;
  _current : nat
}.

Definition set_data (data : value) (s : t) : outcome unit * t :=
  match data with
  | not_a_str => (Raise ValueError, s)
  | a_str d => (Ret tt, {| _data := d; _current := 0 |})
  end.

(** [__init__]: the object exists only if [set_data] accepted the data. *)
Definition init (data : value) : outcome t :=
  match data with
  | not_a_str => Raise ValueError
  | a_str d => Ret {| _data := d; _current := 0 |}
  end.

(** [read]: the character at [_current - 1] once [_current] is incremented. *)
Definition read (s : t) : outcome (option Ascii.ascii) * t :=
  if (String.length (_data s) <=? _current s)%nat then (Ret None, s)
  else (Ret (String.get (_current s) (_data s)),
        {| _data := _data s; _current := S (_current s) |}).

End StringDataSource.

(** ** [make_duration_formatter] *)

Module DurationFormatter.
Import Ascii.

(** The three functions [make_duration_formatter] returns: the one for
    "%S", the one for "%I", and the one that fills the fields of the
    rewritten format. *)
Inductive fromatter : Type :=
| seconds_3f
| milliseconds
| fields (fmt : string).

(** The formatter, or [TimeFormatError] with the directive its message
    quotes. *)
Inductive result : Type :=
| Formatter (f : fromatter)
| TimeFormatError (directive : string).

(** [s.replace(old, new)] for an [old] of two characters [a b]: the
    occurrences are replaced from left to right, without overlap. *)
Fixpoint replace (a b : Ascii.ascii) (new : string) (s : string) : string :=
  match s with
  | EmptyString => EmptyString
  | String c s' =>
      match s' with
      | String d rest =>
          if (Ascii.eqb c a && Ascii.eqb d b)%bool
          then (new ++ replace a b new rest)%string
          else String c (replace a b new s')
      | EmptyString => String c EmptyString
      end
  end.

(** [s.index(c)]: the first position of [c], [None] for [ValueError]. *)
Fixpoint index (c : Ascii.ascii) (s : string) : option nat :=
  match s with
  | EmptyString => None
  | String x s' =>
      if Ascii.eqb x c then Some 0%nat
      else match index c s' with
           | Some i => Some (S i)
           | None => None
           end
  end.

Definition make_duration_formatter (fmt : string) : result :=
  if String.eqb fmt "%S" then Formatter seconds_3f
  else if String.eqb fmt "%I" then Formatter milliseconds
  else
    let fmt := replace "%"%char "h"%char "{hrs:02d}" fmt in
    let fmt := replace "%"%char "m"%char "{mins:02d}" fmt in
    let fmt := replace "%"%char "s"%char "{secs:02d}" fmt in
    let fmt := replace "%"%char "i"%char "{millis:03d}" fmt in
    match index "%"%char fmt with
    | Some i => TimeFormatError (substring i 2 fmt)
    | None => Formatter (fields fmt)
    end.

(** [divmod(a, b)]. *)
Definition divmod (a b : Z) : Z * Z := (a / b, a mod b).

(** The values the third formatter passes to [fmt.format] as [hrs], [mins],
    [secs] and [millis]. *)
Definition field_values (seconds : Q) : Z * Z * Z * Z :=
  let millis := py_int (scale seconds 1000) in
  let (hrs, millis) := divmod millis 3600000 in
  let (mins, millis) := divmod millis 60000 in
  let (secs, millis) := divmod millis 1000 in
  (hrs, mins, secs, millis).

(** The character that starts a directive, and the characters [%h], [%m],
    [%s] and [%i] replace. *)
Definition percent : ascii := "%"%char.
Definition known_directives : list ascii := ["h"; "m"; "s"; "i"]%char.

(** Every "%" of [s] is followed by one of the characters of [known]. *)
Fixpoint directives_in (known : list Ascii.ascii) (s : string) : bool :=
  match s with
  | EmptyString => true
  | String c s' =>
      (if Ascii.eqb c "%"%char
       then match s' with
            | String d _ => existsb (Ascii.eqb d) known
            | EmptyString => false
            end
       else true)
      && directives_in known s'
  end.
End DurationFormatter.

(** ** [ADSFactory._check_normalize_args] *)

Module ADSFactory.

(** The values a keyword argument may hold, as far as the function looks at
    them: its truth value and whether it is a [bool].  [v_object] is any
    other object, true like every object without [__bool__] and
    [__len__]. *)
Inductive value : Type :=
| v_None
| v_bool (b : bool)
| v_int (n : Z)
| v_float (x : Q)
| v_str (s : string)
| v_bytes (b : bytes)
| v_object.

(** [bool(v)]. *)
Definition truthy (v : value) : bool :=
  match v with
  | v_None => false
  | v_bool b => b
  | v_int n => negb (n =? 0)
  | v_float x => negb (Qeq_bool x 0)
  | v_str s => negb (String.eqb s "")
  | v_bytes b => match b with [] => false | _ :: _ => true end
  | v_object => true
  end.

(** [isinstance(v, bool)]. *)
Definition isinstance_bool (v : value) : bool :=
  match v with
  | v_bool _ => true
  | _ => false
  end.

(** [kwargs]: a dict, its keys in insertion order. *)
Definition kwargs : Type := list (string * value).

Fixpoint get (k : string) (kw : kwargs) : option value :=
  match kw with
  | [] => None
  | (k', v) :: rest => if String.eqb k' k then Some v else get k rest
  end.

(** [k in kwargs]. *)
Definition contains (k : string) (kw : kwargs) : bool :=
  match get k kw with
  | Some _ => true
  | None => false
  end.

Definition remove (k : string) (kw : kwargs) : kwargs :=
  filter (fun kv => negb (String.eqb (fst kv) k)) kw.

(** [kwargs.pop(k, default)]. *)
Definition pop (k : string) (default : value) (kw : kwargs) : value * kwargs :=
  (match get k kw with Some v => v | None => default end, remove k kw).

(** [kwargs[k] = v]: an existing key keeps its place, a new one goes last. *)
Fixpoint set (k : string) (v : value) (kw : kwargs) : kwargs :=
  match kw with
  | [] => [(k, v)]
  | (k', v') :: rest =>
      if String.eqb k' k then (k, v) :: rest else (k', v') :: set k v rest
  end.

(** The names the first loop accepts. *)
Definition accepted_names : list string :=
  [ "block_dur"; "hop_dur"; "block_size"; "hop_size"; "max_time"; "record";
    "audio_source"; "filename"; "data_buffer"; "frames_per_buffer";
    "sampling_rate"; "sample_width"; "channels"; "sr"; "sw"; "ch"; "asrc";
    "fn"; "fpb"; "db"; "mt"; "rec"; "bd"; "hd"; "bs"; "hs" ]%string.

(** The pairs of names the thirteen [if ... in kwargs and ... in kwargs]
    tests look for, in their order; the ninth looks for "fbb". *)
Definition duplicate_tests : list (string * string) :=
  [ ("block_dur", "bd"); ("hop_dur", "hd"); ("block_size", "bs");
    ("hop_size", "hs"); ("max_time", "mt"); ("audio_source", "asrc");
    ("filename", "fn"); ("data_buffer", "db"); ("frames_per_buffer", "fbb");
    ("sampling_rate", "sr"); ("sample_width", "sw"); ("channels", "ch");
    ("record", "rec") ]%string.

(** What the function raises: [ValueError] for the name the first loop
    stopped at, [DuplicateArgument] from the test of a pair of names, or
    [TypeError] for the value of "rec". *)
Inductive error : Type :=
| Invalid_argument (k : string)
| DuplicateArgument (long short : string)
| record_must_be_a_boolean.

Inductive checked : Type :=
| Normalized (kw : kwargs)
| Rejected (e : error).

(** [kwargs.pop(long, None) or kwargs.pop(short, None)]: the second [pop]
    runs only when the first value is false. *)
Definition pop_or_pop (long short : string) (kw : kwargs) : value * kwargs :=
  let (v, kw1) := pop long v_None kw in
  if truthy v then (v, kw1) else pop short v_None kw1.

(** [kwargs[short] = kwargs.pop(long, None) or kwargs.pop(short, None)]. *)
Definition keep_short (long short : string) (kw : kwargs) : kwargs :=
  let (v, kw1) := pop_or_pop long short kw in set short v kw1.

(** [if long in kwargs or short in kwargs: kwargs[long] = kwargs.pop(long,
    None) or kwargs.pop(short, None)]. *)
Definition keep_long (long short : string) (kw : kwargs) : kwargs :=
  if contains long kw || contains short kw then
    let (v, kw1) := pop_or_pop long short kw in set long v kw1
  else kw.

(** The statements after the tests, up to [kwargs["rec"] = record]. *)
Definition normalize_record (kw : kwargs) : checked :=
  let (record, kw1) := pop "record" (v_bool false) kw in
  if truthy record then Normalized (set "rec" record kw1)
  else
    let (record, kw2) := pop "rec" (v_bool false) kw1 in
    if isinstance_bool record then Normalized (set "rec" record kw2)
    else Rejected record_must_be_a_boolean.

Definition _check_normalize_args (kw : kwargs) : checked :=
  match find (fun k => negb (existsb (String.eqb k) accepted_names)) (map fst kw) with
  | Some k => Rejected (Invalid_argument k)
  | None =>
      match find (fun p => contains (fst p) kw && contains (snd p) kw) duplicate_tests with
      | Some (long, short) => Rejected (DuplicateArgument long short)
      | None =>
          let kw := keep_short "block_dur" "bd" kw in
          let kw := keep_short "hop_dur" "hd" kw in
          let kw := keep_short "block_size" "bs" kw in
          let kw := keep_short "hop_size" "hs" kw in
          let kw := keep_short "max_time" "mt" kw in
          let kw := keep_short "audio_source" "asrc" kw in
          let kw := keep_short "filename" "fn" kw in
          let kw := keep_short "data_buffer" "db" kw in
          match normalize_record kw with
          | Rejected e => Rejected e
          | Normalized kw =>
              let kw := keep_long "frames_per_buffer" "fpb" kw in
              let kw := keep_long "sampling_rate" "sr" kw in
              let kw := keep_long "sample_width" "sw" kw in
              let kw := keep_long "channels" "ch" kw in
              Normalized kw
          end
      end
  end.
End ADSFactory.

(** ** Further definitions for the statements *)

(** The reads of the given sizes, one after the other, with their results. *)
Fixpoint reads {W : Type} (read : Z -> W -> outcome (option bytes) * W)
    (sizes : list Z) (w : W) : list (outcome (option bytes)) * W :=
  match sizes with
  | [] => ([], w)
  | n :: rest =>
      let (r, w1) := read n w in
      let (rs, w2) := reads read rest w1 in
      (r :: rs, w2)
  end.

(** The blocks among the results of reads, in order. *)
Fixpoint blocks_of (results : list (outcome (option bytes))) : list bytes :=
  match results with
  | [] => []
  | Ret (Some block) :: rest => block :: blocks_of rest
  | _ :: rest => blocks_of rest
  end.

(** A recorder over the source state [s] that has not been rewound, with
    the blocks [c] in its cache. *)
Definition recording {S : Type} (s : S) (c : list bytes) : Recorder.t S :=
  {| Recorder._audio_source := inl s;
     Recorder._cache := Some c;
     Recorder._read_block := Recorder.read_and_cache_method;
     Recorder._read_from_cache := false;
     Recorder._data := None |}.

(** A recorder that replays: [rewind] has put the in-memory source [b] in
    place of the wrapped one and made [read] its [read]. *)
Definition replaying {S : Type} (r : Recorder.t S) : Prop :=
  Recorder._read_from_cache r = true /\
  Recorder._read_block r = Recorder.audio_source_read /\
  exists b, Recorder._audio_source r = inr b.

(** The object the window reader wraps is a recorder with the property [R],
    directly or under a limiter. *)
Definition under_recorder {S : Type} (R : Recorder.t S -> Prop)
    (s : AudioReader.limited S) : Prop :=
  (exists r, s = inl (inr r) /\ R r) \/
  (exists l r, s = inr l /\ Limiter._audio_source l = inr r /\ R r).

(** A recorder before its first [rewind]: it has a cache and no data. *)
Definition not_rewound {S : Type} (r : Recorder.t S) : Prop :=
  Recorder._read_from_cache r = false /\
  (exists c, Recorder._cache r = Some c) /\
  Recorder._data r = None.

(** A recorder after its first [rewind], with the data [d]. *)
Definition rewound_with {S : Type} (d : bytes) (r : Recorder.t S) : Prop :=
  Recorder._read_from_cache r = true /\ Recorder._data r = Some d.

(** What [data] of the reader gives when the recorder holds [d]: only the
    limiter, when there is one, cuts it. *)
Definition data_through {S : Type} (s : AudioReader.limited S) (d : bytes) : bytes :=
  match s with
  | inr l => slice_to (Limiter._max_samples l * Limiter._bytes_per_sample l) d
  | inl _ => d
  end.

(** A recorder that [__init__], reads, rewinds, [open] and [close] may
    leave: not rewound yet, or rewound with some data. *)
Definition tracked {S : Type} (r : Recorder.t S) : Prop :=
  not_rewound r \/ exists d, rewound_with d r.

(** The recorder holds [d] and the reader's [data] is [D]. *)
Definition data_fixed {S : Type} (d D : bytes) (s : AudioReader.limited S) : Prop :=
  under_recorder (rewound_with d) s /\ data_through s d = D.

(** An open in-memory source with samples of one byte on one channel. *)
Definition one_byte_samples (s : BufferAudioSource.t) : Prop :=
  BufferAudioSource.opened s = true /\
  BufferAudioSource.sample_width s = 1 /\
  BufferAudioSource.channels s = 1.

(** Window number [i] of [B] bytes when windows start [H] bytes apart. *)
Definition sliding_window (B H : nat) (d : bytes) (i : nat) : bytes :=
  firstn B (skipn (i * H) d).

(** The generator has not read anything yet: it is new, or suspended in
    [while not self.is_open()]. *)
Definition waiting (g : OverlapAudioReader.generator) : Prop :=
  g = OverlapAudioReader.created \/ g = OverlapAudioReader.at_yield_AudioIOError.

(** The value of [kwargs.pop(long, None) or kwargs.pop(short, None)] when
    [long] and [short] are two names. *)
Definition first_true_of (long short : string) (kw : ADSFactory.kwargs) : ADSFactory.value :=
  match ADSFactory.get long kw with
  | Some v =>
      if ADSFactory.truthy v then v
      else match ADSFactory.get short kw with Some v' => v' | None => ADSFactory.v_None end
  | None => match ADSFactory.get short kw with Some v' => v' | None => ADSFactory.v_None end
  end.

(** The arguments pass the first loop and the thirteen tests. *)
Definition passes_the_tests (kw : ADSFactory.kwargs) : Prop :=
  (forall k, ADSFactory.contains k kw = true -> In k ADSFactory.accepted_names) /\
  (forall long short,
     In (long, short) ADSFactory.duplicate_tests ->
     ADSFactory.contains long kw = true -> ADSFactory.contains short kw = false).

(** The eight pairs whose short name is kept. *)
Definition short_name_pairs : list (string * string) := firstn 8 ADSFactory.duplicate_tests.

(** Decides the comparisons of two literal names. *)
Ltac compare_names :=
  repeat match goal with
         | |- context [String.eqb ?a ?b] =>
             let r := eval vm_compute in (String.eqb a b) in
             match r with
             | true => change (String.eqb a b) with true
             | false => change (String.eqb a b) with false
             end
         end;
  cbv iota.

(** Carries a lookup in the normalized arguments back to the arguments
    given, with the lemmas for a name a step leaves alone ([other_]) and for
    a name it settles ([at_]). *)
Ltac look_back_with other_long other_short other_record at_long at_short at_record :=
  repeat first
    [ rewrite other_long by reflexivity
    | rewrite other_short by reflexivity
    | rewrite other_record by reflexivity
    | rewrite at_long by reflexivity; compare_names
    | rewrite at_record; compare_names
    | rewrite at_short by reflexivity; compare_names
    | progress unfold ADSFactory.contains, first_true_of ].

(** * Properties *)

(** ** The overlapping windows *)

(** C2: over the open in-memory source "abcdefghijklmnop" (rate 16, width 1,
    one channel), the overlap reader built with block_dur 0.25 and hop_dur
    0.125 has block size 4 and hop size 2; its first five reads return
    "abcd", "cdef", "efgh", "ghij", "ijkl", and each window starts with the
    last 4 - 2 = 2 bytes of the one before. *)
Theorem overlap_windows_of_abcdefghijklmnop :
  exists w,
    OverlapAudioReader.init BufferAudioSource.ops abcdefghijklmnop (1 # 4) (1 # 8) = Ret w /\
    OverlapAudioReader.block_size w = 4 /\
    OverlapAudioReader.hop_size w = 2 /\
    fst (calls (OverlapAudioReader.read BufferAudioSource.ops) 5 w) =
      map (fun s => Ret (Some (bytes_of s))) ["abcd"; "cdef"; "efgh"; "ghij"; "ijkl"]%string /\
    share (Z.to_nat (OverlapAudioReader.block_size w - OverlapAudioReader.hop_size w))
          (map bytes_of ["abcd"; "cdef"; "efgh"; "ghij"; "ijkl"]%string).
Proof.
  eexists. split; [ vm_compute; reflexivity | ].
  vm_compute. repeat split; auto.
Qed.

(** What [read] does when the generator is new and the source, open, has
    nothing to give: [None] once, then the [TypeError] of slicing [None],
    then [None] from the finished generator. *)
Lemma read_after_first_end_of_stream {S : Type} (inner : AudioSource S)
    (w : OverlapAudioReader.t S) (s' : S) :
  OverlapAudioReader._blocks w = OverlapAudioReader.created ->
  src_is_open inner (OverlapAudioReader._audio_source w) = true ->
  src_read inner (OverlapAudioReader._block_size w) (OverlapAudioReader._audio_source w)
    = (Ret None, s') ->
  fst (calls (OverlapAudioReader.read inner) 3 w) = [Ret None; Raise TypeError; Ret None].
Proof.
  intros Hg Ho Hr.
  unfold calls, OverlapAudioReader.read, OverlapAudioReader.next.
  rewrite Hg. unfold OverlapAudioReader.from_start. rewrite Ho, Hr.
  reflexivity.
Qed.

(** C1 (as the code behaves): over an open, empty in-memory source the first
    read of a new overlap reader returns [None], the second raises
    [TypeError] and the third returns [None]; the same after [rewind]. *)
Theorem overlap_read_raises_after_first_end_of_stream :
  exists w,
    OverlapAudioReader.init BufferAudioSource.ops (opened_buffer [] 16 1 1) (1 # 4) (1 # 8)
      = Ret w /\
    fst (calls (OverlapAudioReader.read BufferAudioSource.ops) 3 w)
      = [Ret None; Raise TypeError; Ret None] /\
    fst (calls (OverlapAudioReader.read BufferAudioSource.ops) 3
           (snd (OverlapAudioReader.rewind BufferAudioSource.ops w)))
      = [Ret None; Raise TypeError; Ret None].
Proof.
  eexists. split; [ vm_compute; reflexivity | ].
  split; vm_compute; reflexivity.
Qed.

Section OverlapLoop.
Context {S : Type} (inner : AudioSource S).

Lemma read_in_loop_empty (w : OverlapAudioReader.t S) (h : Z) (c : bytes) (s' : S) :
  running (OverlapAudioReader._blocks w) h c ->
  src_read inner (OverlapAudioReader._hop_size w) (OverlapAudioReader._audio_source w)
    = (Ret None, s') \/
  src_read inner (OverlapAudioReader._hop_size w) (OverlapAudioReader._audio_source w)
    = (Ret (Some []), s') ->
  OverlapAudioReader.read inner w =
    (Ret None, OverlapAudioReader.update s' (OverlapAudioReader.at_yield_None h c) w).
Proof.
  intros Hg Hr.
  unfold OverlapAudioReader.read, OverlapAudioReader.next.
  destruct Hg as [Hg | [Hg | Hg]]; rewrite Hg;
    unfold OverlapAudioReader.from_loop;
    destruct Hr as [Hr | Hr]; rewrite Hr; reflexivity.
Qed.

Lemma read_in_loop_data (w : OverlapAudioReader.t S) (h : Z) (c : bytes)
    (x : Byte.byte) (rest : bytes) (s' : S) :
  running (OverlapAudioReader._blocks w) h c ->
  src_read inner (OverlapAudioReader._hop_size w) (OverlapAudioReader._audio_source w)
    = (Ret (Some (x :: rest)), s') ->
  OverlapAudioReader.read inner w =
    (Ret (Some (c ++ x :: rest)),
     OverlapAudioReader.update s'
       (OverlapAudioReader.at_yield_block h (slice_from h (c ++ x :: rest))) w).
Proof.
  intros Hg Hr.
  unfold OverlapAudioReader.read, OverlapAudioReader.next.
  destruct Hg as [Hg | [Hg | Hg]]; rewrite Hg;
    unfold OverlapAudioReader.from_loop; rewrite Hr; reflexivity.
Qed.

Lemma reads_while_dry (n : nat) :
  forall (w : OverlapAudioReader.t S) (h : Z) (c : bytes),
    running (OverlapAudioReader._blocks w) h c ->
    dry inner (OverlapAudioReader._hop_size w) n (OverlapAudioReader._audio_source w) ->
    fst (calls (OverlapAudioReader.read inner) n w) = repeat (Ret None) n /\
    running (OverlapAudioReader._blocks (snd (calls (OverlapAudioReader.read inner) n w))) h c /\
    OverlapAudioReader._hop_size (snd (calls (OverlapAudioReader.read inner) n w))
      = OverlapAudioReader._hop_size w.
Proof.
  induction n as [| n IH]; intros w h c Hg Hd.
  - simpl. auto.
  - destruct Hd as [s' [Hr Hd]].
    simpl. rewrite (read_in_loop_empty w h c s' Hg Hr).
    set (w1 := OverlapAudioReader.update s' (OverlapAudioReader.at_yield_None h c) w).
    assert (Hg1 : running (OverlapAudioReader._blocks w1) h c)
      by (right; right; reflexivity).
    destruct (IH w1 h c Hg1 Hd) as [A [B C]].
    destruct (calls (OverlapAudioReader.read inner) n w1) as [rs w2].
    simpl in *. rewrite A. auto.
Qed.
End OverlapLoop.

(** C8, as stated, fails: a live source gives "abcd", then nothing, then
    "ef"; the second read of the overlap reader asks for a hop, gets
    end-of-stream and returns [None], and the third returns "cdef". *)
Lemma overlap_windows_resume_counterexample :
  exists w0 w1 w2 w3,
    OverlapAudioReader.init LiveSource.ops
      (live [Some (bytes_of "abcd"); None; Some (bytes_of "ef")]) (1 # 4) (1 # 8) = Ret w0 /\
    OverlapAudioReader.read LiveSource.ops w0 = (Ret (Some (bytes_of "abcd")), w1) /\
    fst (src_read LiveSource.ops (OverlapAudioReader.hop_size w1)
           (OverlapAudioReader._audio_source w1)) = Ret None /\
    OverlapAudioReader.read LiveSource.ops w1 = (Ret None, w2) /\
    OverlapAudioReader.read LiveSource.ops w2 = (Ret (Some (bytes_of "cdef")), w3) /\
    fst (OverlapAudioReader.read LiveSource.ops w2) <> Ret None.
Proof.
  do 4 eexists.
  split; [ vm_compute; reflexivity | ].
  split; [ vm_compute; reflexivity | ].
  split; [ vm_compute; reflexivity | ].
  split; [ vm_compute; reflexivity | ].
  split; [ vm_compute; reflexivity | ].
  vm_compute. discriminate.
Qed.

(** C8, amended: once the generator is in its loop with carry [c], the next
    [n] reads return [None] (and keep the carry) as long as the source's
    reads of hop_size samples come back [None] or empty; a read of hop_size
    samples that comes back non-empty makes [read] return the carry followed
    by it, whatever came before. *)
Theorem overlap_end_of_stream_while_source_dry {S : Type} (inner : AudioSource S)
    (w : OverlapAudioReader.t S) (h : Z) (c : bytes) :
  running (OverlapAudioReader._blocks w) h c ->
  (forall n,
      dry inner (OverlapAudioReader._hop_size w) n (OverlapAudioReader._audio_source w) ->
      fst (calls (OverlapAudioReader.read inner) n w) = repeat (Ret None) n /\
      running (OverlapAudioReader._blocks (snd (calls (OverlapAudioReader.read inner) n w))) h c) /\
  (forall x rest s',
      src_read inner (OverlapAudioReader._hop_size w) (OverlapAudioReader._audio_source w)
        = (Ret (Some (x :: rest)), s') ->
      fst (OverlapAudioReader.read inner w) = Ret (Some (c ++ x :: rest))).
Proof.
  intros Hg. split.
  - intros n Hd. destruct (reads_while_dry inner n w h c Hg Hd) as [A [B _]]. auto.
  - intros x rest s' Hr. rewrite (read_in_loop_data inner w h c x rest s' Hg Hr).
    reflexivity.
Qed.

(** The amended C8 on the live source that gives "abcd", nothing, then "ef". *)
Lemma overlap_end_of_stream_while_source_dry_witness :
  fst (calls (OverlapAudioReader.read LiveSource.ops) 1 resumed_example_1) = [Ret None] /\
  fst (OverlapAudioReader.read LiveSource.ops resumed_example_2)
    = Ret (Some (bytes_of "cdef")).
Proof.
  split.
  - refine (proj1 (proj1 (overlap_end_of_stream_while_source_dry LiveSource.ops
                     resumed_example_1 2 (bytes_of "cd") _) 1%nat _)).
    + left. reflexivity.
    + simpl. eexists. split; [ left; reflexivity | exact I ].
  - refine (proj2 (overlap_end_of_stream_while_source_dry LiveSource.ops
                     resumed_example_2 2 (bytes_of "cd") _)
              Byte.x65 [ Byte.x66 ] (live []) _).
    + right. right. reflexivity.
    + reflexivity.
Defined.

(** ** The checks of the window readers' constructors *)

Lemma Qle_bool_false_iff (x y : Q) : Qle_bool x y = false <-> (y < x)%Q.
Proof.
  split; intros H.
  - apply Qnot_le_lt. intros Hle. apply Qle_bool_iff in Hle. congruence.
  - destruct (Qle_bool x y) eqn:E; [ | reflexivity ].
    apply Qle_bool_iff in E. exfalso. exact (Qlt_not_le _ _ H E).
Qed.

Lemma py_int_floor_nonneg (x : Q) (n : Z) :
  (0 < x)%Q -> 0 <= n -> py_int (scale x n) = floorQ (scale x n).
Proof.
  intros Hx Hn. unfold py_int, floorQ.
  apply Z.quot_div_nonneg; [ | reflexivity ].
  unfold scale. simpl.
  unfold Qlt in Hx. simpl in Hx. rewrite Z.mul_1_r in Hx.
  apply Z.mul_nonneg_nonneg; lia.
Qed.

Lemma floorQ_scale_nonneg (x : Q) (n : Z) :
  (0 < x)%Q -> 0 <= n -> 0 <= floorQ (scale x n).
Proof.
  intros Hx Hn. unfold floorQ. apply Z.div_pos; [ | reflexivity ].
  unfold scale. simpl.
  unfold Qlt in Hx. simpl in Hx. rewrite Z.mul_1_r in Hx.
  apply Z.mul_nonneg_nonneg; lia.
Qed.

Section Constructors.
Context {S : Type} (inner : AudioSource S).

Lemma fixed_init_cases (src : S) (bd : Q) :
  0 <= src_sr inner src ->
  ((bd <= 0)%Q /\ FixedSizeAudioReader.init inner src bd = Raise ValueError) \/
  ((0 < bd)%Q /\ floorQ (scale bd (src_sr inner src)) = 0 /\
   FixedSizeAudioReader.init inner src bd = Raise TooSamllBlockDuration) \/
  ((0 < bd)%Q /\ 1 <= floorQ (scale bd (src_sr inner src)) /\
   FixedSizeAudioReader.init inner src bd =
     Ret {| FixedSizeAudioReader._audio_source := src;
            FixedSizeAudioReader._block_size := floorQ (scale bd (src_sr inner src)) |}).
Proof.
  intros Hsr. unfold FixedSizeAudioReader.init.
  destruct (Qle_bool bd 0) eqn:E.
  - left. split; [ apply Qle_bool_iff; exact E | reflexivity ].
  - right. apply Qle_bool_false_iff in E.
    rewrite (py_int_floor_nonneg bd _ E Hsr).
    pose proof (floorQ_scale_nonneg bd _ E Hsr) as Hf.
    destruct (floorQ (scale bd (src_sr inner src)) =? 0) eqn:E0.
    + left. apply Z.eqb_eq in E0. auto.
    + right. apply Z.eqb_neq in E0. repeat split; auto. lia.
Qed.

Lemma overlap_read_raises (w : OverlapAudioReader.t S) (e : exn) :
  fst (OverlapAudioReader.read inner w) = Raise e ->
  e = TypeError \/ e = AudioIOError "Audio Stream is not open." \/
  exists size, fst (src_read inner size (OverlapAudioReader._audio_source w)) = Raise e.
Proof.
  unfold OverlapAudioReader.read, OverlapAudioReader.next.
  assert (Hstart : forall r s g,
             OverlapAudioReader.from_start inner w = (r, s, g) ->
             forall e', r = OverlapAudioReader.Throw e' ->
             exists size, fst (src_read inner size (OverlapAudioReader._audio_source w))
                          = Raise e').
  { unfold OverlapAudioReader.from_start. intros r s g.
    destruct (src_is_open inner (OverlapAudioReader._audio_source w)).
    - destruct (src_read inner (OverlapAudioReader._block_size w)
                  (OverlapAudioReader._audio_source w)) as [[[blk |] | e1] s1] eqn:Er;
        intros H; inversion H; subst; intros e' He'; try discriminate.
      inversion He'; subst. exists (OverlapAudioReader._block_size w).
      rewrite Er. reflexivity.
    - intros H. inversion H; subst. intros e' He'. discriminate. }
  assert (Hloop : forall h c r s g,
             OverlapAudioReader.from_loop inner h c w = (r, s, g) ->
             (forall e', r = OverlapAudioReader.Throw e' ->
                exists size, fst (src_read inner size (OverlapAudioReader._audio_source w))
                             = Raise e') /\
             r <> OverlapAudioReader.Yield OverlapAudioReader.the_class_AudioIOError).
  { unfold OverlapAudioReader.from_loop. intros h c r s g.
    destruct (src_read inner (OverlapAudioReader._hop_size w)
                (OverlapAudioReader._audio_source w)) as [[[[| x rest] |] | e1] s1] eqn:Er;
      intros H; inversion H; subst; (split; [ intros e' He' | discriminate ]);
      try discriminate;
      inversion He'; subst; exists (OverlapAudioReader._hop_size w);
      rewrite Er; reflexivity. }
  destruct (OverlapAudioReader._blocks w) as [ | | | h c | h c | h c | ].
  1, 2: destruct (OverlapAudioReader.from_start inner w) as [[r s] g] eqn:E;
    specialize (Hstart r s g eq_refl);
    destruct r as [[ | | blk] | e1 | ]; simpl; intros H; inversion H; subst; eauto.
  1: simpl; intros H; inversion H; auto.
  1, 2, 3: destruct (OverlapAudioReader.from_loop inner h c w) as [[r s] g] eqn:E;
    destruct (Hloop h c r s g E) as [Ht Hn];
    destruct r as [[ | | blk] | e1 | ]; simpl; intros H; inversion H; subst; eauto;
    congruence.
  simpl. intros H. discriminate.
Qed.
End Constructors.

(** C5, as stated, fails at a block duration of zero: floor(0 * 16) is 0,
    yet the constructor raises [ValueError], not [TooSamllBlockDuration];
    and the overlap reader with hop_dur >= block_dur raises [ValueError]
    even though floor(0.01 * 16) is 0. *)
Lemma block_dur_zero_counterexample :
  floorQ (scale 0 (src_sr BufferAudioSource.ops abcdefghijklmnop)) = 0 /\
  FixedSizeAudioReader.init BufferAudioSource.ops abcdefghijklmnop 0 = Raise ValueError /\
  FixedSizeAudioReader.init BufferAudioSource.ops abcdefghijklmnop 0
    <> Raise TooSamllBlockDuration /\
  floorQ (scale (1 # 100) (src_sr BufferAudioSource.ops abcdefghijklmnop)) = 0 /\
  OverlapAudioReader.init BufferAudioSource.ops abcdefghijklmnop (1 # 100) (1 # 50)
    = Raise ValueError.
Proof.
  repeat split; try (vm_compute; reflexivity).
  vm_compute. discriminate.
Qed.

(** C5, amended: the fixed-window constructor raises [ValueError] for every
    block_dur <= 0; over a source whose sampling rate is not negative it
    raises [TooSamllBlockDuration] exactly when block_dur > 0 and
    floor(block_dur * sr) = 0, and otherwise returns a reader whose block
    size is floor(block_dur * sr) >= 1; its [read] has the outcome of the
    wrapped source's read.  The overlap constructor raises [ValueError] when
    block_dur <= 0 or hop_dur >= block_dur, and [TooSamllBlockDuration]
    exactly when hop_dur < block_dur, block_dur > 0 and
    floor(block_dur * sr) = 0; its [read] raises [TypeError], the
    [AudioIOError] of a source that is not open, or what the source's read
    raised. *)
Theorem block_dur_checked_at_construction {S : Type} (inner : AudioSource S)
    (src : S) (bd : Q) :
  ((bd <= 0)%Q -> FixedSizeAudioReader.init inner src bd = Raise ValueError) /\
  (0 <= src_sr inner src ->
   (FixedSizeAudioReader.init inner src bd = Raise TooSamllBlockDuration <->
    (0 < bd)%Q /\ floorQ (scale bd (src_sr inner src)) = 0)) /\
  (0 <= src_sr inner src ->
   forall w, FixedSizeAudioReader.init inner src bd = Ret w ->
     (0 < bd)%Q /\
     FixedSizeAudioReader.block_size w = floorQ (scale bd (src_sr inner src)) /\
     1 <= FixedSizeAudioReader.block_size w) /\
  (forall w : FixedSizeAudioReader.t S,
     fst (FixedSizeAudioReader.read inner w) =
     fst (src_read inner (FixedSizeAudioReader._block_size w)
            (FixedSizeAudioReader._audio_source w))) /\
  (forall hd,
     ((bd <= 0)%Q \/ (bd <= hd)%Q ->
      OverlapAudioReader.init inner src bd hd = Raise ValueError) /\
     (0 <= src_sr inner src ->
      (OverlapAudioReader.init inner src bd hd = Raise TooSamllBlockDuration <->
       (hd < bd)%Q /\ (0 < bd)%Q /\ floorQ (scale bd (src_sr inner src)) = 0)) /\
     (0 <= src_sr inner src ->
      forall w, OverlapAudioReader.init inner src bd hd = Ret w ->
        (hd < bd)%Q /\ (0 < bd)%Q /\
        OverlapAudioReader.block_size w = floorQ (scale bd (src_sr inner src)) /\
        1 <= OverlapAudioReader.block_size w)) /\
  (forall (w : OverlapAudioReader.t S) e,
     fst (OverlapAudioReader.read inner w) = Raise e ->
     e = TypeError \/ e = AudioIOError "Audio Stream is not open." \/
     exists size, fst (src_read inner size (OverlapAudioReader._audio_source w)) = Raise e).
Proof.
  assert (Hle : forall x y : Q, (x <= y)%Q -> (y < x)%Q -> False)
    by (intros x y H1 H2; exact (Qlt_not_le _ _ H2 H1)).
  assert (Hneg : (bd <= 0)%Q -> FixedSizeAudioReader.init inner src bd = Raise ValueError).
  { intros Hbd. unfold FixedSizeAudioReader.init.
    apply Qle_bool_iff in Hbd. rewrite Hbd. reflexivity. }
  split; [ exact Hneg | split; [ | split; [ | split; [ | split ] ] ] ].
  - intros Hsr. pose proof (fixed_init_cases inner src bd Hsr) as Hc. split.
    + intros E. destruct Hc as [[_ E'] | [[H [H0 _]] | [_ [_ E']]]]; auto; congruence.
    + intros [Hbd H0]. destruct Hc as [[H _] | [[_ [_ E]] | [_ [H1 _]]]]; auto.
      * destruct (Hle _ _ H Hbd).
      * lia.
  - intros Hsr w E. pose proof (fixed_init_cases inner src bd Hsr) as Hc.
    destruct Hc as [[_ E'] | [[_ [_ E']] | [H [H1 E']]]]; try congruence.
    rewrite E' in E. inversion E; subst. simpl. auto.
  - intros w. unfold FixedSizeAudioReader.read.
    destruct (src_read inner _ _) as [r s']. reflexivity.
  - intros hd. unfold OverlapAudioReader.init.
    destruct (Qle_bool bd hd) eqn:Eh.
    + apply Qle_bool_iff in Eh.
      split; [ reflexivity | split; [ intros _; split | ] ].
      * discriminate.
      * intros [H _]. destruct (Hle _ _ Eh H).
      * intros _ w E. discriminate.
    + apply Qle_bool_false_iff in Eh. split; [ | split ].
      * intros [H' | H']; [ | destruct (Hle _ _ H' Eh) ].
        rewrite (Hneg H'). reflexivity.
      * intros Hsr.
        destruct (fixed_init_cases inner src bd Hsr)
          as [[H E] | [[H [H0 E]] | [H [H1 E]]]]; rewrite E; split.
        -- discriminate.
        -- intros [_ [H' _]]. destruct (Hle _ _ H H').
        -- auto.
        -- auto.
        -- discriminate.
        -- intros [_ [_ H0]]. lia.
      * intros Hsr w.
        destruct (fixed_init_cases inner src bd Hsr)
          as [[H E] | [[H [H0 E]] | [H [H1 E]]]]; rewrite E; intros E';
          try discriminate.
        inversion E'; subst. simpl. auto.
  - intros w e. apply overlap_read_raises.
Qed.

(** The amended C5 at block_dur 0.01 and sampling rate 16. *)
Lemma block_dur_checked_at_construction_witness :
  FixedSizeAudioReader.init BufferAudioSource.ops abcdefghijklmnop (1 # 100)
    = Raise TooSamllBlockDuration.
Proof.
  apply (proj1 (proj2 (block_dur_checked_at_construction
                         BufferAudioSource.ops abcdefghijklmnop (1 # 100)))).
  - vm_compute. discriminate.
  - split; reflexivity.
Defined.

(** ** The channel selector and the energy validator *)


Lemma in_mix_avg_average_iff (selected : selected_value) :
  in_mix_avg_average selected = true <->
  selected = sel_str "mix" \/ selected = sel_str "avg" \/ selected = sel_str "average".
Proof.
  destruct selected as [ | i | v | s | x ]; simpl; split; intros H;
    try discriminate; auto;
    try (destruct H as [H | [H | H]]; discriminate).
  - apply orb_true_iff in H. destruct H as [H | H].
    + apply orb_true_iff in H. destruct H as [H | H];
        apply String.eqb_eq in H; subst; auto.
    + apply String.eqb_eq in H; subst; auto.
  - destruct H as [H | [H | H]]; inversion H; reflexivity.
Qed.

(** C6, as stated, fails for one channel: with sample width 2 and one
    channel, the mode "bogus" (not an integer, not an averaging mode, not
    None or "any") gives the identity selector, and no error. *)
Lemma unknown_mode_one_channel_counterexample :
  FORMAT_1_2_4 2 <> None /\
  1 <= 1 /\
  as_int (sel_str "bogus") = None /\
  in_mix_avg_average (sel_str "bogus") = false /\
  in_None_any (sel_str "bogus") = false /\
  make_channel_selector FORMAT_1_2_4 2 1 (sel_str "bogus") = Ret identity /\
  make_channel_selector FORMAT_1_2_4 2 1 (sel_str "bogus") <> Raise ValueError.
Proof.
  repeat split; try reflexivity; try lia; vm_compute; discriminate.
Qed.

(** C6, amended: for a valid sample width and a channel count other than 1
    (so for every count >= 2), a mode that is not an integer, not "mix",
    "avg" or "average" and not None or "any" makes [make_channel_selector]
    raise [ValueError]; with one channel the result is the identity selector
    whatever the mode. *)
Theorem unknown_mode_is_ValueError {fmt : Type} (FORMAT : Z -> option fmt)
    (sample_width channels : Z) (selected : selected_value) :
  FORMAT sample_width <> None ->
  as_int selected = None ->
  in_mix_avg_average selected = false ->
  in_None_any selected = false ->
  (channels <> 1 ->
   make_channel_selector FORMAT sample_width channels selected = Raise ValueError) /\
  (channels = 1 ->
   make_channel_selector FORMAT sample_width channels selected = Ret identity).
Proof.
  intros Hf Hi Hm Ha. unfold make_channel_selector.
  destruct (FORMAT sample_width) as [f |]; [ | congruence ].
  split; intros Hc.
  - apply Z.eqb_neq in Hc. rewrite Hc, Hi, Hm, Ha. reflexivity.
  - apply Z.eqb_eq in Hc. rewrite Hc. reflexivity.
Qed.

(** The amended C6 at sample width 2, two channels and the mode "bogus". *)
Lemma unknown_mode_is_ValueError_witness :
  make_channel_selector FORMAT_1_2_4 2 2 (sel_str "bogus") = Raise ValueError.
Proof.
  apply (proj1 (unknown_mode_is_ValueError FORMAT_1_2_4 2 2 (sel_str "bogus")
                  ltac:(vm_compute; discriminate) eq_refl eq_refl eq_refl)).
  lia.
Defined.



(** ** The limiter *)

Lemma buffer_read_full (s : BufferAudioSource.t) (size : Z) :
  BufferAudioSource.opened s = true ->
  0 < size * (BufferAudioSource.sample_width s * BufferAudioSource.channels s) ->
  (BufferAudioSource.position s
   + Z.to_nat (size * (BufferAudioSource.sample_width s * BufferAudioSource.channels s))
   <= length (BufferAudioSource.data s))%nat ->
  exists chunk,
    BufferAudioSource.read size s =
      (Ret (Some chunk),
       BufferAudioSource.set_position
         (BufferAudioSource.position s + length chunk)%nat s) /\
    chunk = firstn (Z.to_nat (size * (BufferAudioSource.sample_width s
                                      * BufferAudioSource.channels s)))
                   (skipn (BufferAudioSource.position s) (BufferAudioSource.data s)) /\
    len chunk = size * (BufferAudioSource.sample_width s * BufferAudioSource.channels s).
Proof.
  intros Ho Hpos Hfit.
  unfold BufferAudioSource.read. rewrite Ho.
  set (k := Z.to_nat (size * (BufferAudioSource.sample_width s
                              * BufferAudioSource.channels s))) in *.
  set (chunk := firstn k (skipn (BufferAudioSource.position s) (BufferAudioSource.data s))).
  assert (Hlen : length chunk = k).
  { unfold chunk. rewrite length_firstn, length_skipn. lia. }
  exists chunk. split; [ | split; [ reflexivity | unfold len; lia ] ].
  destruct chunk as [| x rest] eqn:E.
  - simpl in Hlen. lia.
  - reflexivity.
Qed.

Section LimiterRead.
Context {S : Type} (inner : AudioSource S).

Lemma limiter_read_exhausted (l : Limiter.t S) (size : Z) :
  Limiter._max_samples l - Limiter._read_samples l <= 0 ->
  Limiter.read inner size l = (Ret None, l).
Proof.
  intros H. unfold Limiter.read.
  assert (E : (Z.min (Limiter._max_samples l - Limiter._read_samples l) size <=? 0) = true)
    by (apply Z.leb_le; lia).
  rewrite E. reflexivity.
Qed.

Lemma limiter_read_request (l : Limiter.t S) (size : Z) :
  0 < Limiter._max_samples l - Limiter._read_samples l ->
  0 < size ->
  Limiter.read inner size l =
    let (res, s') :=
      src_read inner (Z.min (Limiter._max_samples l - Limiter._read_samples l) size)
               (Limiter._audio_source l) in
    match res with
    | Raise e => (Raise e, Limiter.update s' (Limiter._read_samples l) l)
    | Ret None => (Ret None, Limiter.update s' (Limiter._read_samples l) l)
    | Ret (Some block) =>
        if Limiter._bytes_per_sample l =? 0
        then (Raise ZeroDivisionError, Limiter.update s' (Limiter._read_samples l) l)
        else (Ret (Some block),
              Limiter.update s'
                (Limiter._read_samples l + len block / Limiter._bytes_per_sample l) l)
    end.
Proof.
  intros Hr Hs. unfold Limiter.read.
  assert (E : (Z.min (Limiter._max_samples l - Limiter._read_samples l) size <=? 0) = false)
    by (apply Z.leb_gt; lia).
  rewrite E. reflexivity.
Qed.
End LimiterRead.

Lemma limiter_session_from (size : Z) (fuel : nat) :
  0 < size ->
  forall l : Limiter.t BufferAudioSource.t,
    limiter_on_track l ->
    (Z.to_nat (Limiter._max_samples l - Limiter._read_samples l) < fuel)%nat ->
    exists blocks l',
      read_until_None (Limiter.read BufferAudioSource.ops size) fuel l
        = Some (Ret blocks, l') /\
      len (concat blocks)
        = (Limiter._max_samples l - Limiter._read_samples l) * Limiter._bytes_per_sample l.
Proof.
  intros Hsize. induction fuel as [| fuel IH]; intros l Ht Hfuel; [ lia | ].
  destruct Ht as [Ho [Hsw [Hch [Hb [Hrs [Hp Hcap]]]]]].
  assert (Hbps : 0 < Limiter._bytes_per_sample l) by (rewrite Hb; lia).
  simpl.
  destruct (Z.eq_dec (Limiter._max_samples l) (Limiter._read_samples l)) as [Heq | Hne].
  - rewrite limiter_read_exhausted by lia.
    exists [], l. split; [ reflexivity | ]. rewrite Heq, Z.sub_diag. reflexivity.
  - set (rem := Limiter._max_samples l - Limiter._read_samples l) in *.
    assert (Hrem : 0 < rem) by (unfold rem; lia).
    rewrite limiter_read_request by assumption.
    fold rem. set (k := Z.min rem size).
    assert (Hk : 0 < k <= rem) by (unfold k; lia).
    destruct (buffer_read_full (Limiter._audio_source l) k Ho) as [chunk [Er [Ec Hl]]].
    + rewrite <- Hb. apply Z.mul_pos_pos; lia.
    + rewrite <- Hb. unfold len in Hcap.
      assert (k * Limiter._bytes_per_sample l
              <= rem * Limiter._bytes_per_sample l) by nia.
      unfold rem in *. nia.
    + simpl src_read. rewrite Er.
      assert (E0 : (Limiter._bytes_per_sample l =? 0) = false) by (apply Z.eqb_neq; lia).
      rewrite E0. rewrite <- Hb in Hl.
      assert (Hdiv : len chunk / Limiter._bytes_per_sample l = k).
      { rewrite Hl. apply Z.div_mul. lia. }
      rewrite Hdiv.
      set (l1 := Limiter.update _ _ l).
      assert (Ht1 : limiter_on_track l1).
      { unfold limiter_on_track, l1. simpl.
        repeat split; auto; try lia.
        unfold len in Hl. rewrite Nat2Z.inj_add, Hp, Hl. ring. }
      assert (Hf1 : (Z.to_nat (Limiter._max_samples l1 - Limiter._read_samples l1)
                     < fuel)%nat).
      { unfold l1. simpl. unfold rem in *. lia. }
      destruct (IH l1 Ht1 Hf1) as [blocks [l' [Es Hlen]]].
      rewrite Es. exists (chunk :: blocks), l'. split; [ reflexivity | ].
      simpl concat. unfold len in *. rewrite length_app, Nat2Z.inj_add, Hlen, Hl.
      unfold l1. simpl. unfold rem. ring.
Qed.

Lemma py_round_nonneg (x : Q) : (0 <= x)%Q -> 0 <= py_round x.
Proof.
  intros Hx. unfold py_round.
  assert (Hn : 0 <= Qnum x).
  { unfold Qle in Hx. simpl in Hx. lia. }
  assert (Hf : 0 <= Qnum x / Z.pos (Qden x)) by (apply Z.div_pos; lia).
  destruct (2 * (Qnum x mod Z.pos (Qden x)) ?= Z.pos (Qden x)); try lia.
  destruct (Z.even (Qnum x / Z.pos (Qden x))); lia.
Qed.

Lemma scale_nonneg (x : Q) (n : Z) : (0 <= x)%Q -> 0 <= n -> (0 <= scale x n)%Q.
Proof.
  intros Hx Hn. unfold scale, Qle in *. simpl in *. nia.
Qed.

(** C3: a limiter built with max_read keeps max_samples = round(max_read *
    sr) and bytes_per_sample = sw * ch.  Over any source, a read returns
    [None] without touching anything when max_samples - read_samples <= 0;
    otherwise a read of n > 0 samples asks the source for min(remaining, n)
    samples, passes [None] on, and adds len(block) // bytes_per_sample to the
    counter for a block.  Over an open in-memory source that holds at least
    the cap, with max_read >= 0, the client loop that reads n > 0 samples at
    a time until [None] ends and gathers exactly round(max_read * sr) * sw *
    ch bytes. *)
Theorem limiter_returns_exactly_the_cap {S : Type} (inner : AudioSource S) (n : Z) :
  0 < n ->
  (forall (src : S) (max_read : Q),
     Limiter._max_samples (Limiter.init inner src max_read)
       = py_round (scale max_read (src_sr inner src)) /\
     Limiter._bytes_per_sample (Limiter.init inner src max_read)
       = src_sw inner src * src_ch inner src /\
     Limiter._read_samples (Limiter.init inner src max_read) = 0) /\
  (forall l : Limiter.t S,
     Limiter._max_samples l - Limiter._read_samples l <= 0 ->
     Limiter.read inner n l = (Ret None, l)) /\
  (forall (l : Limiter.t S) res s',
     0 < Limiter._max_samples l - Limiter._read_samples l ->
     src_read inner (Z.min (Limiter._max_samples l - Limiter._read_samples l) n)
              (Limiter._audio_source l) = (res, s') ->
     match res with
     | Ret (Some block) =>
         Limiter._bytes_per_sample l <> 0 ->
         Limiter.read inner n l =
           (Ret (Some block),
            Limiter.update s'
              (Limiter._read_samples l + len block / Limiter._bytes_per_sample l) l)
     | Ret None =>
         Limiter.read inner n l = (Ret None, Limiter.update s' (Limiter._read_samples l) l)
     | Raise e =>
         Limiter.read inner n l = (Raise e, Limiter.update s' (Limiter._read_samples l) l)
     end) /\
  (forall (d : bytes) (sr sw ch : Z) (max_read : Q) (fuel : nat),
     0 <= sr -> 0 < sw -> 0 < ch -> (0 <= max_read)%Q ->
     py_round (scale max_read sr) * (sw * ch) <= len d ->
     (Z.to_nat (py_round (scale max_read sr)) < fuel)%nat ->
     exists blocks l',
       read_until_None (Limiter.read BufferAudioSource.ops n) fuel
         (Limiter.init BufferAudioSource.ops (opened_buffer d sr sw ch) max_read)
         = Some (Ret blocks, l') /\
       len (concat blocks) = py_round (scale max_read sr) * sw * ch).
Proof.
  intros Hn.
  split; [ | split; [ | split ] ].
  - intros src max_read. repeat split.
  - intros l Hl. apply limiter_read_exhausted. exact Hl.
  - intros l res s' Hl Hr. rewrite (limiter_read_request inner l n Hl Hn), Hr.
    destruct res as [[block |] | e]; try reflexivity.
    intros Hb. apply Z.eqb_neq in Hb. rewrite Hb. reflexivity.
  - intros d sr sw ch max_read fuel Hsr Hsw Hch Hm Hcap Hfuel.
    set (l0 := Limiter.init BufferAudioSource.ops (opened_buffer d sr sw ch) max_read).
    pose proof (py_round_nonneg _ (scale_nonneg max_read sr Hm Hsr)) as Hpos.
    assert (Ht : limiter_on_track l0).
    { unfold limiter_on_track, l0. simpl. repeat split; auto; lia. }
    destruct (limiter_session_from n fuel Hn l0 Ht) as [blocks [l' [Es Hlen]]].
    + unfold l0. simpl. rewrite Z.sub_0_r. exact Hfuel.
    + exists blocks, l'. split; [ exact Es | ].
      rewrite Hlen. unfold l0. simpl. ring.
Qed.

(** C3 at a 16-byte source read 3 samples at a time under a cap of half a
    second, 8 samples. *)
Lemma limiter_returns_exactly_the_cap_witness :
  exists blocks l',
    read_until_None (Limiter.read BufferAudioSource.ops 3) 9
      (Limiter.init BufferAudioSource.ops
         (opened_buffer (bytes_of "abcdefghijklmnop") 16 1 1) (1 # 2))
      = Some (Ret blocks, l') /\
    len (concat blocks) = py_round (scale (1 # 2) 16) * 1 * 1.
Proof.
  refine (proj2 (proj2 (proj2 (limiter_returns_exactly_the_cap LiveSource.ops 3 _)))
            (bytes_of "abcdefghijklmnop") 16 1 1 (1 # 2) 9%nat _ _ _ _ _ _).
  - lia.
  - lia.
  - lia.
  - lia.
  - unfold Qle. simpl. lia.
  - vm_compute. discriminate.
  - vm_compute. lia.
Defined.

(** ** What a session keeps *)

Section Kept.
Context {S : Type} (inner : AudioSource S) (P : S -> Prop).
Hypothesis read_keeps : forall n s, P s -> P (snd (src_read inner n s)).
Hypothesis rewind_keeps : forall s, P s -> P (snd (src_rewind inner s)).
Hypothesis open_keeps : forall s, P s -> P (snd (src_open inner s)).
Hypothesis close_keeps : forall s, P s -> P (snd (src_close inner s)).

Lemma fixed_keeps (w : FixedSizeAudioReader.t S) :
  P (FixedSizeAudioReader._audio_source w) ->
  P (FixedSizeAudioReader._audio_source (snd (FixedSizeAudioReader.read inner w))) /\
  P (FixedSizeAudioReader._audio_source (snd (FixedSizeAudioReader.rewind inner w))) /\
  P (FixedSizeAudioReader._audio_source (snd (FixedSizeAudioReader.open inner w))) /\
  P (FixedSizeAudioReader._audio_source (snd (FixedSizeAudioReader.close inner w))).
Proof.
  intros H.
  unfold FixedSizeAudioReader.read, FixedSizeAudioReader.rewind,
    FixedSizeAudioReader.open, FixedSizeAudioReader.close, AudioReadingProxy.rewind.
  simpl.
  pose proof (read_keeps (FixedSizeAudioReader._block_size w) _ H) as H1.
  pose proof (rewind_keeps _ H) as H2.
  pose proof (open_keeps _ H) as H3.
  pose proof (close_keeps _ H) as H4.
  destruct (src_read inner _ _), (src_rewind inner _), (src_open inner _),
    (src_close inner _). simpl in *. auto.
Qed.

Lemma overlap_next_keeps (w : OverlapAudioReader.t S) :
  P (OverlapAudioReader._audio_source w) ->
  P (snd (fst (OverlapAudioReader.next inner w))).
Proof.
  intros H. unfold OverlapAudioReader.next.
  assert (Hs : P (snd (fst (OverlapAudioReader.from_start inner w)))).
  { unfold OverlapAudioReader.from_start.
    destruct (src_is_open inner _); [ | exact H ].
    pose proof (read_keeps (OverlapAudioReader._block_size w) _ H) as H1.
    destruct (src_read inner _ _) as [[[blk |] | e] s1]; exact H1. }
  assert (Hl : forall h c, P (snd (fst (OverlapAudioReader.from_loop inner h c w)))).
  { intros h c. unfold OverlapAudioReader.from_loop.
    pose proof (read_keeps (OverlapAudioReader._hop_size w) _ H) as H1.
    destruct (src_read inner _ _) as [[[[| x rest] |] | e] s1]; exact H1. }
  destruct (OverlapAudioReader._blocks w); auto.
Qed.

Lemma overlap_keeps (w : OverlapAudioReader.t S) :
  P (OverlapAudioReader._audio_source w) ->
  P (OverlapAudioReader._audio_source (snd (OverlapAudioReader.read inner w))) /\
  P (OverlapAudioReader._audio_source (snd (OverlapAudioReader.rewind inner w))) /\
  P (OverlapAudioReader._audio_source (snd (OverlapAudioReader.open inner w))) /\
  P (OverlapAudioReader._audio_source (snd (OverlapAudioReader.close inner w))).
Proof.
  intros H. repeat split.
  - pose proof (overlap_next_keeps w H) as H1.
    unfold OverlapAudioReader.read.
    destruct (OverlapAudioReader.next inner w) as [[r s1] g].
    destruct r as [[ | | blk] | e | ]; exact H1.
  - pose proof (rewind_keeps _ H) as H2.
    unfold OverlapAudioReader.rewind, AudioReadingProxy.rewind. simpl.
    destruct (src_rewind inner _) as [[u | e] s1]; exact H2.
  - pose proof (open_keeps _ H) as H3. unfold OverlapAudioReader.open.
    destruct (src_open inner _). exact H3.
  - pose proof (close_keeps _ H) as H4. unfold OverlapAudioReader.close.
    destruct (src_close inner _). exact H4.
Qed.
End Kept.

Section SessionKept.
Context {S : Type} (inner : AudioSource S) (P : AudioReader.limited S -> Prop).
Hypothesis read_keeps :
  forall n s, P s -> P (snd (src_read (AudioReader.limited_ops inner) n s)).
Hypothesis rewind_keeps :
  forall s, P s -> P (snd (src_rewind (AudioReader.limited_ops inner) s)).
Hypothesis open_keeps :
  forall s, P s -> P (snd (src_open (AudioReader.limited_ops inner) s)).
Hypothesis close_keeps :
  forall s, P s -> P (snd (src_close (AudioReader.limited_ops inner) s)).

Lemma perform_keeps (o : operation) (a : AudioReader.t S) :
  P (window_source a) ->
  P (window_source (perform inner o a)) /\
  AudioReader._record (perform inner o a) = AudioReader._record a.
Proof.
  intros H. unfold window_source in *.
  destruct a as [rec [w | w]]; simpl in H.
  - destruct (fixed_keeps (AudioReader.limited_ops inner) P
                read_keeps rewind_keeps open_keeps close_keeps w H)
      as [H1 [H2 [H3 H4]]].
    destruct o; unfold perform, AudioReader.read, AudioReader.rewind, AudioReader.open,
      AudioReader.close, AudioReader.rewindable; simpl.
    + destruct (FixedSizeAudioReader.read _ w). simpl in *. auto.
    + destruct rec; simpl; [ | auto ].
      destruct (FixedSizeAudioReader.rewind _ w). simpl in *. auto.
    + destruct (FixedSizeAudioReader.open _ w). simpl in *. auto.
    + destruct (FixedSizeAudioReader.close _ w). simpl in *. auto.
  - destruct (overlap_keeps (AudioReader.limited_ops inner) P
                read_keeps rewind_keeps open_keeps close_keeps w H)
      as [H1 [H2 [H3 H4]]].
    destruct o; unfold perform, AudioReader.read, AudioReader.rewind, AudioReader.open,
      AudioReader.close, AudioReader.rewindable; simpl.
    + destruct (OverlapAudioReader.read _ w). simpl in *. auto.
    + destruct rec; simpl; [ | auto ].
      destruct (OverlapAudioReader.rewind _ w). simpl in *. auto.
    + destruct (OverlapAudioReader.open _ w). simpl in *. auto.
    + destruct (OverlapAudioReader.close _ w). simpl in *. auto.
Qed.

Lemma session_keeps (os : list operation) :
  forall a : AudioReader.t S,
    P (window_source a) ->
    P (window_source (session inner os a)) /\
    AudioReader._record (session inner os a) = AudioReader._record a.
Proof.
  induction os as [| o os IH]; intros a H; [ simpl; auto | ].
  unfold session. simpl. fold (session inner os (perform inner o a)).
  destruct (perform_keeps o a H) as [H1 H2].
  destruct (IH _ H1) as [H3 H4]. split; [ exact H3 | congruence ].
Qed.
End SessionKept.

Lemma data_of_recording_reader {S : Type} (inner : AudioSource S) (a : AudioReader.t S) :
  AudioReader._record a = true ->
  AudioReader.data inner a = src_data (AudioReader.limited_ops inner) (window_source a).
Proof.
  intros Hr. unfold AudioReader.data, AudioReader.rewindable, window_source.
  rewrite Hr. cbn [negb].
  destruct (AudioReader._audio_source a) as [w | w];
    unfold FixedSizeAudioReader.data, OverlapAudioReader.data,
      AudioReadingProxy.with_getattr, AudioReadingProxy.data;
    match goal with
    | |- context [src_data ?o ?s] => destruct (src_data o s) as [d | []]
    end; reflexivity.
Qed.

Lemma init_window_source {S : Type} (inner : AudioSource S) (input : S)
    (block_dur : Q) (hop_dur : option Q) (record : bool) (max_read : option Q)
    (a : AudioReader.t S) :
  AudioReader.init inner input block_dur hop_dur record max_read = Ret a ->
  AudioReader._record a = record /\
  window_source a =
    match max_read with
    | Some m =>
        inr (Limiter.init (AudioReader.recorded_ops inner)
               (if record then inr (Recorder.init input) else inl input) m)
    | None => inl (if record then inr (Recorder.init input) else inl input)
    end.
Proof.
  unfold AudioReader.init, window_source.
  destruct hop_dur as [h |].
  - unfold OverlapAudioReader.init.
    destruct (Qle_bool block_dur h); [ discriminate | ].
    destruct (FixedSizeAudioReader.init _ _ _) as [f | e] eqn:Ef; [ | discriminate ].
    unfold FixedSizeAudioReader.init in Ef.
    destruct (Qle_bool block_dur 0); [ discriminate | ].
    destruct (_ =? 0); [ discriminate | ].
    inversion Ef; subst f. intros H. inversion H; subst a. simpl. auto.
  - destruct (FixedSizeAudioReader.init _ _ _) as [f | e] eqn:Ef; [ | discriminate ].
    unfold FixedSizeAudioReader.init in Ef.
    destruct (Qle_bool block_dur 0); [ discriminate | ].
    destruct (_ =? 0); [ discriminate | ].
    inversion Ef; subst f. intros H. inversion H; subst a. simpl. auto.
Qed.

(** ** Recording under a limit *)

Lemma len_slice_to (k : Z) (x : bytes) : 0 <= k -> len (slice_to k x) <= k.
Proof.
  intros Hk. unfold slice_to, len.
  assert (E : (k <? 0) = false) by (apply Z.ltb_ge; lia).
  rewrite E, length_firstn. lia.
Qed.

Section Capped.
Context {S : Type} (inner : AudioSource S) (M B : Z).

Lemma capped_read (n : Z) (s : AudioReader.limited S) :
  capped M B s -> capped M B (snd (src_read (AudioReader.limited_ops inner) n s)).
Proof.
  intros [l [r [Hs [Hr [HM HB]]]]]. subst s. simpl.
  unfold Limiter.read.
  destruct (Z.min _ _ <=? 0).
  - simpl. exists l, r. auto.
  - rewrite Hr. simpl.
    destruct (Recorder.read inner _ r) as [res r'] eqn:Er.
    unfold lift_r. simpl.
    destruct res as [[blk |] | e]; [ destruct (_ =? 0) | | ]; simpl;
      eexists; eexists; repeat split; eauto.
Qed.

Lemma capped_rewind (s : AudioReader.limited S) :
  capped M B s -> capped M B (snd (src_rewind (AudioReader.limited_ops inner) s)).
Proof.
  intros [l [r [Hs [Hr [HM HB]]]]]. subst s. simpl.
  unfold Limiter.rewind, AudioReadingProxy.rewind. simpl.
  rewrite Hr. simpl.
  destruct (Recorder.rewind inner r) as [res r'] eqn:Er.
  unfold lift_r. simpl.
  destruct res as [u | e]; simpl; eexists; eexists; repeat split; eauto.
Qed.

Lemma capped_open (s : AudioReader.limited S) :
  capped M B s -> capped M B (snd (src_open (AudioReader.limited_ops inner) s)).
Proof.
  intros [l [r [Hs [Hr [HM HB]]]]]. subst s. simpl.
  unfold Limiter.lift. rewrite Hr. simpl.
  unfold Recorder.lift.
  destruct (src_open (Recorder.source inner) (Recorder._audio_source r)) as [res s'].
  simpl. eexists; eexists; repeat split; eauto.
Qed.

Lemma capped_close (s : AudioReader.limited S) :
  capped M B s -> capped M B (snd (src_close (AudioReader.limited_ops inner) s)).
Proof.
  intros [l [r [Hs [Hr [HM HB]]]]]. subst s. simpl.
  unfold Limiter.lift. rewrite Hr. simpl.
  unfold Recorder.lift.
  destruct (src_close (Recorder.source inner) (Recorder._audio_source r)) as [res s'].
  simpl. eexists; eexists; repeat split; eauto.
Qed.

Lemma capped_data (s : AudioReader.limited S) (d : bytes) :
  capped M B s ->
  src_data (AudioReader.limited_ops inner) s = Ret d ->
  exists l r full,
    s = inr l /\ Limiter._audio_source l = inr r /\
    Recorder.data r = Ret full /\ d = slice_to (M * B) full.
Proof.
  intros [l [r [Hs [Hr [HM HB]]]]] Hd. subst s. simpl in Hd.
  unfold Limiter.data in Hd. rewrite Hr in Hd. simpl in Hd.
  destruct (Recorder.data r) as [full | e] eqn:Ef; [ | discriminate ].
  inversion Hd. subst. exists l, r, full. auto.
Qed.
End Capped.

(** C7: in a reader built with recording and with max_read >= 0 (over a
    source with sr >= 0, sw > 0, ch > 0), after any sequence of read, rewind,
    open and close, whenever the data accessor returns bytes they are the
    recorder's data cut to max_samples * bytes_per_sample bytes, so never
    more than round(max_read * sr) * sw * ch bytes. *)
Theorem recorded_data_never_exceeds_limit {S : Type} (inner : AudioSource S)
    (input : S) (block_dur : Q) (hop_dur : option Q) (max_read : Q)
    (a : AudioReader.t S) (os : list operation) (d : bytes) :
  (0 <= max_read)%Q ->
  0 <= src_sr inner input -> 0 < src_sw inner input -> 0 < src_ch inner input ->
  AudioReader.init inner input block_dur hop_dur true (Some max_read) = Ret a ->
  AudioReader.data inner (session inner os a) = Ret d ->
  len d <= py_round (scale max_read (src_sr inner input))
           * src_sw inner input * src_ch inner input /\
  exists l r full,
    window_source (session inner os a) = inr l /\
    Limiter._audio_source l = inr r /\
    Recorder.data r = Ret full /\
    d = slice_to (py_round (scale max_read (src_sr inner input))
                  * (src_sw inner input * src_ch inner input)) full.
Proof.
  intros Hm Hsr Hsw Hch Hinit Hd.
  destruct (init_window_source inner input block_dur hop_dur true (Some max_read) a Hinit)
    as [Hrec Hw].
  set (M := py_round (scale max_read (src_sr inner input))).
  set (B := src_sw inner input * src_ch inner input).
  assert (Hc : capped M B (window_source a)).
  { rewrite Hw. eexists; eexists. repeat split. }
  destruct (session_keeps inner (capped M B)
              (capped_read inner M B) (capped_rewind inner M B)
              (capped_open inner M B) (capped_close inner M B) os a Hc) as [Hc' Hrec'].
  rewrite data_of_recording_reader in Hd by congruence.
  destruct (capped_data inner M B _ d Hc' Hd) as [l [r [full [Hs [Hr [Hf Hcut]]]]]].
  split.
  - rewrite Hcut.
    pose proof (py_round_nonneg _ (scale_nonneg max_read _ Hm Hsr)) as HM.
    fold M in HM.
    assert (HB : 0 <= M * B) by (unfold B; nia).
    pose proof (len_slice_to (M * B) full HB) as Hlen.
    unfold B in *. rewrite <- Z.mul_assoc. exact Hlen.
  - exists l, r, full. auto.
Qed.

(** C7 at a recording reader over "abcdefghijklmnop" with max_read 0.5:
    after three reads and a rewind the data is "abcdefgh". *)
Lemma recorded_data_never_exceeds_limit_witness :
  exists a d,
    AudioReader.init BufferAudioSource.ops abcdefghijklmnop (1 # 4) None true (Some (1 # 2))
      = Ret a /\
    AudioReader.data BufferAudioSource.ops
      (session BufferAudioSource.ops [call_read; call_read; call_read; call_rewind] a)
      = Ret d /\
    d = bytes_of "abcdefgh" /\
    len d <= py_round (scale (1 # 2) 16) * 1 * 1.
Proof.
  eexists. eexists.
  split; [ vm_compute; reflexivity | ].
  split; [ vm_compute; reflexivity | ].
  split; [ reflexivity | ].
  refine (proj1 (recorded_data_never_exceeds_limit BufferAudioSource.ops
                   abcdefghijklmnop (1 # 4) None (1 # 2) _
                   [call_read; call_read; call_read; call_rewind] _ _ _ _ _ _ _)).
  - unfold Qle. simpl. lia.
  - vm_compute. discriminate.
  - reflexivity.
  - reflexivity.
  - vm_compute. reflexivity.
  - vm_compute. reflexivity.
Defined.

(** ** Rewinding a recorder *)

Section RecorderRewind.
Context {S : Type} (inner : AudioSource S).

Lemma recorder_rewind_live_ignores_source_rewind (f : S -> outcome unit * S)
    (r : Recorder.t S) :
  Recorder._read_from_cache r = false ->
  Recorder.rewind (with_rewind f inner) r = Recorder.rewind inner r.
Proof.
  intros H. unfold Recorder.rewind. rewrite H.
  destruct (Recorder._cache r) as [c |]; [ | reflexivity ].
  destruct (Recorder._audio_source r); reflexivity.
Qed.

Lemma recorder_rewind_ready (r : Recorder.t S) :
  recorder_ready r ->
  fst (Recorder.rewind inner r) = Ret tt /\
  recorder_ready (snd (Recorder.rewind inner r)) /\
  Recorder._read_from_cache (snd (Recorder.rewind inner r)) = true.
Proof.
  unfold Recorder.rewind.
  intros [[Hl [c Hc]] | [Hp [buffer Hb]]].
  - rewrite Hl, Hc. simpl. repeat split. right.
    split; [ reflexivity | eexists; reflexivity ].
  - rewrite Hp, Hb. simpl. repeat split; auto. right. split; [ exact Hp | simpl; eauto ].
Qed.

Lemma recorder_read_ready (n : Z) (r : Recorder.t S) :
  recorder_ready r -> recorder_ready (snd (Recorder.read inner n r)).
Proof.
  unfold Recorder.read, Recorder.read_and_cache.
  intros [[Hl [c Hc]] | [Hp [buffer Hb]]].
  - destruct (Recorder._read_block r);
      destruct (src_read (Recorder.source inner) n (Recorder._audio_source r))
        as [[[blk |] | e] s'];
      try rewrite Hc; simpl; left; simpl; eauto.
  - rewrite Hb. simpl.
    destruct (BufferAudioSource.read n buffer) as [[[blk |] | e] s']; simpl;
      destruct (Recorder._read_block r); try destruct (Recorder._cache r);
      simpl; right; simpl; eauto.
Qed.

Lemma recorder_lift_ready {A : Type}
    (f : S + BufferAudioSource.t -> outcome A * (S + BufferAudioSource.t))
    (r : Recorder.t S) :
  (forall buffer, exists buffer', snd (f (inr buffer)) = inr buffer') ->
  recorder_ready r -> recorder_ready (snd (Recorder.lift f r)).
Proof.
  intros Hf. unfold Recorder.lift.
  intros [[Hl [c Hc]] | [Hp [buffer Hb]]].
  - destruct (f (Recorder._audio_source r)) as [res s']. simpl. left. simpl. eauto.
  - rewrite Hb. destruct (Hf buffer) as [buffer' Hb'].
    destruct (f (inr buffer)) as [res s']. simpl in *. right. simpl. subst. eauto.
Qed.

Lemma over_recorder_rewind (s : AudioReader.limited S) :
  over_recorder s ->
  fst (src_rewind (AudioReader.limited_ops inner) s) = Ret tt /\
  over_recorder (snd (src_rewind (AudioReader.limited_ops inner) s)).
Proof.
  intros [[r [Hs Hr]] | [l [r [Hs [Hl Hr]]]]]; subst s; simpl.
  - destruct (recorder_rewind_ready r Hr) as [H1 [H2 _]].
    unfold lift_l, lift_r. simpl. split; [ exact H1 | ]. left. shape.
  - unfold Limiter.rewind, AudioReadingProxy.rewind. simpl. rewrite Hl. simpl.
    destruct (recorder_rewind_ready r Hr) as [H1 [H2 _]].
    destruct (Recorder.rewind inner r) as [res r']. simpl in *. subst res.
    simpl. split; [ reflexivity | ]. right. shape.
Qed.

Lemma over_recorder_read (n : Z) (s : AudioReader.limited S) :
  over_recorder s -> over_recorder (snd (src_read (AudioReader.limited_ops inner) n s)).
Proof.
  intros [[r [Hs Hr]] | [l [r [Hs [Hl Hr]]]]]; subst s; simpl.
  - left. pose proof (recorder_read_ready n r Hr). shape.
  - right. unfold Limiter.read.
    destruct (Z.min _ _ <=? 0); simpl; [ shape | ].
    rewrite Hl. simpl.
    pose proof (recorder_read_ready (Z.min (Limiter._max_samples l - Limiter._read_samples l) n)
                  r Hr) as H1.
    destruct (Recorder.read inner _ r) as [res r']. simpl in *.
    destruct res as [[blk |] | e]; [ destruct (_ =? 0) | | ]; simpl; shape.
Qed.

Lemma over_recorder_open (s : AudioReader.limited S) :
  over_recorder s -> over_recorder (snd (src_open (AudioReader.limited_ops inner) s)).
Proof.
  assert (Hf : forall buffer, exists buffer',
               snd (src_open (Recorder.source inner) (inr buffer)) = inr buffer')
    by (intros buffer; simpl; eauto).
  intros [[r [Hs Hr]] | [l [r [Hs [Hl Hr]]]]]; subst s; simpl.
  - left. pose proof (recorder_lift_ready _ r Hf Hr). shape.
  - right. unfold Limiter.lift. rewrite Hl. simpl.
    pose proof (recorder_lift_ready _ r Hf Hr) as H1.
    destruct (Recorder.lift _ r) as [res r']. simpl in *. shape.
Qed.

Lemma over_recorder_close (s : AudioReader.limited S) :
  over_recorder s -> over_recorder (snd (src_close (AudioReader.limited_ops inner) s)).
Proof.
  assert (Hf : forall buffer, exists buffer',
               snd (src_close (Recorder.source inner) (inr buffer)) = inr buffer')
    by (intros buffer; simpl; eauto).
  intros [[r [Hs Hr]] | [l [r [Hs [Hl Hr]]]]]; subst s; simpl.
  - left. pose proof (recorder_lift_ready _ r Hf Hr). shape.
  - right. unfold Limiter.lift. rewrite Hl. simpl.
    pose proof (recorder_lift_ready _ r Hf Hr) as H1.
    destruct (Recorder.lift _ r) as [res r']. simpl in *. shape.
Qed.

Lemma reader_rewind_of_window_source (a : AudioReader.t S) :
  AudioReader._record a = true ->
  fst (src_rewind (AudioReader.limited_ops inner) (window_source a)) = Ret tt ->
  fst (AudioReader.rewind inner a) = Ret tt.
Proof.
  intros Hr. unfold AudioReader.rewind, AudioReader.rewindable, window_source.
  rewrite Hr. cbn [negb].
  destruct (AudioReader._audio_source a) as [w | w];
    unfold FixedSizeAudioReader.rewind, OverlapAudioReader.rewind,
      AudioReadingProxy.rewind; cbn [AudioReadingProxy.rewindable_is_truthy];
    match goal with
    | |- context [src_rewind ?o ?s] => destruct (src_rewind o s) as [[[] | e] s']
    end; simpl; intros H; try discriminate; reflexivity.
Qed.
End RecorderRewind.

(** C9: [rewindable()] of a recorder is True whatever it wraps; [rewind] of
    a recorder that has not been rewound yet does the same whatever the
    wrapped source's [rewind] method is, so does not call it: it returns
    normally and leaves a recorder whose [data] is the concatenation of the
    cache, whose cache is gone, and whose source is a new, open in-memory
    source over these bytes with the stream parameters of the wrapped
    source, from which the following reads are served; and in a reader
    built with recording, over any source, with or without a limit and an
    overlap, [rewind] returns normally after any sequence of read, rewind,
    open and close: it never raises, so never "not rewindable". *)
Theorem recorder_rewind_needs_no_rewindable_source {S : Type} (inner : AudioSource S) :
  (forall r : Recorder.t S, Recorder.rewindable r = true) /\
  (forall (f : S -> outcome unit * S) (r : Recorder.t S),
     Recorder._read_from_cache r = false ->
     Recorder.rewind (with_rewind f inner) r = Recorder.rewind inner r) /\
  (forall (r : Recorder.t S) (c : list bytes),
     Recorder._read_from_cache r = false ->
     Recorder._cache r = Some c ->
     let buffer :=
       opened_buffer (concat c)
         (src_sr (Recorder.source inner) (Recorder._audio_source r))
         (src_sw (Recorder.source inner) (Recorder._audio_source r))
         (src_ch (Recorder.source inner) (Recorder._audio_source r)) in
     let rewound :=
       {| Recorder._audio_source := inr buffer;
          Recorder._cache := None;
          Recorder._read_block := Recorder.audio_source_read;
          Recorder._read_from_cache := true;
          Recorder._data := Some (concat c) |} in
     Recorder.rewind inner r = (Ret tt, rewound) /\
     Recorder.data rewound = Ret (concat c) /\
     forall n,
       Recorder.read inner n rewound
       = (fst (BufferAudioSource.read n buffer),
          Recorder.set_source (inr (snd (BufferAudioSource.read n buffer))) rewound)) /\
  (forall (input : S) (block_dur : Q) (hop_dur max_read : option Q)
          (a : AudioReader.t S) (os : list operation),
     AudioReader.init inner input block_dur hop_dur true max_read = Ret a ->
     fst (AudioReader.rewind inner (session inner os a)) = Ret tt).
Proof.
  split; [ reflexivity | split; [ | split ] ].
  - intros f r H. apply recorder_rewind_live_ignores_source_rewind. exact H.
  - intros r c Hl Hc. cbv zeta. split; [ | split ].
    + unfold Recorder.rewind. rewrite Hl, Hc. reflexivity.
    + reflexivity.
    + intros n. unfold Recorder.read. cbn [Recorder._read_block Recorder._audio_source].
      change (src_read (Recorder.source inner) n
                (inr (opened_buffer (concat c)
                        (src_sr (Recorder.source inner) (Recorder._audio_source r))
                        (src_sw (Recorder.source inner) (Recorder._audio_source r))
                        (src_ch (Recorder.source inner) (Recorder._audio_source r)))))
        with (lift_r (A := S)
                (BufferAudioSource.read n
                   (opened_buffer (concat c)
                      (src_sr (Recorder.source inner) (Recorder._audio_source r))
                      (src_sw (Recorder.source inner) (Recorder._audio_source r))
                      (src_ch (Recorder.source inner) (Recorder._audio_source r))))).
      destruct (BufferAudioSource.read n _) as [res b']. reflexivity.
  - intros input block_dur hop_dur max_read a os Hinit.
    destruct (init_window_source inner input block_dur hop_dur true max_read a Hinit)
      as [Hrec Hw].
    assert (Hready : recorder_ready (Recorder.init input)).
    { left. split; [ reflexivity | eexists; reflexivity ]. }
    assert (Ho : over_recorder (window_source a)).
    { rewrite Hw. destruct max_read as [m |].
      - right. eexists; eexists. split; [ reflexivity | ].
        split; [ reflexivity | exact Hready ].
      - left. eexists. split; [ reflexivity | exact Hready ]. }
    destruct (session_keeps inner over_recorder
                (over_recorder_read inner)
                (fun s H => proj2 (over_recorder_rewind inner s H))
                (over_recorder_open inner) (over_recorder_close inner) os a Ho)
      as [Ho' Hrec'].
    apply reader_rewind_of_window_source; [ congruence | ].
    apply over_recorder_rewind. exact Ho'.
Qed.

(** C9 at a recorder and at a recording reader over a live source whose own
    [rewind] raises: after the reads "abcd" and "efgh" the recorder's
    [rewind] leaves an open in-memory source over "abcdefgh", which serves
    the next read. *)
Lemma recorder_rewind_needs_no_rewindable_source_witness :
  fst (src_rewind LiveSource.ops (live [Some (bytes_of "abcd"); Some (bytes_of "efgh")]))
    = Raise (AudioIOError "Audio stream is not rewindable") /\
  (let r := snd (calls (Recorder.read LiveSource.ops 4) 2
                   (Recorder.init (live [Some (bytes_of "abcd"); Some (bytes_of "efgh")]))) in
   Recorder._read_from_cache r = false /\
   Recorder._cache r = Some [bytes_of "abcd"; bytes_of "efgh"] /\
   fst (Recorder.rewind LiveSource.ops r) = Ret tt /\
   Recorder._audio_source (snd (Recorder.rewind LiveSource.ops r))
     = inr (opened_buffer (bytes_of "abcdefgh") 16 1 1) /\
   Recorder.data (snd (Recorder.rewind LiveSource.ops r)) = Ret (bytes_of "abcdefgh") /\
   fst (Recorder.read LiveSource.ops 4 (snd (Recorder.rewind LiveSource.ops r)))
     = Ret (Some (bytes_of "abcd"))) /\
  exists a,
    AudioReader.init LiveSource.ops
      (live [Some (bytes_of "abcd"); Some (bytes_of "efgh")]) (1 # 4) None true None
      = Ret a /\
    fst (AudioReader.rewind LiveSource.ops
           (session LiveSource.ops [call_read; call_read] a)) = Ret tt.
Proof.
  split; [ reflexivity | split ].
  - cbv zeta.
    set (r := snd (calls (Recorder.read LiveSource.ops 4) 2
                     (Recorder.init (live [Some (bytes_of "abcd"); Some (bytes_of "efgh")])))).
    assert (Hl : Recorder._read_from_cache r = false) by reflexivity.
    assert (Hc : Recorder._cache r = Some [bytes_of "abcd"; bytes_of "efgh"]) by reflexivity.
    destruct (proj1 (proj2 (proj2 (recorder_rewind_needs_no_rewindable_source LiveSource.ops)))
                r _ Hl Hc) as [Hrw [Hd Hrd]].
    split; [ exact Hl | split; [ exact Hc | ] ].
    rewrite Hrw. cbn [fst snd].
    split; [ reflexivity | split; [ reflexivity | split; [ exact Hd | ] ] ].
    rewrite (Hrd 4). reflexivity.
  - eexists. split; [ vm_compute; reflexivity | ].
    refine (proj2 (proj2 (proj2 (recorder_rewind_needs_no_rewindable_source LiveSource.ops)))
              (live [Some (bytes_of "abcd"); Some (bytes_of "efgh")]) (1 # 4) None None
              _ [call_read; call_read] _).
    vm_compute. reflexivity.
Defined.

(** ** Recording, rewinding and reading again *)

Lemma firstn_add_skipn {A : Type} (n m : nat) :
  forall l : list A, firstn (n + m) l = firstn n l ++ firstn m (skipn n l).
Proof.
  induction n as [| n IH]; intros l; [ reflexivity | ].
  destruct l as [| x l]; simpl.
  - rewrite firstn_nil. reflexivity.
  - rewrite IH. reflexivity.
Qed.

Lemma firstn_min_length {A : Type} (n : nat) (l : list A) :
  firstn (Nat.min n (length l)) l = firstn n l.
Proof.
  destruct (Nat.le_gt_cases n (length l)) as [Hle | Hgt].
  - rewrite Nat.min_l by exact Hle. reflexivity.
  - rewrite Nat.min_r by lia. rewrite firstn_all.
    symmetry. apply firstn_all2. lia.
Qed.

Section Replay.
Variables (d : bytes) (sr sw ch : Z).

Lemma buffer_read_at (x : bytes) (n : Z) (q : nat) :
  BufferAudioSource.read n (buffer_at sr sw ch x q) =
    (Ret (nonempty (chunk sw ch x n q)), buffer_at sr sw ch x (q + length (chunk sw ch x n q))).
Proof.
  unfold BufferAudioSource.read, chunk. simpl.
  destruct (firstn _ _) as [| y rest]; simpl.
  - rewrite Nat.add_0_r. reflexivity.
  - reflexivity.
Qed.

Lemma live_recorder_read (n : Z) (q : nat) (c : list bytes) :
  Recorder.read BufferAudioSource.ops n (live_recorder d sr sw ch q c) =
    (Ret (nonempty (chunk sw ch d n q)),
     live_recorder d sr sw ch (q + length (chunk sw ch d n q))
       (c ++ match chunk sw ch d n q with [] => [] | _ :: _ => [chunk sw ch d n q] end)).
Proof.
  unfold Recorder.read, Recorder.read_and_cache. simpl.
  unfold lift_l. rewrite buffer_read_at. simpl.
  destruct (chunk sw ch d n q) as [| y rest]; simpl.
  - rewrite app_nil_r. reflexivity.
  - reflexivity.
Qed.

Lemma replaying_recorder_read (p : nat) (n : Z) (q : nat) :
  Recorder.read BufferAudioSource.ops n (replaying_recorder d sr sw ch p q) =
    (Ret (nonempty (chunk sw ch (firstn p d) n q)),
     replaying_recorder d sr sw ch p (q + length (chunk sw ch (firstn p d) n q))).
Proof.
  unfold Recorder.read. simpl.
  unfold lift_r. rewrite buffer_read_at. reflexivity.
Qed.

Lemma chunk_of_prefix (p : nat) (n : Z) (q : nat) :
  (p <= length d)%nat ->
  (q + length (chunk sw ch d n q) <= p)%nat ->
  chunk sw ch (firstn p d) n q = chunk sw ch d n q.
Proof.
  intros Hp Hq. unfold chunk in *.
  set (K := Z.to_nat (n * (sw * ch))) in *.
  assert (Hqp : (q <= p)%nat) by lia.
  replace (skipn q (firstn p d)) with (firstn (p - q) (skipn q d)).
  2: { rewrite firstn_skipn_comm. replace (q + (p - q))%nat with p by lia. reflexivity. }
  rewrite firstn_firstn.
  rewrite length_firstn, length_skipn in Hq.
  destruct (Nat.le_gt_cases K (p - q)) as [Hle | Hgt].
  - rewrite Nat.min_l by exact Hle. reflexivity.
  - rewrite Nat.min_r by lia.
    rewrite (firstn_all2 (n := K)) by (rewrite length_skipn; lia).
    apply firstn_all2. rewrite length_skipn. lia.
Qed.

Lemma chunk_grows_prefix (n : Z) (q : nat) :
  (q <= length d)%nat ->
  firstn q d ++ chunk sw ch d n q = firstn (q + length (chunk sw ch d n q)) d /\
  (q + length (chunk sw ch d n q) <= length d)%nat.
Proof.
  intros Hq. unfold chunk.
  set (K := Z.to_nat (n * (sw * ch))).
  rewrite length_firstn, length_skipn. split; [ | lia ].
  rewrite firstn_add_skipn. f_equal.
  rewrite <- (length_skipn q d). symmetry. apply firstn_min_length.
Qed.
End Replay.

Lemma calls_succ {W A : Type} (method : W -> outcome A * W) (n : nat) (w : W) :
  calls method (S n) w =
    (fst (method w) :: fst (calls method n (snd (method w))),
     snd (calls method n (snd (method w)))).
Proof.
  simpl. destruct (method w) as [r w1]. simpl.
  destruct (calls method n w1) as [rs w2]. reflexivity.
Qed.

Section Steps.
Variables (d : bytes) (sr sw ch : Z).
Hypothesis bps_pos : 0 < sw * ch.

Lemma within_limit_step (M k n : Z) (q : nat) :
  (q <= length d)%nat ->
  0 < n <= M - k ->
  chunk sw ch d n q <> [] ->
  (Z.of_nat q <= k * (sw * ch) /\ k <= Z.max 0 M) \/
  (q = length d /\ Z.of_nat q <= M * (sw * ch)) ->
  (Z.of_nat (q + length (chunk sw ch d n q))
     <= (k + len (chunk sw ch d n q) / (sw * ch)) * (sw * ch) /\
   k + len (chunk sw ch d n q) / (sw * ch) <= Z.max 0 M) \/
  ((q + length (chunk sw ch d n q))%nat = length d /\
   Z.of_nat (q + length (chunk sw ch d n q)) <= M * (sw * ch)).
Proof.
  intros Hq Hn Hne [[H1 H2] | [H1 H2]].
  - unfold chunk, len in *.
    set (K := Z.to_nat (n * (sw * ch))) in *.
    assert (HK : Z.of_nat K = n * (sw * ch)) by (unfold K; nia).
    rewrite length_firstn, length_skipn.
    destruct (Nat.le_gt_cases K (length d - q)) as [Hle | Hgt].
    + left. rewrite Nat.min_l by exact Hle. rewrite HK, Z.div_mul by lia.
      split; nia.
    + right. rewrite Nat.min_r by lia. split; [ lia | ]. nia.
  - exfalso. apply Hne. unfold chunk. subst q. rewrite skipn_all, firstn_nil. reflexivity.
Qed.

Lemma nonempty_Some (x y : bytes) : nonempty x = Some y -> y = x /\ x <> [].
Proof. destruct x; simpl; intros H; inversion H; split; [ reflexivity | discriminate ]. Qed.

Lemma nonempty_None (x : bytes) : nonempty x = None -> x = [].
Proof. destruct x; simpl; intros H; [ reflexivity | discriminate ]. Qed.

Lemma limited_read_step (s : AudioReader.limited BufferAudioSource.t)
    (n k : Z) (q : nat) (c : list bytes) :
  (q <= length d)%nat ->
  within_limit sw ch d s k q ->
  exists x k' req,
    src_read (AudioReader.limited_ops BufferAudioSource.ops) n
             (put k (live_recorder d sr sw ch q c) s) =
      (Ret x, put k' (live_recorder d sr sw ch (after sw ch d req q)
                        (cache_after sw ch d req q c)) s) /\
    within_limit sw ch d s k' (after sw ch d req q) /\
    forall p, (p <= length d)%nat -> (after sw ch d req q <= p)%nat ->
      src_read (AudioReader.limited_ops BufferAudioSource.ops) n
               (put k (replaying_recorder d sr sw ch p q) s) =
        (Ret x, put k' (replaying_recorder d sr sw ch p (after sw ch d req q)) s).
Proof.
  intros Hq Hw. destruct s as [s | l].
  - exists (nonempty (chunk sw ch d n q)), k, (Some n).
    split; [ | split; [ exact I | ] ].
    + cbn -[Recorder.read]. rewrite live_recorder_read. reflexivity.
    + intros p Hp Ha. cbn -[Recorder.read]. rewrite replaying_recorder_read.
      simpl in Ha. rewrite (chunk_of_prefix d sw ch p n q Hp Ha). reflexivity.
  - destruct Hw as [Hb Hw].
    cbn -[Recorder.read]. unfold Limiter.read.
    cbn [Limiter._max_samples Limiter._read_samples Limiter.update
         Limiter._audio_source Limiter._bytes_per_sample lift_r fst snd].
    cbv zeta.
    match goal with
    | |- context [Z.leb ?a 0] => set (n' := a) in *
    end.
    assert (Hn' : n' = Z.min (Limiter._max_samples l - k) n) by reflexivity.
    match goal with
    | |- context [Z.eqb ?a 0] => set (bps := a) in *
    end.
    assert (E0 : (bps =? 0) = false).
    { apply Z.eqb_neq. change (Limiter._bytes_per_sample l <> 0). lia. }
    assert (Hbps : bps = sw * ch) by exact Hb.
    clearbody bps n'.
    destruct (n' <=? 0) eqn:Em.
    + exists None, k, None. split; [ reflexivity | split; [ split; assumption | ] ].
      intros p Hp Ha. reflexivity.
    + apply Z.leb_gt in Em.
      cbn -[Recorder.read].
      rewrite live_recorder_read. cbn -[Recorder.read].
      destruct (nonempty (chunk sw ch d n' q)) as [block |] eqn:E.
      * destruct (nonempty_Some _ _ E) as [Hblock Hne]. subst block.
        exists (Some (chunk sw ch d n' q)),
          (k + len (chunk sw ch d n' q) / bps), (Some n').
        split; [ rewrite E0; reflexivity | split ].
        -- split; [ exact Hb | ]. rewrite Hbps. simpl.
           apply within_limit_step; auto. lia.
        -- intros p Hp Ha. rewrite replaying_recorder_read.
           simpl in Ha. rewrite (chunk_of_prefix d sw ch p n' q Hp Ha), E.
           cbn. rewrite E0. reflexivity.
      * exists None, k, (Some n').
        split; [ reflexivity | split ].
        -- split; [ exact Hb | ]. simpl.
           rewrite (nonempty_None _ E). simpl. rewrite Nat.add_0_r. exact Hw.
        -- intros p Hp Ha. rewrite replaying_recorder_read.
           simpl in Ha. rewrite (chunk_of_prefix d sw ch p n' q Hp Ha), E.
           reflexivity.
Qed.

Lemma put_parameters (s : AudioReader.limited BufferAudioSource.t) (k : Z)
    (r : Recorder.t BufferAudioSource.t) :
  (exists q c, r = live_recorder d sr sw ch q c) \/
  (exists p q, r = replaying_recorder d sr sw ch p q) ->
  src_is_open (AudioReader.limited_ops BufferAudioSource.ops) (put k r s) = true /\
  src_sw (AudioReader.limited_ops BufferAudioSource.ops) (put k r s) = sw /\
  src_ch (AudioReader.limited_ops BufferAudioSource.ops) (put k r s) = ch.
Proof.
  intros [[q [c H]] | [p [q H]]]; subst r; destruct s; repeat split.
Qed.

Lemma read_step (base : AudioReader.t BufferAudioSource.t)
    (g : OverlapAudioReader.generator) (k : Z) (q : nat) (c : list bytes) :
  (q <= length d)%nat ->
  within_limit sw ch d (window_source base) k q ->
  read_agrees d sr sw ch base g k q c.
Proof.
  intros Hq Hw.
  destruct base as [rec [[s bs] | [s bs hop g0]]]; unfold window_source in Hw; simpl in Hw.
  - destruct (limited_read_step s bs k q c Hq Hw) as [x [k' [req [Hl [Hw' Hr]]]]].
    exists (Ret x), g, k', req. split; [ | split; [ exact Hw' | ] ].
    + reader_step. rewrite Hl. reflexivity.
    + intros p Hp Ha. reader_step. rewrite (Hr p Hp Ha). reflexivity.
  - set (base := {| AudioReader._record := rec;
                    AudioReader._audio_source :=
                      inr {| OverlapAudioReader._audio_source := s;
                             OverlapAudioReader._block_size := bs;
                             OverlapAudioReader._hop_size := hop;
                             OverlapAudioReader._blocks := g0 |} |}).
    assert (Hlive : forall k0 q0 c0,
               src_is_open (AudioReader.limited_ops BufferAudioSource.ops)
                 (put k0 (live_recorder d sr sw ch q0 c0) s) = true /\
               src_sw (AudioReader.limited_ops BufferAudioSource.ops)
                 (put k0 (live_recorder d sr sw ch q0 c0) s) = sw /\
               src_ch (AudioReader.limited_ops BufferAudioSource.ops)
                 (put k0 (live_recorder d sr sw ch q0 c0) s) = ch)
      by (intros; apply put_parameters; left; eauto).
    assert (Hrep : forall k0 p0 q0,
               src_is_open (AudioReader.limited_ops BufferAudioSource.ops)
                 (put k0 (replaying_recorder d sr sw ch p0 q0) s) = true /\
               src_sw (AudioReader.limited_ops BufferAudioSource.ops)
                 (put k0 (replaying_recorder d sr sw ch p0 q0) s) = sw /\
               src_ch (AudioReader.limited_ops BufferAudioSource.ops)
                 (put k0 (replaying_recorder d sr sw ch p0 q0) s) = ch)
      by (intros; apply put_parameters; right; eauto).
    assert (Hidle : forall res g',
               (forall r, AudioReader.read BufferAudioSource.ops (with_state g k r base)
                          = (res, with_state g' k r base)) ->
               read_agrees d sr sw ch base g k q c).
    { intros res g' H. exists res, g', k, None.
      split; [ apply H | split; [ exact Hw | intros p _ _; apply H ] ]. }
    assert (Hstart : g = OverlapAudioReader.created \/
                     g = OverlapAudioReader.at_yield_AudioIOError ->
                     read_agrees d sr sw ch base g k q c).
    { intros Hg.
      destruct (limited_read_step s bs k q c Hq Hw) as [x [k' [req [Hl [Hw' Hr]]]]].
      destruct (Hlive k q c) as [Ho _].
      destruct (Hlive k' (after sw ch d req q) (cache_after sw ch d req q c)) as [_ [Hsw Hch]].
      destruct x as [block |].
      - exists (Ret (Some block)),
          (OverlapAudioReader.at_yield_block_first (hop * sw * ch)
             (slice_from (hop * sw * ch) block)), k', req.
        split; [ | split; [ exact Hw' | ] ].
        + destruct Hg; subst g; unfold base; reader_step;
            rewrite Ho, Hl, Hsw, Hch; reflexivity.
        + intros p Hp Ha. destruct (Hrep k p q) as [Ho' _].
          destruct (Hrep k' p (after sw ch d req q)) as [_ [Hsw' Hch']].
          destruct Hg; subst g; unfold base; reader_step;
            rewrite Ho', (Hr p Hp Ha), Hsw', Hch'; reflexivity.
      - exists (Ret None), OverlapAudioReader.at_yield_None_first, k', req.
        split; [ | split; [ exact Hw' | ] ].
        + destruct Hg; subst g; unfold base; reader_step; rewrite Ho, Hl; reflexivity.
        + intros p Hp Ha. destruct (Hrep k p q) as [Ho' _].
          destruct Hg; subst g; unfold base; reader_step;
            rewrite Ho', (Hr p Hp Ha); reflexivity. }
    assert (Hloop : forall h c0,
               g = OverlapAudioReader.at_yield_block_first h c0 \/
               g = OverlapAudioReader.at_yield_block h c0 \/
               g = OverlapAudioReader.at_yield_None h c0 ->
               read_agrees d sr sw ch base g k q c).
    { intros h c0 Hg.
      destruct (limited_read_step s hop k q c Hq Hw) as [x [k' [req [Hl [Hw' Hr]]]]].
      destruct x as [[| y rest] |].
      - exists (Ret None), (OverlapAudioReader.at_yield_None h c0), k', req.
        split; [ | split; [ exact Hw' | ] ].
        + destruct Hg as [Hg | [Hg | Hg]]; subst g; unfold base; reader_step;
            rewrite Hl; reflexivity.
        + intros p Hp Ha.
          destruct Hg as [Hg | [Hg | Hg]]; subst g; unfold base; reader_step;
            rewrite (Hr p Hp Ha); reflexivity.
      - exists (Ret (Some (c0 ++ y :: rest))),
          (OverlapAudioReader.at_yield_block h (slice_from h (c0 ++ y :: rest))), k', req.
        split; [ | split; [ exact Hw' | ] ].
        + destruct Hg as [Hg | [Hg | Hg]]; subst g; unfold base; reader_step;
            rewrite Hl; reflexivity.
        + intros p Hp Ha.
          destruct Hg as [Hg | [Hg | Hg]]; subst g; unfold base; reader_step;
            rewrite (Hr p Hp Ha); reflexivity.
      - exists (Ret None), (OverlapAudioReader.at_yield_None h c0), k', req.
        split; [ | split; [ exact Hw' | ] ].
        + destruct Hg as [Hg | [Hg | Hg]]; subst g; unfold base; reader_step;
            rewrite Hl; reflexivity.
        + intros p Hp Ha.
          destruct Hg as [Hg | [Hg | Hg]]; subst g; unfold base; reader_step;
            rewrite (Hr p Hp Ha); reflexivity. }
    destruct g as [ | | | h c0 | h c0 | h c0 | ].
    + apply Hstart. auto.
    + apply Hstart. auto.
    + apply (Hidle (Raise TypeError) OverlapAudioReader.finished). intros r. reflexivity.
    + apply (Hloop h c0). auto.
    + apply (Hloop h c0). auto.
    + apply (Hloop h c0). auto.
    + apply (Hidle (Ret None) OverlapAudioReader.finished). intros r. reflexivity.
Qed.

Lemma cache_after_ok (req : option Z) (q : nat) (c : list bytes) :
  (q <= length d)%nat ->
  concat c = firstn q d ->
  (q <= after sw ch d req q)%nat /\
  (after sw ch d req q <= length d)%nat /\
  concat (cache_after sw ch d req q c) = firstn (after sw ch d req q) d.
Proof.
  intros Hq Hc. destruct req as [n |]; simpl; [ | auto ].
  destruct (chunk_grows_prefix d sw ch n q Hq) as [Hg Hl].
  split; [ lia | split; [ exact Hl | ] ].
  rewrite concat_app, Hc, <- Hg. f_equal.
  destruct (chunk sw ch d n q); simpl; [ reflexivity | rewrite app_nil_r; reflexivity ].
Qed.

Lemma calls_step (base : AudioReader.t BufferAudioSource.t) (N : nat) :
  forall g k q c,
    (q <= length d)%nat ->
    concat c = firstn q d ->
    within_limit sw ch d (window_source base) k q ->
    exists g' k' q' c',
      snd (calls (AudioReader.read BufferAudioSource.ops) N
             (with_state g k (live_recorder d sr sw ch q c) base))
        = with_state g' k' (live_recorder d sr sw ch q' c') base /\
      (q <= q')%nat /\ (q' <= length d)%nat /\ concat c' = firstn q' d /\
      within_limit sw ch d (window_source base) k' q' /\
      forall p, (p <= length d)%nat -> (q' <= p)%nat ->
        fst (calls (AudioReader.read BufferAudioSource.ops) N
               (with_state g k (replaying_recorder d sr sw ch p q) base))
        = fst (calls (AudioReader.read BufferAudioSource.ops) N
                 (with_state g k (live_recorder d sr sw ch q c) base)).
Proof.
  induction N as [| N IH]; intros g k q c Hq Hc Hw.
  - exists g, k, q, c. simpl. repeat split; auto.
  - destruct (read_step base g k q c Hq Hw) as [res [g1 [k1 [req [Hl [Hw1 Hr]]]]]].
    destruct (cache_after_ok req q c Hq Hc) as [Hq1 [Hq1' Hc1]].
    destruct (IH g1 k1 _ _ Hq1' Hc1 Hw1) as [g' [k' [q' [c' [Hs [Hqq [Hq' [Hc' [Hw' Hsim]]]]]]]]].
    exists g', k', q', c'.
    rewrite (calls_succ (AudioReader.read BufferAudioSource.ops) N
               (with_state g k (live_recorder d sr sw ch q c) base)), Hl.
    cbn [fst snd].
    split; [ exact Hs | ].
    split; [ lia | split; [ exact Hq' | split; [ exact Hc' | split; [ exact Hw' | ] ] ] ].
    intros p Hp Hqp.
    rewrite (calls_succ (AudioReader.read BufferAudioSource.ops) N
               (with_state g k (replaying_recorder d sr sw ch p q) base)),
      (Hr p Hp ltac:(lia)).
    cbn [fst snd].
    rewrite (Hsim p Hp Hqp). reflexivity.
Qed.
End Steps.

Section Rewound.
Variables (d : bytes) (sr sw ch : Z).
Hypothesis bps_pos : 0 < sw * ch.

Lemma init_with_state (block_dur : Q) (hop_dur max_read : option Q)
    (a : AudioReader.t BufferAudioSource.t) :
  AudioReader.init BufferAudioSource.ops (opened_buffer d sr sw ch)
    block_dur hop_dur true max_read = Ret a ->
  a = with_state OverlapAudioReader.created 0 (live_recorder d sr sw ch 0 []) a /\
  AudioReader._record a = true /\
  within_limit sw ch d (window_source a) 0 0.
Proof.
  intros Hinit.
  destruct (init_window_source _ _ _ _ _ _ _ Hinit) as [Hrec Hw].
  split; [ | split; [ exact Hrec | ] ].
  - revert Hinit. unfold AudioReader.init.
    destruct hop_dur as [h |].
    + unfold OverlapAudioReader.init.
      destruct (Qle_bool block_dur h); [ discriminate | ].
      destruct (FixedSizeAudioReader.init _ _ _) as [f | e] eqn:Ef; [ | discriminate ].
      unfold FixedSizeAudioReader.init in Ef.
      destruct (Qle_bool block_dur 0); [ discriminate | ].
      destruct (_ =? 0); [ discriminate | ].
      inversion Ef; subst f. intros H. inversion H; subst a.
      destruct max_read; reflexivity.
    + destruct (FixedSizeAudioReader.init _ _ _) as [f | e] eqn:Ef; [ | discriminate ].
      unfold FixedSizeAudioReader.init in Ef.
      destruct (Qle_bool block_dur 0); [ discriminate | ].
      destruct (_ =? 0); [ discriminate | ].
      inversion Ef; subst f. intros H. inversion H; subst a.
      destruct max_read; reflexivity.
  - rewrite Hw. destruct max_read as [m |]; simpl; [ | exact I ].
    split; [ reflexivity | ]. left. split; lia.
Qed.

Lemma rewind_live (base : AudioReader.t BufferAudioSource.t)
    (g : OverlapAudioReader.generator) (k : Z) (q : nat) (c : list bytes) :
  AudioReader._record base = true ->
  concat c = firstn q d ->
  AudioReader.rewind BufferAudioSource.ops
    (with_state g k (live_recorder d sr sw ch q c) base) =
    (Ret tt, with_state OverlapAudioReader.created 0
               (replaying_recorder d sr sw ch q 0) base).
Proof.
  intros Hrec Hc.
  destruct base as [rec [[s bs] | [s bs hop g0]]]; simpl in Hrec; subst rec;
    destruct s as [s | l]; unfold replaying_recorder; rewrite <- Hc; reflexivity.
Qed.

Lemma slice_to_keeps_prefix (M B k : Z) (p : nat) :
  B = sw * ch ->
  (Z.of_nat p <= k * (sw * ch) /\ k <= Z.max 0 M) \/
  (p = length d /\ Z.of_nat p <= M * (sw * ch)) ->
  slice_to (M * B) (firstn p d) = firstn p d.
Proof.
  intros HB Hw. subst B. unfold slice_to.
  destruct (M * (sw * ch) <? 0) eqn:E;
    [ apply Z.ltb_lt in E | apply Z.ltb_ge in E ].
  - assert (Hp0 : p = 0%nat) by (destruct Hw as [[H1 H2] | [H1 H2]]; nia).
    subst p. simpl. apply firstn_nil.
  - apply firstn_all2. rewrite length_firstn.
    destruct Hw as [[H1 H2] | [H1 H2]]; nia.
Qed.

Lemma data_replaying (base : AudioReader.t BufferAudioSource.t)
    (g : OverlapAudioReader.generator) (k k' : Z) (p q : nat) :
  AudioReader._record base = true ->
  within_limit sw ch d (window_source base) k' p ->
  AudioReader.data BufferAudioSource.ops
    (with_state g k (replaying_recorder d sr sw ch p q) base) = Ret (firstn p d).
Proof.
  intros Hrec Hw.
  rewrite data_of_recording_reader
    by (destruct base as [rec [w | w]]; exact Hrec).
  destruct base as [rec [[s bs] | [s bs hop g0]]]; unfold window_source in *;
    simpl in Hw; destruct s as [s | l]; try reflexivity;
    simpl; unfold Limiter.data; simpl; f_equal;
    destruct Hw as [Hb Hw]; apply (slice_to_keeps_prefix _ _ k'); assumption.
Qed.

Lemma consumed_live (base : AudioReader.t BufferAudioSource.t)
    (g : OverlapAudioReader.generator) (k : Z) (q : nat) (c : list bytes) :
  consumed (with_state g k (live_recorder d sr sw ch q c) base) = firstn q d.
Proof.
  destruct base as [rec [[s bs] | [s bs hop g0]]]; destruct s as [s | l]; reflexivity.
Qed.
End Rewound.

(** C4: in a reader built with recording over an open in-memory source
    (sample width and channel count positive; with or without a limit and an
    overlap), read N times, rewind, read N times again: [rewind] returns
    normally, the second N results are the first N results, one by one, and
    after the rewind [data] is exactly the bytes the source handed out during
    the first reads. *)
Theorem replay_reproduces_the_windows (d : bytes) (sr sw ch : Z) (block_dur : Q)
    (hop_dur max_read : option Q) (a : AudioReader.t BufferAudioSource.t) (N : nat) :
  0 < sw -> 0 < ch ->
  AudioReader.init BufferAudioSource.ops (opened_buffer d sr sw ch)
    block_dur hop_dur true max_read = Ret a ->
  let first := calls (AudioReader.read BufferAudioSource.ops) N a in
  let rewound := AudioReader.rewind BufferAudioSource.ops (snd first) in
  let second := calls (AudioReader.read BufferAudioSource.ops) N (snd rewound) in
  fst rewound = Ret tt /\
  fst second = fst first /\
  AudioReader.data BufferAudioSource.ops (snd rewound) = Ret (consumed (snd first)).
Proof.
  intros Hsw Hch Hinit.
  assert (Hbps : 0 < sw * ch) by nia.
  destruct (init_with_state d sr sw ch block_dur hop_dur max_read a Hinit)
    as [Ha [Hrec Hw]].
  destruct (calls_step d sr sw ch Hbps a N OverlapAudioReader.created 0 0%nat []
              ltac:(lia) eq_refl Hw)
    as [g' [k' [q' [c' [Hs [_ [Hq' [Hc' [Hw' Hsim]]]]]]]]].
  pose proof (eq_trans
                (f_equal (fun x => snd (calls (AudioReader.read BufferAudioSource.ops) N x)) Ha)
                Hs) as Hs'.
  assert (Hsim' : fst (calls (AudioReader.read BufferAudioSource.ops) N
                         (with_state OverlapAudioReader.created 0
                            (replaying_recorder d sr sw ch q' 0) a))
                  = fst (calls (AudioReader.read BufferAudioSource.ops) N a)).
  { refine (eq_trans (Hsim q' Hq' (Nat.le_refl q')) _).
    exact (f_equal (fun x => fst (calls (AudioReader.read BufferAudioSource.ops) N x))
             (eq_sym Ha)). }
  intros first rewound second. subst second rewound first.
  rewrite Hs'.
  rewrite (rewind_live d sr sw ch a g' k' q' c' Hrec Hc').
  cbn [fst snd].
  split; [ reflexivity | split ].
  - exact Hsim'.
  - rewrite consumed_live.
    apply (data_replaying d sr sw ch Hbps a _ 0 k' q' 0%nat Hrec Hw').
Qed.

(** C4 at a recording reader over "abcdefghijklmnop" with overlap and
    max_read 0.5, for five reads. *)
Lemma replay_reproduces_the_windows_witness :
  exists a,
    AudioReader.init BufferAudioSource.ops abcdefghijklmnop
      (1 # 4) (Some (1 # 8)) true (Some (1 # 2)) = Ret a /\
    fst (calls (AudioReader.read BufferAudioSource.ops) 5
           (snd (AudioReader.rewind BufferAudioSource.ops
                   (snd (calls (AudioReader.read BufferAudioSource.ops) 5 a)))))
      = fst (calls (AudioReader.read BufferAudioSource.ops) 5 a) /\
    AudioReader.data BufferAudioSource.ops
      (snd (AudioReader.rewind BufferAudioSource.ops
              (snd (calls (AudioReader.read BufferAudioSource.ops) 5 a))))
      = Ret (bytes_of "abcdefgh").
Proof.
  eexists. split; [ vm_compute; reflexivity | ].
  match goal with
  | |- context [calls _ 5 ?a] =>
      destruct (replay_reproduces_the_windows
                  (bytes_of "abcdefghijklmnop") 16 1 1 (1 # 4) (Some (1 # 8))
                  (Some (1 # 2)) a 5 ltac:(lia) ltac:(lia)
                  ltac:(vm_compute; reflexivity)) as [_ [H2 H3]]
  end.
  split; [ exact H2 | ].
  rewrite H3. vm_compute. reflexivity.
Defined.

(** ** The string source *)

Lemma string_get_nth (d : string) :
  forall i, String.get i d = nth_error (list_ascii_of_string d) i.
Proof.
  induction d as [| a d IH]; intros [| i]; simpl; auto.
Qed.

Lemma string_length_list (d : string) :
  length (list_ascii_of_string d) = String.length d.
Proof. induction d as [| a d IH]; simpl; auto. Qed.

Lemma skipn_nth_cons {A : Type} (l : list A) :
  forall i x, nth_error l i = Some x -> skipn i l = x :: skipn (S i) l.
Proof.
  induction l as [| y l IH]; intros [| i] x H; simpl in *; try discriminate.
  - inversion H. reflexivity.
  - apply IH. exact H.
Qed.

Lemma string_read_at_end (d : string) (i : nat) :
  (String.length d <= i)%nat ->
  StringDataSource.read
    {| StringDataSource._data := d; StringDataSource._current := i |}
  = (Ret None, {| StringDataSource._data := d; StringDataSource._current := i |}).
Proof.
  intros H. unfold StringDataSource.read. simpl.
  apply Nat.leb_le in H. rewrite H. reflexivity.
Qed.

Lemma string_read_inside (d : string) (i : nat) :
  (i < String.length d)%nat ->
  StringDataSource.read
    {| StringDataSource._data := d; StringDataSource._current := i |}
  = (Ret (String.get i d),
     {| StringDataSource._data := d; StringDataSource._current := S i |}).
Proof.
  intros H. unfold StringDataSource.read. simpl.
  apply Nat.leb_gt in H. rewrite H. reflexivity.
Qed.

Lemma string_reads_at_end (d : string) (i k : nat) :
  (String.length d <= i)%nat ->
  calls StringDataSource.read k
    {| StringDataSource._data := d; StringDataSource._current := i |}
  = (repeat (Ret None) k,
     {| StringDataSource._data := d; StringDataSource._current := i |}).
Proof.
  intros H. induction k as [| k IH]; [ reflexivity | ].
  rewrite calls_succ, (string_read_at_end d i H). cbn [fst snd].
  rewrite IH. reflexivity.
Qed.

Lemma string_reads_from (k m : nat) :
  forall (d : string) (i : nat),
    (i + m = String.length d)%nat ->
    fst (calls StringDataSource.read (m + k)
           {| StringDataSource._data := d; StringDataSource._current := i |})
    = map (fun c => Ret (Some c)) (skipn i (list_ascii_of_string d))
      ++ repeat (Ret None) k.
Proof.
  induction m as [| m IH]; intros d i H.
  - simpl. rewrite string_reads_at_end by lia. simpl.
    rewrite skipn_all2 by (rewrite string_length_list; lia). reflexivity.
  - replace (S m + k)%nat with (S (m + k)) by lia.
    rewrite calls_succ, string_read_inside by lia. cbn [fst snd].
    rewrite IH by lia.
    destruct (nth_error (list_ascii_of_string d) i) as [c |] eqn:En.
    + rewrite (skipn_nth_cons _ _ _ En), string_get_nth, En. reflexivity.
    + apply nth_error_None in En. rewrite string_length_list in En. lia.
Qed.

(** X1: reading a [StringDataSource] gives the characters of its data, one
    per call and in order, and then [None] on every further call. *)
Theorem string_source_reads_its_data (d : string) (k : nat) :
  exists s,
    StringDataSource.init (StringDataSource.a_str d) = Ret s /\
    fst (calls StringDataSource.read (String.length d + k) s)
    = map (fun c => Ret (Some c)) (list_ascii_of_string d) ++ repeat (Ret None) k.
Proof.
  eexists. split; [ reflexivity | ].
  rewrite (string_reads_from k (String.length d) d 0%nat) by lia. reflexivity.
Qed.

(** X2: [set_data] refuses what is not a [str] with [ValueError] and changes
    nothing; given a [str], at any point of the reading, it makes the source
    start over on the new data. *)
Theorem string_source_set_data_restarts (s : StringDataSource.t) (n : nat) :
  StringDataSource.set_data StringDataSource.not_a_str s = (Raise ValueError, s) /\
  StringDataSource.init StringDataSource.not_a_str = Raise ValueError /\
  forall (d : string) (k : nat),
    fst (StringDataSource.set_data (StringDataSource.a_str d)
           (snd (calls StringDataSource.read n s))) = Ret tt /\
    fst (calls StringDataSource.read (String.length d + k)
           (snd (StringDataSource.set_data (StringDataSource.a_str d)
                   (snd (calls StringDataSource.read n s)))))
    = map (fun c => Ret (Some c)) (list_ascii_of_string d) ++ repeat (Ret None) k.
Proof.
  split; [ reflexivity | split; [ reflexivity | ] ].
  intros d k. split; [ reflexivity | ].
  simpl. rewrite (string_reads_from k (String.length d) d 0%nat) by lia. reflexivity.
Qed.

(** ** The channel selector, for every argument *)

(** X3: [make_channel_selector] raises nothing but [ValueError], and raises it
    exactly when the sample width is not in [FORMAT], or, for a channel count
    other than 1, when [selected] is an integer below -channels or not below
    channels, or is neither an integer, nor "mix", "avg", "average", nor None
    or "any". *)
Theorem make_channel_selector_raises_exactly {fmt : Type} (FORMAT : Z -> option fmt)
    (sample_width channels : Z) (selected : selected_value) :
  (forall e, make_channel_selector FORMAT sample_width channels selected = Raise e ->
             e = ValueError) /\
  (make_channel_selector FORMAT sample_width channels selected = Raise ValueError <->
   FORMAT sample_width = None \/
   (channels <> 1 /\
    ((exists i, as_int selected = Some i /\ (i < - channels \/ channels <= i)) \/
     (as_int selected = None /\ in_mix_avg_average selected = false /\
      in_None_any selected = false)))).
Proof.
  unfold make_channel_selector.
  destruct (FORMAT sample_width) as [f |].
  2: { split; [ intros e H; inversion H; reflexivity | ]. split; auto. }
  destruct (channels =? 1) eqn:E1.
  { apply Z.eqb_eq in E1. split; [ intros e H; discriminate | ].
    split; [ discriminate | ]. intros [H | [H _]]; [ discriminate | contradiction ]. }
  apply Z.eqb_neq in E1.
  destruct (as_int selected) as [i |] eqn:Ei.
  - destruct (i <? 0) eqn:Eneg; [ apply Z.ltb_lt in Eneg | apply Z.ltb_ge in Eneg ].
    + destruct ((i + channels <? 0) || (i + channels >=? channels)) eqn:Eb.
      * split; [ intros e H; inversion H; reflexivity | ].
        split; [ intros _ | reflexivity ].
        right. split; [ exact E1 | left ]. exists i. split; [ reflexivity | ].
        apply orb_true_iff in Eb. destruct Eb as [Eb | Eb];
          [ apply Z.ltb_lt in Eb | apply Z.geb_le in Eb ]; lia.
      * split; [ intros e H; discriminate | ].
        split; [ discriminate | ].
        apply orb_false_iff in Eb. destruct Eb as [Eb1 Eb2].
        apply Z.ltb_ge in Eb1. rewrite Z.geb_leb in Eb2. apply Z.leb_gt in Eb2.
        intros [H | [_ [[j [Hj Hr]] | [H _]]]]; try discriminate.
        inversion Hj; subst j. lia.
    + destruct ((i <? 0) || (i >=? channels)) eqn:Eb.
      * split; [ intros e H; inversion H; reflexivity | ].
        split; [ intros _ | reflexivity ].
        right. split; [ exact E1 | left ]. exists i. split; [ reflexivity | ].
        apply orb_true_iff in Eb. destruct Eb as [Eb | Eb];
          [ apply Z.ltb_lt in Eb | apply Z.geb_le in Eb ]; lia.
      * split; [ intros e H; discriminate | ].
        split; [ discriminate | ].
        apply orb_false_iff in Eb. destruct Eb as [Eb1 Eb2].
        rewrite Z.geb_leb in Eb2. apply Z.leb_gt in Eb2.
        intros [H | [_ [[j [Hj Hr]] | [H _]]]]; try discriminate.
        inversion Hj; subst j. lia.
  - destruct (in_mix_avg_average selected) eqn:Em.
    + split; [ intros e H; destruct (channels =? 2); discriminate | ].
      split; [ destruct (channels =? 2); discriminate | ].
      intros [H | [_ [[j [Hj _]] | [_ [H _]]]]]; discriminate.
    + destruct (in_None_any selected) eqn:Ea.
      * split; [ intros e H; discriminate | ].
        split; [ discriminate | ].
        intros [H | [_ [[j [Hj _]] | [_ [_ H]]]]]; discriminate.
      * split; [ intros e H; inversion H; reflexivity | ].
        split; [ intros _ | reflexivity ].
        right. split; [ exact E1 | right ]. auto.
Qed.

(** X4: for a valid sample width and a channel count other than 1, an integer
    [selected] with -channels <= selected < channels gives the selector of
    the single channel [selected mod channels], which lies in [0, channels);
    so a negative index selects the same channel as that index plus the
    channel count, and [True] and [False] select channels 1 and 0. *)
Theorem integer_channel_is_normalized {fmt : Type} (FORMAT : Z -> option fmt)
    (sample_width channels : Z) (f : fmt) (i : Z) :
  FORMAT sample_width = Some f ->
  channels <> 1 ->
  - channels <= i < channels ->
  make_channel_selector FORMAT sample_width channels (sel_int i)
    = Ret (extract_single_channel f channels (i mod channels)) /\
  0 <= i mod channels < channels /\
  (i < 0 ->
   make_channel_selector FORMAT sample_width channels (sel_int i)
   = make_channel_selector FORMAT sample_width channels (sel_int (i + channels))) /\
  (forall v : bool,
     make_channel_selector FORMAT sample_width channels (sel_bool v)
     = make_channel_selector FORMAT sample_width channels
         (sel_int (if v then 1 else 0))).
Proof.
  intros Hf Hc Hi.
  assert (Hpos : 0 < channels) by lia.
  assert (Hnorm : forall j, 0 <= j < channels ->
            make_channel_selector FORMAT sample_width channels (sel_int j)
            = Ret (extract_single_channel f channels j)).
  { intros j Hj. unfold make_channel_selector. rewrite Hf.
    apply Z.eqb_neq in Hc. rewrite Hc. simpl.
    assert (E1 : (j <? 0) = false) by (apply Z.ltb_ge; lia).
    assert (E2 : (j >=? channels) = false) by (rewrite Z.geb_leb; apply Z.leb_gt; lia).
    rewrite E1. cbv zeta. rewrite E1, E2. reflexivity. }
  assert (Hneg : forall j, - channels <= j < 0 ->
            make_channel_selector FORMAT sample_width channels (sel_int j)
            = Ret (extract_single_channel f channels (j + channels))).
  { intros j Hj. unfold make_channel_selector. rewrite Hf.
    apply Z.eqb_neq in Hc. rewrite Hc. simpl.
    assert (E0 : (j <? 0) = true) by (apply Z.ltb_lt; lia).
    assert (E1 : (j + channels <? 0) = false) by (apply Z.ltb_ge; lia).
    assert (E2 : (j + channels >=? channels) = false)
      by (rewrite Z.geb_leb; apply Z.leb_gt; lia).
    rewrite E0. cbv zeta. rewrite E1, E2. reflexivity. }
  split; [ | split; [ apply Z.mod_pos_bound; exact Hpos | split ] ].
  - destruct (Z_lt_le_dec i 0) as [Hlt | Hge].
    + rewrite Hneg by lia. f_equal. f_equal.
      rewrite <- (Z.mod_small (i + channels) channels) by lia.
      rewrite <- (Z_mod_plus_full i 1 channels). f_equal. lia.
    + rewrite Hnorm by lia. rewrite Z.mod_small by lia. reflexivity.
  - intros Hlt. rewrite Hneg by lia. rewrite Hnorm by lia. reflexivity.
  - intros [|]; reflexivity.
Qed.

(** X4 at index -1 of four channels, the same channel as index 3. *)
Lemma integer_channel_is_normalized_witness :
  make_channel_selector FORMAT_1_2_4 2 4 (sel_int (-1))
  = make_channel_selector FORMAT_1_2_4 2 4 (sel_int 3).
Proof.
  refine (proj1 (proj2 (proj2 (integer_channel_is_normalized FORMAT_1_2_4 2 4
                                 "width 2"%string (-1) eq_refl _ _))) _); lia.
Defined.

(** ** The validator *)

(** X5: the energy function of a validator always fits what its selector
    returns: it is the multichannel one exactly when the selector separates
    the channels (a list of arrays), and the single-channel one when the
    selector is the identity, one channel or the average (one array). *)
Theorem validator_energy_function_fits_selector {fmt : Type} (FORMAT : Z -> option fmt)
    (energy_threshold : Q) (sample_width channels : Z)
    (use_channel : selected_value) (v : AudioEnergyValidator) :
  AudioEnergyValidator_init FORMAT energy_threshold sample_width channels use_channel
    = Ret v ->
  (_energy_fn v = calculate_energy_multichannel <->
   exists f c, _selector v = separate_channels f c).
Proof.
  unfold AudioEnergyValidator_init, make_channel_selector.
  destruct (FORMAT sample_width) as [f |]; [ | discriminate ].
  destruct (channels =? 1) eqn:E1.
  { intros H. inversion H; subst v. simpl.
    split; [ discriminate | intros [f0 [c H0]]; discriminate ]. }
  destruct (as_int use_channel) as [i |] eqn:Ei.
  { cbv zeta.
    destruct (_ || _); [ discriminate | ].
    intros H. inversion H; subst v. simpl.
    assert (En : in_None_any use_channel = false).
    { destruct use_channel as [ | j | b | s | x]; try reflexivity; discriminate. }
    rewrite En. simpl.
    split; [ discriminate | intros [f0 [c H0]]; discriminate ]. }
  destruct (in_mix_avg_average use_channel) eqn:Em.
  { assert (En : in_None_any use_channel = false).
    { apply in_mix_avg_average_iff in Em.
      destruct Em as [-> | [-> | ->]]; reflexivity. }
    destruct (channels =? 2); intros H; inversion H; subst v; simpl; rewrite En; simpl;
      (split; [ discriminate | intros [f0 [c H0]]; discriminate ]). }
  destruct (in_None_any use_channel) eqn:En; [ | discriminate ].
  intros H. inversion H; subst v. simpl. split; [ eauto | reflexivity ].
Qed.

(** X5 at a stereo validator on any channel. *)
Lemma validator_energy_function_fits_selector_witness :
  exists v,
    AudioEnergyValidator_init FORMAT_1_2_4 50 2 2 sel_None = Ret v /\
    _energy_fn v = calculate_energy_multichannel.
Proof.
  eexists. split; [ reflexivity | ].
  apply (validator_energy_function_fits_selector FORMAT_1_2_4 50 2 2 sel_None _ eq_refl).
  eexists. eexists. reflexivity.
Defined.

(** ** The recorder over any source *)

Lemma blocks_of_app (xs ys : list (outcome (option bytes))) :
  blocks_of (xs ++ ys) = blocks_of xs ++ blocks_of ys.
Proof.
  induction xs as [| [[b |] | e] xs IH]; simpl; [ reflexivity | | | ]; rewrite IH; reflexivity.
Qed.

Section RecorderOverAnySource.
Context {S : Type} (inner : AudioSource S).

Lemma recording_read (n : Z) (s : S) (c : list bytes) :
  Recorder.read inner n (recording s c) =
    (fst (src_read inner n s),
     recording (snd (src_read inner n s)) (c ++ blocks_of [fst (src_read inner n s)])).
Proof.
  unfold Recorder.read, Recorder.read_and_cache, recording. simpl.
  destruct (src_read inner n s) as [[[b |] | e] s1]; simpl;
    unfold Recorder.set_source; simpl; rewrite ?app_nil_r; reflexivity.
Qed.

Lemma recording_reads (sizes : list Z) :
  forall (s : S) (c : list bytes),
    reads (Recorder.read inner) sizes (recording s c) =
      (fst (reads (src_read inner) sizes s),
       recording (snd (reads (src_read inner) sizes s))
                 (c ++ blocks_of (fst (reads (src_read inner) sizes s)))).
Proof.
  induction sizes as [| n sizes IH]; intros s c; simpl.
  - rewrite app_nil_r. reflexivity.
  - rewrite recording_read.
    destruct (src_read inner n s) as [r s1]. cbn [fst snd].
    rewrite IH.
    destruct (reads (src_read inner) sizes s1) as [rs s2]. cbn [fst snd].
    f_equal. f_equal. rewrite <- app_assoc. f_equal.
    destruct r as [[b |] | e]; reflexivity.
Qed.

Lemma recording_rewind (s : S) (c : list bytes) :
  fst (Recorder.rewind inner (recording s c)) = Ret tt /\
  Recorder._data (snd (Recorder.rewind inner (recording s c))) = Some (concat c) /\
  recorder_ready (snd (Recorder.rewind inner (recording s c))) /\
  Recorder._read_from_cache (snd (Recorder.rewind inner (recording s c))) = true.
Proof.
  unfold Recorder.rewind, recording. simpl.
  repeat split. right. split; [ reflexivity | eexists; reflexivity ].
Qed.

Lemma replaying_keeps_data (d : bytes) (r : Recorder.t S) :
  Recorder._read_from_cache r = true ->
  Recorder._data r = Some d ->
  (forall n, Recorder._read_from_cache (snd (Recorder.read inner n r)) = true /\
             Recorder._data (snd (Recorder.read inner n r)) = Some d) /\
  Recorder._read_from_cache (snd (Recorder.rewind inner r)) = true /\
  Recorder._data (snd (Recorder.rewind inner r)) = Some d.
Proof.
  intros Hc Hd. split.
  - intros n. unfold Recorder.read, Recorder.read_and_cache.
    destruct (Recorder._read_block r);
      destruct (src_read (Recorder.source inner) n (Recorder._audio_source r))
        as [[[b |] | e] s1]; try destruct (Recorder._cache r); simpl; auto.
  - unfold Recorder.rewind. rewrite Hc.
    destruct (src_rewind (Recorder.source inner) (Recorder._audio_source r)) as [res s1].
    simpl. auto.
Qed.

Lemma replaying_reads_keep_data (d : bytes) (sizes : list Z) :
  forall r : Recorder.t S,
    Recorder._read_from_cache r = true ->
    Recorder._data r = Some d ->
    Recorder._read_from_cache (snd (reads (Recorder.read inner) sizes r)) = true /\
    Recorder._data (snd (reads (Recorder.read inner) sizes r)) = Some d.
Proof.
  induction sizes as [| n sizes IH]; intros r Hc Hd; simpl; [ auto | ].
  destruct (proj1 (replaying_keeps_data d r Hc Hd) n) as [Hc1 Hd1].
  destruct (Recorder.read inner n r) as [res r1]. cbn [snd] in Hc1, Hd1.
  specialize (IH r1 Hc1 Hd1).
  destruct (reads (Recorder.read inner) sizes r1) as [rs r2]. exact IH.
Qed.
End RecorderOverAnySource.

(** X6: a recorder that has not been rewound is transparent: over any source
    and for any sequence of read sizes, its reads return what the same reads
    of the source return (blocks, ends of stream and exceptions alike) and
    leave the source in the same state. *)
Theorem recorder_reads_are_the_source_reads {S : Type} (inner : AudioSource S)
    (s : S) (sizes : list Z) :
  fst (reads (Recorder.read inner) sizes (Recorder.init s))
    = fst (reads (src_read inner) sizes s) /\
  Recorder._audio_source (snd (reads (Recorder.read inner) sizes (Recorder.init s)))
    = inl (snd (reads (src_read inner) sizes s)).
Proof.
  change (Recorder.init s) with (recording s []).
  rewrite recording_reads. split; reflexivity.
Qed.

(** X7: over any source, [data] of a recorder raises [RuntimeError] as long
    as [rewind] has not been called, whatever was read; the first [rewind]
    returns normally, and from then on [data] is the concatenation, in
    order, of the blocks the reads before it returned, and later reads and
    rewinds do not change it. *)
Theorem recorder_data_is_what_was_read {S : Type} (inner : AudioSource S)
    (s : S) (sizes : list Z) :
  let r := snd (reads (Recorder.read inner) sizes (Recorder.init s)) in
  let recorded := concat (blocks_of (fst (reads (Recorder.read inner) sizes (Recorder.init s)))) in
  Recorder.data r = Raise RuntimeError /\
  fst (Recorder.rewind inner r) = Ret tt /\
  Recorder.data (snd (Recorder.rewind inner r)) = Ret recorded /\
  forall later : list Z,
    let r' := snd (reads (Recorder.read inner) later (snd (Recorder.rewind inner r))) in
    Recorder.data r' = Ret recorded /\
    Recorder.data (snd (Recorder.rewind inner r')) = Ret recorded.
Proof.
  cbv zeta. change (Recorder.init s) with (recording s []).
  rewrite recording_reads. cbn [fst snd app].
  set (rs := fst (reads (src_read inner) sizes s)).
  set (s' := snd (reads (src_read inner) sizes s)).
  destruct (recording_rewind inner s' (blocks_of rs)) as [H1 [H2 [_ H4]]].
  split; [ reflexivity | split; [ exact H1 | split ] ].
  - unfold Recorder.data. rewrite H2. reflexivity.
  - intros later.
    destruct (replaying_reads_keep_data inner (concat (blocks_of rs)) later _ H4 H2)
      as [H5 H6].
    split.
    + unfold Recorder.data. rewrite H6. reflexivity.
    + destruct (replaying_keeps_data inner (concat (blocks_of rs)) _ H5 H6) as [_ [_ H7]].
      unfold Recorder.data. rewrite H7. reflexivity.
Qed.

(** X8: in a reader built without recording, over any source, with or without
    a limit and an overlap, [rewind] and [data] raise [AttributeError] after
    any sequence of read, rewind, open and close, and the failed [rewind]
    leaves the reader as it was. *)
Theorem reader_without_record_has_no_rewind_and_no_data {S : Type}
    (inner : AudioSource S) (input : S) (block_dur : Q) (hop_dur max_read : option Q)
    (a : AudioReader.t S) (os : list operation) :
  AudioReader.init inner input block_dur hop_dur false max_read = Ret a ->
  AudioReader.rewind inner (session inner os a)
    = (Raise AttributeError, session inner os a) /\
  AudioReader.data inner (session inner os a) = Raise AttributeError.
Proof.
  intros Hinit.
  destruct (init_window_source inner input block_dur hop_dur false max_read a Hinit)
    as [Hrec _].
  destruct (session_keeps inner (fun _ => True)
              (fun _ _ _ => I) (fun _ _ => I) (fun _ _ => I) (fun _ _ => I) os a I)
    as [_ Hrec'].
  unfold AudioReader.rewind, AudioReader.data, AudioReader.rewindable.
  rewrite Hrec', Hrec. split; reflexivity.
Qed.

(** X8 at a reader over "abcdefghijklmnop" after a read, a rewind and a read. *)
Lemma reader_without_record_has_no_rewind_and_no_data_witness :
  exists a,
    AudioReader.init BufferAudioSource.ops abcdefghijklmnop (1 # 4) None false None = Ret a /\
    AudioReader.data BufferAudioSource.ops
      (session BufferAudioSource.ops [call_read; call_rewind; call_read] a)
    = Raise AttributeError.
Proof.
  eexists. split; [ vm_compute; reflexivity | ].
  refine (proj2 (reader_without_record_has_no_rewind_and_no_data BufferAudioSource.ops
                   abcdefghijklmnop (1 # 4) None None _
                   [call_read; call_rewind; call_read] _)).
  vm_compute. reflexivity.
Defined.

Section Replaying.
Context {S : Type} (inner other : AudioSource S).

Lemma replaying_read (n : Z) (r : Recorder.t S) :
  replaying r ->
  Recorder.read inner n r = Recorder.read other n r /\
  replaying (snd (Recorder.read inner n r)).
Proof.
  intros [Hc [Hb [b Hs]]]. unfold Recorder.read. rewrite Hb, Hs. simpl.
  destruct (BufferAudioSource.read n b) as [res b']. simpl.
  split; [ reflexivity | ].
  split; [ exact Hc | split; [ exact Hb | eexists; reflexivity ] ].
Qed.

Lemma replaying_rewind (r : Recorder.t S) :
  replaying r ->
  Recorder.rewind inner r = Recorder.rewind other r /\
  replaying (snd (Recorder.rewind inner r)).
Proof.
  intros [Hc [Hb [b Hs]]]. unfold Recorder.rewind. rewrite Hc, Hs. simpl.
  split; [ reflexivity | ].
  split; [ exact Hc | split; [ exact Hb | eexists; reflexivity ] ].
Qed.

Lemma replaying_reads (sizes : list Z) :
  forall r : Recorder.t S,
    replaying r ->
    reads (Recorder.read inner) sizes r = reads (Recorder.read other) sizes r /\
    replaying (snd (reads (Recorder.read inner) sizes r)).
Proof.
  induction sizes as [| n sizes IH]; intros r Hr; [ split; [ reflexivity | exact Hr ] | ].
  simpl. destruct (replaying_read n r Hr) as [E Hr1]. rewrite <- E.
  destruct (Recorder.read inner n r) as [res r1]. cbn [snd] in Hr1.
  destruct (IH r1 Hr1) as [E1 Hr2]. rewrite <- E1.
  destruct (reads (Recorder.read inner) sizes r1) as [rs r2]. split; [ reflexivity | exact Hr2 ].
Qed.
End Replaying.

(** X9: once a recorder has been rewound it no longer uses the source it was
    built over: whatever the methods of that source are, the reads that
    follow, of any sizes, and a further rewind with the reads after it,
    give the same results and the same states; they come from the
    in-memory copy. *)
Theorem rewound_recorder_leaves_its_source_alone {S : Type}
    (inner other : AudioSource S) (s : S) (sizes later again : list Z) :
  let r := snd (Recorder.rewind inner
                  (snd (reads (Recorder.read inner) sizes (Recorder.init s)))) in
  reads (Recorder.read inner) later r = reads (Recorder.read other) later r /\
  Recorder.rewind inner (snd (reads (Recorder.read inner) later r))
  = Recorder.rewind other (snd (reads (Recorder.read inner) later r)) /\
  reads (Recorder.read inner) again
    (snd (Recorder.rewind inner (snd (reads (Recorder.read inner) later r))))
  = reads (Recorder.read other) again
      (snd (Recorder.rewind inner (snd (reads (Recorder.read inner) later r)))).
Proof.
  cbv zeta. change (Recorder.init s) with (recording s []).
  rewrite recording_reads. cbn [snd].
  set (r := snd (Recorder.rewind inner (recording _ _))).
  assert (Hr : replaying r).
  { unfold r, Recorder.rewind, recording. simpl.
    split; [ reflexivity | split; [ reflexivity | eexists; reflexivity ] ]. }
  destruct (replaying_reads inner other later r Hr) as [E1 Hr1].
  destruct (replaying_rewind inner other _ Hr1) as [E2 Hr2].
  destruct (replaying_reads inner other again _ Hr2) as [E3 _].
  split; [ exact E1 | split; [ exact E2 | exact E3 ] ].
Qed.

(** ** The recorded data during a session *)

Section UnderRecorder.
Context {S : Type} (inner : AudioSource S).
Variables R R' : Recorder.t S -> Prop.

Lemma under_read (n : Z) (s : AudioReader.limited S) :
  (forall n r, R r -> R' (snd (Recorder.read inner n r))) ->
  (forall r, R r -> R' r) ->
  under_recorder R s ->
  under_recorder R' (snd (src_read (AudioReader.limited_ops inner) n s)).
Proof.
  intros Hread Hskip [[r [Hs Hr]] | [l [r [Hs [Hl Hr]]]]]; subst s; simpl.
  - left. pose proof (Hread n r Hr). shape.
  - right. unfold Limiter.read.
    destruct (Z.min _ _ <=? 0); simpl; [ pose proof (Hskip r Hr); shape | ].
    rewrite Hl. simpl.
    pose proof (Hread (Z.min (Limiter._max_samples l - Limiter._read_samples l) n) r Hr)
      as H1.
    destruct (Recorder.read inner _ r) as [res r']. simpl in *.
    destruct res as [[blk |] | e]; [ destruct (_ =? 0) | | ]; simpl; shape.
Qed.

Lemma under_rewind (s : AudioReader.limited S) :
  (forall r, R r -> R' (snd (Recorder.rewind inner r))) ->
  under_recorder R s ->
  under_recorder R' (snd (src_rewind (AudioReader.limited_ops inner) s)).
Proof.
  intros Hrew [[r [Hs Hr]] | [l [r [Hs [Hl Hr]]]]]; subst s; simpl.
  - left. pose proof (Hrew r Hr). shape.
  - right. unfold Limiter.rewind, AudioReadingProxy.rewind. simpl. rewrite Hl. simpl.
    pose proof (Hrew r Hr) as H1.
    destruct (Recorder.rewind inner r) as [[u | e] r']; simpl in *; shape.
Qed.

Lemma under_open (s : AudioReader.limited S) :
  (forall r, R r -> R' (snd (Recorder.lift (src_open (Recorder.source inner)) r))) ->
  under_recorder R s ->
  under_recorder R' (snd (src_open (AudioReader.limited_ops inner) s)).
Proof.
  intros Hop [[r [Hs Hr]] | [l [r [Hs [Hl Hr]]]]]; subst s; simpl.
  - left. pose proof (Hop r Hr). shape.
  - right. unfold Limiter.lift. rewrite Hl. simpl.
    pose proof (Hop r Hr) as H1.
    destruct (Recorder.lift _ r) as [res r']. simpl in *. shape.
Qed.

Lemma under_close (s : AudioReader.limited S) :
  (forall r, R r -> R' (snd (Recorder.lift (src_close (Recorder.source inner)) r))) ->
  under_recorder R s ->
  under_recorder R' (snd (src_close (AudioReader.limited_ops inner) s)).
Proof.
  intros Hop [[r [Hs Hr]] | [l [r [Hs [Hl Hr]]]]]; subst s; simpl.
  - left. pose proof (Hop r Hr). shape.
  - right. unfold Limiter.lift. rewrite Hl. simpl.
    pose proof (Hop r Hr) as H1.
    destruct (Recorder.lift _ r) as [res r']. simpl in *. shape.
Qed.
End UnderRecorder.

Section RecorderData.
Context {S : Type} (inner : AudioSource S).

Lemma read_keeps_recorder_flags (n : Z) (r : Recorder.t S) :
  Recorder._read_from_cache (snd (Recorder.read inner n r)) = Recorder._read_from_cache r /\
  Recorder._data (snd (Recorder.read inner n r)) = Recorder._data r /\
  ((exists c, Recorder._cache r = Some c) ->
   exists c, Recorder._cache (snd (Recorder.read inner n r)) = Some c).
Proof.
  unfold Recorder.read, Recorder.read_and_cache.
  destruct (Recorder._cache r) as [c |] eqn:Ec;
    destruct (Recorder._read_block r);
    destruct (src_read (Recorder.source inner) n (Recorder._audio_source r))
      as [[[b |] | e] s1]; simpl;
    repeat split; auto; try (intros [c0 Hc0]; try discriminate);
    try rewrite Ec; eauto.
Qed.

Lemma lift_keeps_recorder_flags {A : Type}
    (f : S + BufferAudioSource.t -> outcome A * (S + BufferAudioSource.t))
    (r : Recorder.t S) :
  Recorder._read_from_cache (snd (Recorder.lift f r)) = Recorder._read_from_cache r /\
  Recorder._data (snd (Recorder.lift f r)) = Recorder._data r /\
  Recorder._cache (snd (Recorder.lift f r)) = Recorder._cache r.
Proof.
  unfold Recorder.lift. destruct (f (Recorder._audio_source r)) as [res s1].
  simpl. auto.
Qed.

Lemma not_rewound_read (n : Z) (r : Recorder.t S) :
  not_rewound r -> not_rewound (snd (Recorder.read inner n r)).
Proof.
  intros [H1 [H2 H3]].
  destruct (read_keeps_recorder_flags n r) as [E1 [E2 E3]].
  unfold not_rewound. rewrite E1, E2. auto.
Qed.

Lemma not_rewound_lift {A : Type}
    (f : S + BufferAudioSource.t -> outcome A * (S + BufferAudioSource.t))
    (r : Recorder.t S) :
  not_rewound r -> not_rewound (snd (Recorder.lift f r)).
Proof.
  intros [H1 [H2 H3]].
  destruct (lift_keeps_recorder_flags f r) as [E1 [E2 E3]].
  unfold not_rewound. rewrite E1, E2, E3. auto.
Qed.

Lemma not_rewound_rewind (r : Recorder.t S) :
  not_rewound r -> exists d, rewound_with d (snd (Recorder.rewind inner r)).
Proof.
  intros [H1 [[c H2] H3]]. unfold Recorder.rewind. rewrite H1, H2. simpl.
  exists (concat c). split; reflexivity.
Qed.

Lemma rewound_with_read (d : bytes) (n : Z) (r : Recorder.t S) :
  rewound_with d r -> rewound_with d (snd (Recorder.read inner n r)).
Proof.
  intros [H1 H2].
  destruct (read_keeps_recorder_flags n r) as [E1 [E2 _]].
  unfold rewound_with. rewrite E1, E2. auto.
Qed.

Lemma rewound_with_lift {A : Type} (d : bytes)
    (f : S + BufferAudioSource.t -> outcome A * (S + BufferAudioSource.t))
    (r : Recorder.t S) :
  rewound_with d r -> rewound_with d (snd (Recorder.lift f r)).
Proof.
  intros [H1 H2].
  destruct (lift_keeps_recorder_flags f r) as [E1 [E2 _]].
  unfold rewound_with. rewrite E1, E2. auto.
Qed.

Lemma rewound_with_rewind (d : bytes) (r : Recorder.t S) :
  rewound_with d r -> rewound_with d (snd (Recorder.rewind inner r)).
Proof.
  intros [H1 H2]. unfold Recorder.rewind. rewrite H1.
  destruct (src_rewind (Recorder.source inner) (Recorder._audio_source r)) as [res s1].
  split; assumption.
Qed.

(** The recorder was rewound at some point, or not yet. *)
Lemma either_way_rewind (r : Recorder.t S) :
  not_rewound r \/ (exists d, rewound_with d r) ->
  exists d, rewound_with d (snd (Recorder.rewind inner r)).
Proof.
  intros [H | [d H]].
  - apply not_rewound_rewind. exact H.
  - exists d. apply rewound_with_rewind. exact H.
Qed.

Lemma data_under_not_rewound (s : AudioReader.limited S) :
  under_recorder not_rewound s ->
  src_data (AudioReader.limited_ops inner) s = Raise RuntimeError.
Proof.
  intros [[r [Hs [_ [_ Hd]]]] | [l [r [Hs [Hl [_ [_ Hd]]]]]]]; subst s; simpl.
  - unfold Recorder.data. rewrite Hd. reflexivity.
  - unfold Limiter.data. rewrite Hl. simpl. unfold Recorder.data. rewrite Hd. reflexivity.
Qed.

Lemma data_under_rewound (d : bytes) (s : AudioReader.limited S) :
  under_recorder (rewound_with d) s ->
  src_data (AudioReader.limited_ops inner) s = Ret (data_through s d).
Proof.
  intros [[r [Hs [_ Hd]]] | [l [r [Hs [Hl [_ Hd]]]]]]; subst s; simpl.
  - unfold Recorder.data. rewrite Hd. reflexivity.
  - unfold Limiter.data. rewrite Hl. simpl. unfold Recorder.data. rewrite Hd. reflexivity.
Qed.
End RecorderData.

Lemma session_app {S : Type} (inner : AudioSource S) (os1 os2 : list operation)
    (a : AudioReader.t S) :
  session inner (os1 ++ os2) a = session inner os2 (session inner os1 a).
Proof. unfold session. apply fold_left_app. Qed.

Section SessionWithoutRewind.
Context {S : Type} (inner : AudioSource S) (P : AudioReader.limited S -> Prop).
Hypothesis read_keeps :
  forall n s, P s -> P (snd (src_read (AudioReader.limited_ops inner) n s)).
Hypothesis open_keeps :
  forall s, P s -> P (snd (src_open (AudioReader.limited_ops inner) s)).
Hypothesis close_keeps :
  forall s, P s -> P (snd (src_close (AudioReader.limited_ops inner) s)).

Lemma perform_keeps_but_rewind (o : operation) (a : AudioReader.t S) :
  o <> call_rewind ->
  P (window_source a) ->
  P (window_source (perform inner o a)) /\
  AudioReader._record (perform inner o a) = AudioReader._record a.
Proof.
  intros Ho H.
  pose (ops := with_rewind (fun s => (Ret tt, s)) (AudioReader.limited_ops inner)).
  unfold window_source in *.
  destruct a as [rec [w | w]]; simpl in H.
  - destruct (fixed_keeps ops P read_keeps (fun s H => H) open_keeps close_keeps w H)
      as [H1 [_ [H3 H4]]].
    destruct o; [ | contradiction | | ];
      unfold perform, AudioReader.read, AudioReader.open, AudioReader.close; simpl.
    + change (FixedSizeAudioReader.read ops w)
        with (FixedSizeAudioReader.read (AudioReader.limited_ops inner) w) in H1.
      destruct (FixedSizeAudioReader.read _ w). simpl in *. auto.
    + change (FixedSizeAudioReader.open ops w)
        with (FixedSizeAudioReader.open (AudioReader.limited_ops inner) w) in H3.
      destruct (FixedSizeAudioReader.open _ w). simpl in *. auto.
    + change (FixedSizeAudioReader.close ops w)
        with (FixedSizeAudioReader.close (AudioReader.limited_ops inner) w) in H4.
      destruct (FixedSizeAudioReader.close _ w). simpl in *. auto.
  - destruct (overlap_keeps ops P read_keeps (fun s H => H) open_keeps close_keeps w H)
      as [H1 [_ [H3 H4]]].
    destruct o; [ | contradiction | | ];
      unfold perform, AudioReader.read, AudioReader.open, AudioReader.close; simpl.
    + change (OverlapAudioReader.read ops w)
        with (OverlapAudioReader.read (AudioReader.limited_ops inner) w) in H1.
      destruct (OverlapAudioReader.read _ w). simpl in *. auto.
    + change (OverlapAudioReader.open ops w)
        with (OverlapAudioReader.open (AudioReader.limited_ops inner) w) in H3.
      destruct (OverlapAudioReader.open _ w). simpl in *. auto.
    + change (OverlapAudioReader.close ops w)
        with (OverlapAudioReader.close (AudioReader.limited_ops inner) w) in H4.
      destruct (OverlapAudioReader.close _ w). simpl in *. auto.
Qed.

Lemma session_keeps_but_rewind (os : list operation) :
  forall a : AudioReader.t S,
    ~ In call_rewind os ->
    P (window_source a) ->
    P (window_source (session inner os a)) /\
    AudioReader._record (session inner os a) = AudioReader._record a.
Proof.
  induction os as [| o os IH]; intros a Hno H; [ simpl; auto | ].
  unfold session. simpl. fold (session inner os (perform inner o a)).
  assert (Ho : o <> call_rewind) by (intros E; apply Hno; left; exact E).
  destruct (perform_keeps_but_rewind o a Ho H) as [H1 H2].
  destruct (IH _ (fun Hin => Hno (or_intror Hin)) H1) as [H3 H4].
  split; [ exact H3 | congruence ].
Qed.
End SessionWithoutRewind.

Section DataOfSessions.
Context {S : Type} (inner : AudioSource S).

Lemma limiter_keeps_its_cap {T : Type} (ops : AudioSource T) (l : Limiter.t T) :
  let same (l' : Limiter.t T) :=
    Limiter._max_samples l' = Limiter._max_samples l /\
    Limiter._bytes_per_sample l' = Limiter._bytes_per_sample l in
  (forall n, same (snd (Limiter.read ops n l))) /\
  same (snd (Limiter.rewind ops l)) /\
  (forall (A : Type) (f : T -> outcome A * T), same (snd (Limiter.lift f l))).
Proof.
  cbv zeta. split; [ | split ].
  - intros n. unfold Limiter.read.
    destruct (Z.min _ _ <=? 0); [ split; reflexivity | ].
    destruct (src_read ops _ _) as [[[b |] | e] s1]; [ destruct (_ =? 0) | | ];
      split; reflexivity.
  - unfold Limiter.rewind.
    destruct (AudioReadingProxy.rewind ops _) as [[u | e] s1]; split; reflexivity.
  - intros A f. unfold Limiter.lift. destruct (f _) as [res s1]. split; reflexivity.
Qed.

Lemma data_through_kept (d : bytes) (s : AudioReader.limited S) :
  (forall n, data_through (snd (src_read (AudioReader.limited_ops inner) n s)) d
             = data_through s d) /\
  data_through (snd (src_rewind (AudioReader.limited_ops inner) s)) d = data_through s d /\
  data_through (snd (src_open (AudioReader.limited_ops inner) s)) d = data_through s d /\
  data_through (snd (src_close (AudioReader.limited_ops inner) s)) d = data_through s d.
Proof.
  destruct s as [x | l]; [ simpl; auto | ].
  destruct (limiter_keeps_its_cap (AudioReader.recorded_ops inner) l) as [H1 [H2 H3]].
  repeat split.
  - intros n. destruct (H1 n) as [E1 E2].
    change (slice_to (Limiter._max_samples (snd (Limiter.read (AudioReader.recorded_ops inner) n l))
                      * Limiter._bytes_per_sample
                          (snd (Limiter.read (AudioReader.recorded_ops inner) n l))) d
            = slice_to (Limiter._max_samples l * Limiter._bytes_per_sample l) d).
    rewrite E1, E2. reflexivity.
  - destruct H2 as [E1 E2].
    change (slice_to (Limiter._max_samples (snd (Limiter.rewind (AudioReader.recorded_ops inner) l))
                      * Limiter._bytes_per_sample
                          (snd (Limiter.rewind (AudioReader.recorded_ops inner) l))) d
            = slice_to (Limiter._max_samples l * Limiter._bytes_per_sample l) d).
    rewrite E1, E2. reflexivity.
  - destruct (H3 unit (src_open (AudioReader.recorded_ops inner))) as [E1 E2].
    change (slice_to (Limiter._max_samples
                        (snd (Limiter.lift (src_open (AudioReader.recorded_ops inner)) l))
                      * Limiter._bytes_per_sample
                          (snd (Limiter.lift (src_open (AudioReader.recorded_ops inner)) l))) d
            = slice_to (Limiter._max_samples l * Limiter._bytes_per_sample l) d).
    rewrite E1, E2. reflexivity.
  - destruct (H3 unit (src_close (AudioReader.recorded_ops inner))) as [E1 E2].
    change (slice_to (Limiter._max_samples
                        (snd (Limiter.lift (src_close (AudioReader.recorded_ops inner)) l))
                      * Limiter._bytes_per_sample
                          (snd (Limiter.lift (src_close (AudioReader.recorded_ops inner)) l))) d
            = slice_to (Limiter._max_samples l * Limiter._bytes_per_sample l) d).
    rewrite E1, E2. reflexivity.
Qed.

Lemma fixed_session (d D : bytes) (os : list operation) (a : AudioReader.t S) :
  AudioReader._record a = true ->
  data_fixed d D (window_source a) ->
  AudioReader.data inner (session inner os a) = Ret D.
Proof.
  intros Hrec Hfix.
  destruct (session_keeps inner (data_fixed d D)) with (os := os) (a := a) as [[Hu HD] Hrec'].
  - intros n s [Hu HD]. split.
    + apply (under_read inner (rewound_with d) (rewound_with d)); auto.
      intros n0 r. apply rewound_with_read.
    + rewrite (proj1 (data_through_kept d s)). exact HD.
  - intros s [Hu HD]. split.
    + apply (under_rewind inner (rewound_with d) (rewound_with d)); auto.
      intros r. apply rewound_with_rewind.
    + rewrite (proj1 (proj2 (data_through_kept d s))). exact HD.
  - intros s [Hu HD]. split.
    + apply (under_open inner (rewound_with d) (rewound_with d)); auto.
      intros r. apply rewound_with_lift.
    + rewrite (proj1 (proj2 (proj2 (data_through_kept d s)))). exact HD.
  - intros s [Hu HD]. split.
    + apply (under_close inner (rewound_with d) (rewound_with d)); auto.
      intros r. apply rewound_with_lift.
    + rewrite (proj2 (proj2 (proj2 (data_through_kept d s)))). exact HD.
  - exact Hfix.
  - rewrite data_of_recording_reader by congruence.
    rewrite (data_under_rewound inner d _ Hu). rewrite HD. reflexivity.
Qed.

Lemma tracked_session (os : list operation) (a : AudioReader.t S) :
  under_recorder tracked (window_source a) ->
  under_recorder tracked (window_source (session inner os a)).
Proof.
  intros H.
  apply (session_keeps inner (under_recorder tracked)); [ | | | | exact H ].
  - intros n s. apply under_read.
    + intros n0 r [Hn | [d Hd]]; [ left; apply not_rewound_read; exact Hn | ].
      right. exists d. apply rewound_with_read. exact Hd.
    + auto.
  - intros s. apply under_rewind.
    intros r Hr. right. apply either_way_rewind. exact Hr.
  - intros s. apply under_open.
    intros r [Hn | [d Hd]]; [ left; apply not_rewound_lift; exact Hn | ].
    right. exists d. apply rewound_with_lift. exact Hd.
  - intros s. apply under_close.
    intros r [Hn | [d Hd]]; [ left; apply not_rewound_lift; exact Hn | ].
    right. exists d. apply rewound_with_lift. exact Hd.
Qed.

Lemma window_source_of_rewind (a : AudioReader.t S) :
  AudioReader._record a = true ->
  window_source (perform inner call_rewind a)
  = snd (src_rewind (AudioReader.limited_ops inner) (window_source a)) /\
  AudioReader._record (perform inner call_rewind a) = true.
Proof.
  intros Hr. unfold perform, AudioReader.rewind, AudioReader.rewindable, window_source.
  rewrite Hr. cbn [negb].
  destruct (AudioReader._audio_source a) as [w | w];
    unfold FixedSizeAudioReader.rewind, OverlapAudioReader.rewind,
      AudioReadingProxy.rewind; cbn [AudioReadingProxy.rewindable_is_truthy];
    match goal with
    | |- context [src_rewind ?o ?s] => destruct (src_rewind o s) as [[[] | e] s']
    end; simpl; auto.
Qed.

Lemma rewound_after_rewind (s : AudioReader.limited S) :
  under_recorder tracked s ->
  exists d,
    under_recorder (rewound_with d) (snd (src_rewind (AudioReader.limited_ops inner) s)).
Proof.
  intros H.
  pose proof (under_rewind inner tracked (fun r => exists d, rewound_with d r) s
                (either_way_rewind inner) H) as H1.
  destruct H1 as [[r [Hs [d Hd]]] | [l [r [Hs [Hl [d Hd]]]]]]; exists d.
  - left. shape.
  - right. shape.
Qed.
End DataOfSessions.

(** X10: in a reader built with recording, over any source, with or without
    a limit and an overlap, [data] raises [RuntimeError] after any sequence
    of read, open and close without a rewind; after a rewind it returns
    bytes, and these are fixed: whatever is read, rewound, opened or closed
    afterwards, [data] returns the same bytes. *)
Theorem recorded_data_is_fixed_by_the_first_rewind {S : Type} (inner : AudioSource S)
    (input : S) (block_dur : Q) (hop_dur max_read : option Q) (a : AudioReader.t S) :
  AudioReader.init inner input block_dur hop_dur true max_read = Ret a ->
  (forall os, ~ In call_rewind os ->
     AudioReader.data inner (session inner os a) = Raise RuntimeError) /\
  (forall os, exists d,
     forall later,
       AudioReader.data inner (session inner (os ++ call_rewind :: later) a) = Ret d).
Proof.
  intros Hinit.
  destruct (init_window_source inner input block_dur hop_dur true max_read a Hinit)
    as [Hrec Hw].
  assert (Hfresh : under_recorder not_rewound (window_source a)).
  { assert (Hn : not_rewound (Recorder.init input)).
    { split; [ reflexivity | split; [ eexists; reflexivity | reflexivity ] ]. }
    rewrite Hw. destruct max_read as [m |]; [ right | left ]; shape. }
  split.
  - intros os Hno.
    destruct (session_keeps_but_rewind inner (under_recorder not_rewound)) with
      (os := os) (a := a) as [Hu Hrec']; [ | | | exact Hno | exact Hfresh | ].
    + intros n s. apply under_read; [ intros n0 r; apply not_rewound_read | auto ].
    + intros s. apply under_open. intros r. apply not_rewound_lift.
    + intros s. apply under_close. intros r. apply not_rewound_lift.
    + rewrite data_of_recording_reader by congruence.
      apply data_under_not_rewound. exact Hu.
  - intros os.
    assert (Htr : under_recorder tracked (window_source (session inner os a))).
    { apply tracked_session.
      destruct Hfresh as [[r [Hs Hr]] | [l [r [Hs [Hl Hr]]]]]; [ left | right ];
        unfold tracked; shape. }
    assert (Hrec1 : AudioReader._record (session inner os a) = true).
    { destruct (session_keeps inner (fun _ => True)
                  (fun _ _ _ => I) (fun _ _ => I) (fun _ _ => I) (fun _ _ => I) os a I)
        as [_ E]. congruence. }
    destruct (window_source_of_rewind inner _ Hrec1) as [Ew Hrec2].
    destruct (rewound_after_rewind inner _ Htr) as [d Hd].
    rewrite <- Ew in Hd.
    exists (data_through (window_source (perform inner call_rewind (session inner os a))) d).
    intros later.
    rewrite session_app. cbn [session fold_left].
    fold (session inner later (perform inner call_rewind (session inner os a))).
    apply (fixed_session inner d); [ exact Hrec2 | ].
    split; [ exact Hd | reflexivity ].
Qed.

(** X10 at a recording reader over a live source. *)
Lemma recorded_data_is_fixed_by_the_first_rewind_witness :
  exists a d,
    AudioReader.init LiveSource.ops
      (live [Some (bytes_of "abcd"); Some (bytes_of "efgh")]) (1 # 4) None true None = Ret a /\
    AudioReader.data LiveSource.ops (session LiveSource.ops [call_read; call_open] a)
      = Raise RuntimeError /\
    forall later,
      AudioReader.data LiveSource.ops
        (session LiveSource.ops ([call_read] ++ call_rewind :: later) a) = Ret d.
Proof.
  eexists.
  match goal with
  | |- exists d, ?i = Ret ?a /\ _ =>
      destruct (recorded_data_is_fixed_by_the_first_rewind LiveSource.ops
                  (live [Some (bytes_of "abcd"); Some (bytes_of "efgh")]) (1 # 4) None None
                  {| AudioReader._record := true;
                     AudioReader._audio_source :=
                       inl {| FixedSizeAudioReader._audio_source :=
                                inl (inr (Recorder.init
                                            (live [Some (bytes_of "abcd");
                                                   Some (bytes_of "efgh")])));
                              FixedSizeAudioReader._block_size := 4 |} |}
                  ltac:(vm_compute; reflexivity)) as [H1 H2]
  end.
  destruct (H2 [call_read]) as [d Hd].
  exists d. split; [ vm_compute; reflexivity | split; [ | exact Hd ] ].
  apply H1. intros [E | [E | []]]; discriminate.
Defined.

(** ** The limiter over any source *)

Lemma len_app (x y : bytes) : len (x ++ y) = len x + len y.
Proof. unfold len. rewrite length_app. lia. Qed.

Lemma len_nonneg (x : bytes) : 0 <= len x.
Proof. unfold len. lia. Qed.

Section LimiterOverAnySource.
Context {S : Type} (inner : AudioSource S).

Lemma limiter_reads_exhausted (sizes : list Z) (l : Limiter.t S) :
  Limiter._max_samples l - Limiter._read_samples l <= 0 ->
  reads (Limiter.read inner) sizes l = (repeat (Ret None) (length sizes), l).
Proof.
  intros H. induction sizes as [| n sizes IH]; simpl; [ reflexivity | ].
  rewrite (limiter_read_exhausted inner l n H). rewrite IH. reflexivity.
Qed.

Lemma limiter_read_nothing_asked (n : Z) (l : Limiter.t S) :
  n <= 0 -> Limiter.read inner n l = (Ret None, l).
Proof.
  intros H. unfold Limiter.read.
  assert (E : (Z.min (Limiter._max_samples l - Limiter._read_samples l) n <=? 0) = true)
    by (apply Z.leb_le; lia).
  cbv zeta. rewrite E. reflexivity.
Qed.

Variable I : S -> Prop.
Variable bps : Z.
Hypothesis bps_pos : 0 < bps.
Hypothesis read_keeps : forall n s, I s -> I (snd (src_read inner n s)).
Hypothesis whole_samples :
  forall n s block,
    I s -> 0 < n -> fst (src_read inner n s) = Ret (Some block) ->
    exists k, 0 <= k <= n /\ len block = k * bps.

Lemma limiter_reads_within_budget (sizes : list Z) :
  forall l : Limiter.t S,
    I (Limiter._audio_source l) ->
    Limiter._bytes_per_sample l = bps ->
    len (concat (blocks_of (fst (reads (Limiter.read inner) sizes l))))
      <= Z.max 0 (Limiter._max_samples l - Limiter._read_samples l) * bps.
Proof.
  induction sizes as [| n sizes IH]; intros l HI Hb; simpl.
  - change (len []) with 0. nia.
  - destruct (Z_le_gt_dec (Limiter._max_samples l - Limiter._read_samples l) 0) as [Hex | Hrem].
    { rewrite (limiter_read_exhausted inner l n Hex).
      rewrite (limiter_reads_exhausted sizes l Hex). cbn [fst].
      assert (E : blocks_of (Ret None :: repeat (Ret None) (length sizes)) = []).
      { simpl. induction (length sizes) as [| m IHm]; simpl; auto. }
      rewrite E. change (len (concat [])) with 0. nia. }
    destruct (Z_le_gt_dec n 0) as [Hn | Hn].
    { rewrite (limiter_read_nothing_asked n l Hn).
      specialize (IH l HI Hb).
      destruct (reads (Limiter.read inner) sizes l) as [rs l2]. exact IH. }
    rewrite (limiter_read_request inner l n ltac:(lia) ltac:(lia)).
    set (size := Z.min (Limiter._max_samples l - Limiter._read_samples l) n).
    assert (Hsize : 0 < size) by (unfold size; lia).
    pose proof (read_keeps size _ HI) as HI'.
    pose proof (whole_samples size (Limiter._audio_source l)) as Hw.
    destruct (src_read inner size (Limiter._audio_source l)) as [[[block |] | e] s1];
      cbn [fst snd] in HI', Hw.
    + destruct (Hw block HI Hsize eq_refl) as [k [Hk Hlen]].
      assert (Ez : (Limiter._bytes_per_sample l =? 0) = false)
        by (apply Z.eqb_neq; lia).
      rewrite Ez.
      specialize (IH (Limiter.update s1
                        (Limiter._read_samples l + len block / Limiter._bytes_per_sample l) l)
                     HI' Hb).
      destruct (reads (Limiter.read inner) sizes _) as [rs l2].
      cbn [fst snd blocks_of concat] in *.
      rewrite len_app.
      cbn [Limiter.update Limiter._max_samples Limiter._read_samples] in IH.
      rewrite Hb, Hlen, Z.div_mul in IH by lia.
      unfold size in Hk. nia.
    + specialize (IH (Limiter.update s1 (Limiter._read_samples l) l) HI' Hb).
      destruct (reads (Limiter.read inner) sizes _) as [rs l2].
      cbn [fst snd blocks_of] in *. exact IH.
    + specialize (IH (Limiter.update s1 (Limiter._read_samples l) l) HI' Hb).
      destruct (reads (Limiter.read inner) sizes _) as [rs l2].
      cbn [fst snd blocks_of] in *. exact IH.
Qed.
End LimiterOverAnySource.

(** The in-memory sources with one byte per sample, open. *)
Lemma one_byte_samples_whole (n : Z) (s : BufferAudioSource.t) (block : bytes) :
  one_byte_samples s -> 0 < n ->
  fst (BufferAudioSource.read n s) = Ret (Some block) ->
  exists k, 0 <= k <= n /\ len block = k * 1.
Proof.
  intros [Ho [Hw Hc]] Hn. unfold BufferAudioSource.read. rewrite Ho, Hw, Hc.
  cbv zeta.
  pose proof (firstn_le_length (Z.to_nat (n * (1 * 1)))
                (skipn (BufferAudioSource.position s) (BufferAudioSource.data s))) as Hle.
  pose proof (length_firstn (Z.to_nat (n * (1 * 1)))
                (skipn (BufferAudioSource.position s) (BufferAudioSource.data s))) as Hl.
  destruct (firstn _ _) as [| y rest] eqn:E; [ discriminate | ].
  cbn [fst]. intros H. inversion H; subst block.
  exists (len (y :: rest)). unfold len. split; lia.
Qed.

Lemma one_byte_samples_kept (n : Z) (s : BufferAudioSource.t) :
  one_byte_samples s -> one_byte_samples (snd (BufferAudioSource.read n s)).
Proof.
  intros [Ho [Hw Hc]]. unfold BufferAudioSource.read. rewrite Ho. cbv zeta.
  destruct (firstn _ _); simpl; repeat split; assumption.
Qed.

(** X11: over a source whose reads return whole samples, never more than
    asked for, the blocks a limiter returns during any sequence of reads,
    of any sizes, add up to at most [max_samples] samples (none when
    [max_samples] is not positive). *)
Theorem limiter_never_exceeds_its_cap {S : Type} (inner : AudioSource S)
    (I : S -> Prop) (src : S) (max_read : Q) (sizes : list Z) :
  (forall n s, I s -> I (snd (src_read inner n s))) ->
  (forall n s block,
     I s -> 0 < n -> fst (src_read inner n s) = Ret (Some block) ->
     exists k, 0 <= k <= n /\ len block = k * (src_sw inner src * src_ch inner src)) ->
  I src ->
  0 < src_sw inner src * src_ch inner src ->
  len (concat (blocks_of (fst (reads (Limiter.read inner) sizes
                                 (Limiter.init inner src max_read)))))
    <= Z.max 0 (Limiter._max_samples (Limiter.init inner src max_read))
       * (src_sw inner src * src_ch inner src).
Proof.
  intros Hkeep Hwhole HI Hpos.
  pose proof (limiter_reads_within_budget inner I (src_sw inner src * src_ch inner src)
                Hpos Hkeep Hwhole sizes (Limiter.init inner src max_read) HI eq_refl) as H.
  cbn [Limiter.init Limiter._max_samples Limiter._read_samples] in *.
  rewrite Z.sub_0_r in H. exact H.
Qed.

(** X11 at a limiter of 0.5 s over "abcdefghijklmnop", one byte per sample. *)
Lemma limiter_never_exceeds_its_cap_witness :
  len (concat (blocks_of (fst (reads (Limiter.read BufferAudioSource.ops) [3; 5; 2; 7]
         (Limiter.init BufferAudioSource.ops abcdefghijklmnop (1 # 2))))))
    <= Z.max 0 (Limiter._max_samples
                  (Limiter.init BufferAudioSource.ops abcdefghijklmnop (1 # 2)))
       * (1 * 1).
Proof.
  apply (limiter_never_exceeds_its_cap BufferAudioSource.ops one_byte_samples
           abcdefghijklmnop (1 # 2) [3; 5; 2; 7]).
  - exact one_byte_samples_kept.
  - exact one_byte_samples_whole.
  - repeat split.
  - reflexivity.
Defined.

(** X12: a limiter whose budget is used up ([_read_samples] has reached
    [_max_samples], or [_max_samples] is not positive) answers every read,
    of any size, with end-of-stream and changes neither its counter nor the
    source below it; a read of no samples does the same at any time. *)
Theorem limiter_stays_at_end_of_stream {S : Type} (inner : AudioSource S)
    (l : Limiter.t S) :
  (Limiter._max_samples l <= Limiter._read_samples l ->
   forall sizes : list Z,
     reads (Limiter.read inner) sizes l = (repeat (Ret None) (length sizes), l)) /\
  (forall n, n <= 0 -> Limiter.read inner n l = (Ret None, l)).
Proof.
  split.
  - intros H sizes. apply limiter_reads_exhausted. lia.
  - intros n Hn. apply limiter_read_nothing_asked. exact Hn.
Qed.

(** ** The sizes and the windows of the overlap reader *)

Lemma py_int_le (x y : Q) : (x <= y)%Q -> py_int x <= py_int y.
Proof.
  unfold Qle, py_int. destruct x as [a b], y as [c d]. simpl. intros H.
  rewrite <- (Z.quot_mul_cancel_r a (Zpos b) (Zpos d)) by lia.
  rewrite <- (Z.quot_mul_cancel_r c (Zpos d) (Zpos b)) by lia.
  rewrite (Z.mul_comm (Zpos d) (Zpos b)).
  apply Z.quot_le_mono; lia.
Qed.

Lemma py_int_nonneg (x : Q) : (0 <= x)%Q -> 0 <= py_int x.
Proof.
  intros H. apply (py_int_le 0 x) in H. exact H.
Qed.

Lemma scale_le (x y : Q) (n : Z) : (x <= y)%Q -> 0 <= n -> (scale x n <= scale y n)%Q.
Proof.
  intros H Hn. unfold scale. apply Qmult_le_compat_r; [ exact H | ].
  unfold Qle. simpl. lia.
Qed.

(** X13: when [_OverlapAudioReader] accepts its arguments (sampling rate not
    negative), the hop size is [int(hop_dur * sr)] and never exceeds the
    block size; it is not negative when [hop_dur] is not, but nothing
    requires it to be positive: a [hop_dur] shorter than one sample gives
    hop size 0. *)
Theorem overlap_hop_size_at_most_block_size {S : Type} (inner : AudioSource S)
    (src : S) (bd hd : Q) (w : OverlapAudioReader.t S) :
  0 <= src_sr inner src ->
  OverlapAudioReader.init inner src bd hd = Ret w ->
  OverlapAudioReader.hop_size w = py_int (scale hd (src_sr inner src)) /\
  OverlapAudioReader.hop_size w <= OverlapAudioReader.block_size w /\
  ((0 <= hd)%Q -> 0 <= OverlapAudioReader.hop_size w) /\
  ((0 <= hd)%Q -> (scale hd (src_sr inner src) < 1)%Q -> OverlapAudioReader.hop_size w = 0).
Proof.
  intros Hsr. unfold OverlapAudioReader.init.
  destruct (Qle_bool bd hd) eqn:Ele; [ discriminate | ].
  apply Qle_bool_false_iff in Ele.
  unfold FixedSizeAudioReader.init.
  destruct (Qle_bool bd 0); [ discriminate | ].
  cbv zeta. destruct (py_int (scale bd (src_sr inner src)) =? 0); [ discriminate | ].
  intros H. inversion H; subst w. clear H.
  unfold OverlapAudioReader.hop_size, OverlapAudioReader.block_size. simpl.
  split; [ reflexivity | split; [ | split ] ].
  - apply py_int_le. apply scale_le; [ apply Qlt_le_weak; exact Ele | exact Hsr ].
  - intros Hhd. apply py_int_nonneg. apply scale_nonneg; assumption.
  - intros Hhd Hlt.
    assert (H0 : (0 <= scale hd (src_sr inner src))%Q) by (apply scale_nonneg; assumption).
    revert H0 Hlt. generalize (scale hd (src_sr inner src)). intros [a b].
    unfold Qle, Qlt, py_int. simpl. intros H0 Hlt.
    apply Z.quot_small. lia.
Qed.

(** X13 at a hop of 0.01 s at 16 samples per second: hop size 0. *)
Lemma overlap_hop_size_at_most_block_size_witness :
  exists w,
    OverlapAudioReader.init BufferAudioSource.ops abcdefghijklmnop (1 # 4) (1 # 100) = Ret w /\
    OverlapAudioReader.hop_size w = 0 /\
    OverlapAudioReader.hop_size w <= OverlapAudioReader.block_size w.
Proof.
  eexists. split; [ vm_compute; reflexivity | ].
  match goal with
  | |- context [OverlapAudioReader.hop_size ?w] =>
      destruct (overlap_hop_size_at_most_block_size BufferAudioSource.ops abcdefghijklmnop
                  (1 # 4) (1 # 100) w ltac:(vm_compute; discriminate) eq_refl)
        as [_ [H1 [_ H2]]]
  end.
  split; [ | exact H1 ].
  apply H2; vm_compute; [ discriminate | reflexivity ].
Defined.

Lemma overlap_init_fields {S : Type} (inner : AudioSource S)
    (src : S) (bd hd : Q) (w : OverlapAudioReader.t S) :
  0 <= src_sr inner src ->
  OverlapAudioReader.init inner src bd hd = Ret w ->
  w = {| OverlapAudioReader._audio_source := src;
         OverlapAudioReader._block_size := py_int (scale bd (src_sr inner src));
         OverlapAudioReader._hop_size := py_int (scale hd (src_sr inner src));
         OverlapAudioReader._blocks := OverlapAudioReader.created |} /\
  py_int (scale hd (src_sr inner src)) <= py_int (scale bd (src_sr inner src)) /\
  1 <= py_int (scale bd (src_sr inner src)).
Proof.
  intros Hsr. unfold OverlapAudioReader.init.
  destruct (Qle_bool bd hd) eqn:Ele; [ discriminate | ].
  apply Qle_bool_false_iff in Ele.
  unfold FixedSizeAudioReader.init.
  destruct (Qle_bool bd 0) eqn:E0; [ discriminate | ].
  apply Qle_bool_false_iff in E0.
  cbv zeta. destruct (py_int (scale bd (src_sr inner src)) =? 0) eqn:Ez; [ discriminate | ].
  apply Z.eqb_neq in Ez.
  intros H. inversion H; subst w. clear H. simpl.
  split; [ reflexivity | split ].
  - apply py_int_le. apply scale_le; [ apply Qlt_le_weak; exact Ele | exact Hsr ].
  - assert (0 <= py_int (scale bd (src_sr inner src))).
    { apply py_int_nonneg. apply scale_nonneg; [ apply Qlt_le_weak; exact E0 | exact Hsr ]. }
    lia.
Qed.

Section Sliding.
Variables (d : bytes) (sr sw ch bs hop : Z).
Hypothesis sw_pos : 0 < sw.
Hypothesis ch_pos : 0 < ch.
Hypothesis hop_pos : 0 < hop.
Hypothesis hop_le : hop <= bs.

Variables B H : nat.
Hypothesis B_bytes : B = Z.to_nat (bs * (sw * ch)).
Hypothesis H_bytes : H = Z.to_nat (hop * (sw * ch)).

Lemma sliding_sizes : (0 < H)%nat /\ (H <= B)%nat /\ Z.to_nat (hop * sw * ch) = H.
Proof.
  rewrite B_bytes, H_bytes. assert (0 < sw * ch) by nia.
  split; [ | split ].
  - apply Nat2Z.inj_lt. rewrite Z2Nat.id by nia. simpl. nia.
  - apply Z2Nat.inj_le; nia.
  - f_equal. lia.
Qed.

Lemma chunk_full (n : Z) (K q : nat) :
  K = Z.to_nat (n * (sw * ch)) ->
  (0 < K)%nat ->
  (q + K <= length d)%nat ->
  exists x rest,
    chunk sw ch d n q = x :: rest /\
    length (chunk sw ch d n q) = K.
Proof.
  intros HK Hpos Hle. unfold chunk. rewrite <- HK.
  assert (Hl : length (firstn K (skipn q d)) = K).
  { rewrite length_firstn, length_skipn. lia. }
  destruct (firstn _ _) as [| x rest]; [ simpl in Hl; lia | ].
  exists x, rest. split; [ reflexivity | exact Hl ].
Qed.

(** The reader suspended in its loop after window [i]. *)
Lemma windows_slide (N : nat) :
  forall (i : nat) (g : OverlapAudioReader.generator),
    running g (hop * sw * ch) (firstn (B - H) (skipn ((i + 1) * H) d)) ->
    ((i + N) * H + B <= length d)%nat ->
    fst (calls (OverlapAudioReader.read BufferAudioSource.ops) N
           {| OverlapAudioReader._audio_source := buffer_at sr sw ch d (i * H + B);
              OverlapAudioReader._block_size := bs;
              OverlapAudioReader._hop_size := hop;
              OverlapAudioReader._blocks := g |})
    = map (fun j => Ret (Some (sliding_window B H d j))) (seq (i + 1) N).
Proof.
  destruct sliding_sizes as [HH [HB Hh]].
  induction N as [| N IH]; intros i g Hg Hlen; [ reflexivity | ].
  rewrite calls_succ.
  destruct (chunk_full hop H (i * H + B) H_bytes HH ltac:(lia)) as [x [rest [Ec El]]].
  assert (Er : src_read BufferAudioSource.ops hop (buffer_at sr sw ch d (i * H + B))
               = (Ret (Some (x :: rest)), buffer_at sr sw ch d ((i + 1) * H + B))).
  { simpl. rewrite buffer_read_at. rewrite El. rewrite Ec. simpl.
    f_equal. f_equal. lia. }
  assert (Ew : firstn (B - H) (skipn ((i + 1) * H) d) ++ x :: rest
               = sliding_window B H d (i + 1)).
  { unfold sliding_window. rewrite <- Ec. unfold chunk. rewrite <- H_bytes.
    pose proof (firstn_add_skipn (B - H) H (skipn ((i + 1) * H) d)) as Hf.
    replace (B - H + H)%nat with B in Hf by lia.
    rewrite Hf. f_equal. rewrite skipn_skipn. f_equal. f_equal. lia. }
  erewrite read_in_loop_data; [ | exact Hg | exact Er ].
  cbn [fst snd]. rewrite Ew.
  cbn [seq map]. f_equal.
  unfold OverlapAudioReader.update. simpl.
  replace (S (i + 1)) with ((i + 1) + 1)%nat by lia.
  apply IH; [ | lia ].
  right. left. f_equal.
  unfold slice_from.
  assert (E : (hop * sw * ch <? 0) = false) by (apply Z.ltb_ge; nia).
  rewrite E, Hh. unfold sliding_window.
  rewrite skipn_firstn_comm, skipn_skipn. f_equal. f_equal. lia.
Qed.

Lemma windows_from_start (N : nat) :
  (N * H + B <= length d + H)%nat ->
  1 <= bs ->
  fst (calls (OverlapAudioReader.read BufferAudioSource.ops) N
         {| OverlapAudioReader._audio_source := buffer_at sr sw ch d 0;
            OverlapAudioReader._block_size := bs;
            OverlapAudioReader._hop_size := hop;
            OverlapAudioReader._blocks := OverlapAudioReader.created |})
  = map (fun j => Ret (Some (sliding_window B H d j))) (seq 0 N).
Proof.
  destruct sliding_sizes as [HH [HB Hh]].
  intros Hlen Hbs. destruct N as [| N]; [ reflexivity | ].
  rewrite calls_succ.
  destruct (chunk_full bs B 0 B_bytes ltac:(lia) ltac:(lia)) as [x [rest [Ec El]]].
  assert (Er : BufferAudioSource.read bs (buffer_at sr sw ch d 0)
               = (Ret (Some (x :: rest)), buffer_at sr sw ch d (0 * H + B))).
  { rewrite buffer_read_at. rewrite El, Ec. reflexivity. }
  assert (Ew : x :: rest = sliding_window B H d 0).
  { rewrite <- Ec. unfold sliding_window, chunk. rewrite <- B_bytes. reflexivity. }
  assert (Ef : OverlapAudioReader.read BufferAudioSource.ops
                 {| OverlapAudioReader._audio_source := buffer_at sr sw ch d 0;
                    OverlapAudioReader._block_size := bs;
                    OverlapAudioReader._hop_size := hop;
                    OverlapAudioReader._blocks := OverlapAudioReader.created |}
               = (Ret (Some (x :: rest)),
                  {| OverlapAudioReader._audio_source := buffer_at sr sw ch d (0 * H + B);
                     OverlapAudioReader._block_size := bs;
                     OverlapAudioReader._hop_size := hop;
                     OverlapAudioReader._blocks :=
                       OverlapAudioReader.at_yield_block_first (hop * sw * ch)
                         (slice_from (hop * sw * ch) (x :: rest)) |})).
  { unfold OverlapAudioReader.read, OverlapAudioReader.next,
      OverlapAudioReader.from_start.
    cbn [OverlapAudioReader._blocks OverlapAudioReader._audio_source
         OverlapAudioReader._block_size OverlapAudioReader._hop_size].
    change (src_is_open BufferAudioSource.ops (buffer_at sr sw ch d 0)) with true.
    change (src_read BufferAudioSource.ops bs (buffer_at sr sw ch d 0))
      with (BufferAudioSource.read bs (buffer_at sr sw ch d 0)).
    rewrite Er. reflexivity. }
  rewrite Ef. cbn [fst snd]. rewrite Ew.
  cbn [seq map]. f_equal.
  apply (windows_slide N 0); [ | lia ].
  left. f_equal. unfold slice_from.
  assert (E : (hop * sw * ch <? 0) = false) by (apply Z.ltb_ge; nia).
  rewrite E, Hh. unfold sliding_window. simpl skipn at 2.
  rewrite skipn_firstn_comm. f_equal. f_equal. lia.
Qed.
End Sliding.

(** X14: an overlap reader over an open in-memory source (sampling rate not
    negative, sample width and channel count positive) with a hop of at
    least one sample returns, as long as the data holds a full window, the
    windows that slide over the data by one hop: read number i (from 0) is
    the [block_size * sw * ch] bytes that start at byte
    [i * hop_size * sw * ch]. *)
Theorem overlap_windows_slide_by_one_hop (d : bytes) (sr sw ch : Z) (bd hd : Q)
    (w : OverlapAudioReader.t BufferAudioSource.t) (N : nat) :
  0 <= sr -> 0 < sw -> 0 < ch ->
  OverlapAudioReader.init BufferAudioSource.ops (opened_buffer d sr sw ch) bd hd = Ret w ->
  0 < OverlapAudioReader.hop_size w ->
  (N * Z.to_nat (OverlapAudioReader.hop_size w * (sw * ch))
   + Z.to_nat (OverlapAudioReader.block_size w * (sw * ch))
   <= length d + Z.to_nat (OverlapAudioReader.hop_size w * (sw * ch)))%nat ->
  fst (calls (OverlapAudioReader.read BufferAudioSource.ops) N w)
  = map (fun i =>
           Ret (Some (sliding_window
                        (Z.to_nat (OverlapAudioReader.block_size w * (sw * ch)))
                        (Z.to_nat (OverlapAudioReader.hop_size w * (sw * ch))) d i)))
        (seq 0 N).
Proof.
  intros Hsr Hsw Hch Hinit.
  destruct (overlap_init_fields BufferAudioSource.ops (opened_buffer d sr sw ch)
              bd hd w Hsr Hinit) as [Hw [Hle Hbs]].
  change (src_sr BufferAudioSource.ops (opened_buffer d sr sw ch)) with sr in Hw, Hle, Hbs.
  rewrite Hw. unfold OverlapAudioReader.hop_size, OverlapAudioReader.block_size.
  cbn [OverlapAudioReader._hop_size OverlapAudioReader._block_size].
  intros Hhop Hlen.
  apply (windows_from_start d sr sw ch _ _ Hsw Hch Hhop Hle _ _ eq_refl eq_refl N Hlen Hbs).
Qed.

(** X14 at windows of 4 bytes every 2 bytes of "abcdefghijklmnop". *)
Lemma overlap_windows_slide_by_one_hop_witness :
  exists w,
    OverlapAudioReader.init BufferAudioSource.ops abcdefghijklmnop (1 # 4) (1 # 8) = Ret w /\
    fst (calls (OverlapAudioReader.read BufferAudioSource.ops) 7 w)
    = map (fun i => Ret (Some (sliding_window 4 2 (bytes_of "abcdefghijklmnop") i))) (seq 0 7).
Proof.
  eexists. split; [ vm_compute; reflexivity | ].
  refine (overlap_windows_slide_by_one_hop (bytes_of "abcdefghijklmnop") 16 1 1
            (1 # 4) (1 # 8) _ 7 _ _ _ _ _ _).
  - lia.
  - lia.
  - lia.
  - vm_compute. reflexivity.
  - vm_compute. reflexivity.
  - vm_compute. lia.
Defined.

Section WaitingForOpen.
Context {S : Type} (inner : AudioSource S).

Lemma overlap_read_closed (w : OverlapAudioReader.t S) :
  waiting (OverlapAudioReader._blocks w) ->
  src_is_open inner (OverlapAudioReader._audio_source w) = false ->
  OverlapAudioReader.read inner w
  = (Raise (AudioIOError "Audio Stream is not open."),
     OverlapAudioReader.update (OverlapAudioReader._audio_source w)
       OverlapAudioReader.at_yield_AudioIOError w).
Proof.
  intros Hw Hc. unfold OverlapAudioReader.read, OverlapAudioReader.next.
  destruct Hw as [-> | ->]; unfold OverlapAudioReader.from_start; rewrite Hc; reflexivity.
Qed.

Lemma overlap_reads_closed (n : nat) :
  forall w : OverlapAudioReader.t S,
    waiting (OverlapAudioReader._blocks w) ->
    src_is_open inner (OverlapAudioReader._audio_source w) = false ->
    fst (calls (OverlapAudioReader.read inner) n w)
    = repeat (Raise (AudioIOError "Audio Stream is not open.")) n /\
    OverlapAudioReader._audio_source (snd (calls (OverlapAudioReader.read inner) n w))
    = OverlapAudioReader._audio_source w /\
    waiting (OverlapAudioReader._blocks (snd (calls (OverlapAudioReader.read inner) n w))).
Proof.
  induction n as [| n IH]; intros w Hw Hc; [ simpl; auto | ].
  rewrite calls_succ, (overlap_read_closed w Hw Hc). cbn [fst snd].
  destruct (IH (OverlapAudioReader.update (OverlapAudioReader._audio_source w)
                  OverlapAudioReader.at_yield_AudioIOError w))
    as [H1 [H2 H3]]; [ right; reflexivity | exact Hc | ].
  rewrite H1, H2. auto.
Qed.
End WaitingForOpen.

(** X15: an overlap reader that has not read anything yet raises
    [AudioIOError] at every [read] for as long as its source is not open,
    without touching the source, and stays ready; at the first [read] with
    the source open it does what a new reader over that source does. *)
Theorem overlap_read_waits_for_open {S : Type} (inner : AudioSource S)
    (w : OverlapAudioReader.t S) :
  waiting (OverlapAudioReader._blocks w) ->
  (src_is_open inner (OverlapAudioReader._audio_source w) = false ->
   forall n,
     fst (calls (OverlapAudioReader.read inner) n w)
     = repeat (Raise (AudioIOError "Audio Stream is not open.")) n /\
     OverlapAudioReader._audio_source (snd (calls (OverlapAudioReader.read inner) n w))
     = OverlapAudioReader._audio_source w /\
     waiting (OverlapAudioReader._blocks (snd (calls (OverlapAudioReader.read inner) n w)))) /\
  OverlapAudioReader.read inner w
  = OverlapAudioReader.read inner
      (OverlapAudioReader.update (OverlapAudioReader._audio_source w)
         OverlapAudioReader.iter_blocks_with_overlap w).
Proof.
  intros Hw. split.
  - intros Hc n. apply overlap_reads_closed; assumption.
  - unfold OverlapAudioReader.read, OverlapAudioReader.next.
    destruct Hw as [-> | ->]; reflexivity.
Qed.

(** X15 at a reader over a closed in-memory source, opened after two reads. *)
Lemma overlap_read_waits_for_open_witness :
  exists w w',
    OverlapAudioReader.init BufferAudioSource.ops
      (BufferAudioSource.init (bytes_of "abcdefgh") 16 1 1) (1 # 4) (1 # 8) = Ret w /\
    fst (calls (OverlapAudioReader.read BufferAudioSource.ops) 2 w)
    = repeat (Raise (AudioIOError "Audio Stream is not open.")) 2 /\
    OverlapAudioReader.open BufferAudioSource.ops
      (snd (calls (OverlapAudioReader.read BufferAudioSource.ops) 2 w)) = (Ret tt, w') /\
    fst (OverlapAudioReader.read BufferAudioSource.ops w') = Ret (Some (bytes_of "abcd")).
Proof.
  eexists. eexists. split; [ vm_compute; reflexivity | ].
  split; [ | split; vm_compute; reflexivity ].
  match goal with
  | |- fst (calls _ 2 ?w) = _ =>
      exact (proj1 (proj1 (overlap_read_waits_for_open BufferAudioSource.ops w
                             (or_introl eq_refl)) eq_refl 2%nat))
  end.
Defined.

(** ** Duration formats *)

Section DurationFormats.
Import Ascii.
Import DurationFormatter.

Lemma directives_in_app (known : list ascii) (u t : string) :
  index "%" u = None ->
  directives_in known (u ++ t) = directives_in known t.
Proof.
  induction u as [| c u IH]; [ reflexivity | ].
  simpl. destruct (Ascii.eqb c "%"); [ discriminate | ].
  intros H. destruct (index "%" u); [ discriminate | ].
  rewrite (IH eq_refl). reflexivity.
Qed.

Lemma directives_in_cons (known : list ascii) (c : ascii) (t : string) :
  directives_in known (String c t)
  = (if Ascii.eqb c "%"
     then match t with
          | String d _ => existsb (Ascii.eqb d) known
          | EmptyString => false
          end
     else true) && directives_in known t.
Proof. reflexivity. Qed.

Lemma replace_two (a b : ascii) (new : string) (c d : ascii) (rest : string) :
  replace a b new (String c (String d rest))
  = if (Ascii.eqb c a && Ascii.eqb d b)%bool
    then (new ++ replace a b new rest)%string
    else String c (replace a b new (String d rest)).
Proof. reflexivity. Qed.

Lemma directives_in_replace (known : list ascii) (x n0 : ascii) (new' : string) :
  index "%" (String n0 new') = None ->
  existsb (Ascii.eqb n0) known = false ->
  existsb (Ascii.eqb "%") known = false ->
  Ascii.eqb x "%" = false ->
  forall (n : nat) (s : string),
    (String.length s <= n)%nat ->
    directives_in known (replace "%" x (String n0 new') s)
    = directives_in (x :: known) s.
Proof.
  intros Hnew Hn0 Hpc Hx.
  induction n as [| n IH]; intros s Hlen.
  - destruct s; [ reflexivity | simpl in Hlen; lia ].
  - destruct s as [| c [| d rest]]; [ reflexivity | reflexivity | ].
    rewrite replace_two.
    destruct (Ascii.eqb c "%" && Ascii.eqb d x) eqn:Em.
    + apply andb_true_iff in Em. destruct Em as [Ec Ed].
      apply Ascii.eqb_eq in Ec. apply Ascii.eqb_eq in Ed. subst c d.
      rewrite directives_in_app by exact Hnew.
      rewrite IH by (simpl in *; lia).
      cbn [directives_in existsb]. rewrite !Ascii.eqb_refl, Hx. reflexivity.
    + rewrite (directives_in_cons (x :: known)), (directives_in_cons known).
      rewrite IH by (simpl in *; lia). f_equal.
      destruct (Ascii.eqb c "%") eqn:Ec; [ | reflexivity ].
      cbn [andb] in Em. cbn [existsb]. rewrite Em. cbn [orb].
      destruct rest as [| e r2]; [ reflexivity | ].
      rewrite replace_two.
      destruct (Ascii.eqb d "%" && Ascii.eqb e x) eqn:Em2; [ | reflexivity ].
      apply andb_true_iff in Em2. destruct Em2 as [Ed _].
      apply Ascii.eqb_eq in Ed. subst d.
      cbn [append]. rewrite Hn0, Hpc. reflexivity.
Qed.

Lemma directives_in_nil (s : string) :
  directives_in [] s = match index "%" s with None => true | Some _ => false end.
Proof.
  induction s as [| c s IH]; [ reflexivity | ].
  cbn [directives_in index]. rewrite IH.
  destruct (Ascii.eqb c "%").
  - destruct s; reflexivity.
  - destruct (index "%" s); reflexivity.
Qed.

Lemma rewritten_format_has_no_percent (fmt : string) :
  match index "%"
          (replace "%" "i" "{millis:03d}"
             (replace "%" "s" "{secs:02d}"
                (replace "%" "m" "{mins:02d}"
                   (replace "%" "h" "{hrs:02d}" fmt)))) with
  | None => true
  | Some _ => false
  end = directives_in known_directives fmt.
Proof.
  rewrite <- directives_in_nil.
  rewrite (directives_in_replace [] "i" "{" "millis:03d}" eq_refl eq_refl eq_refl eq_refl
             _ _ (Nat.le_refl _)).
  rewrite (directives_in_replace ["i"]%char "s" "{" "secs:02d}" eq_refl eq_refl eq_refl eq_refl
             _ _ (Nat.le_refl _)).
  rewrite (directives_in_replace ["s"; "i"]%char "m" "{" "mins:02d}"
             eq_refl eq_refl eq_refl eq_refl _ _ (Nat.le_refl _)).
  rewrite (directives_in_replace ["m"; "s"; "i"]%char "h" "{" "hrs:02d}"
             eq_refl eq_refl eq_refl eq_refl _ _ (Nat.le_refl _)).
  reflexivity.
Qed.

Lemma directives_in_false (known : list ascii) (s : string) :
  directives_in known s = false <->
  exists i, String.get i s = Some percent /\
            forall c, String.get (S i) s = Some c -> ~ In c known.
Proof.
  induction s as [| c s IH].
  - split; [ discriminate | ]. intros [i [H _]]. destruct i; discriminate.
  - cbn [directives_in]. rewrite andb_false_iff. split.
    + intros [H | H].
      * destruct (Ascii.eqb c "%") eqn:Ec; [ | discriminate ].
        apply Ascii.eqb_eq in Ec. subst c.
        exists 0%nat. split; [ reflexivity | ].
        intros d Hd Hin. cbn [String.get] in Hd.
        destruct s as [| e s]; [ discriminate | ].
        cbn [String.get] in Hd. inversion Hd; subst e.
        assert (Ht : existsb (Ascii.eqb d) known = true).
        { apply existsb_exists. exists d. split; [ exact Hin | apply Ascii.eqb_refl ]. }
        congruence.
      * apply IH in H. destruct H as [i [H1 H2]].
        exists (S i). split; [ exact H1 | exact H2 ].
    + intros [[| i] [H1 H2]].
      * left. cbn [String.get] in H1. inversion H1; subst c.
        rewrite Ascii.eqb_refl.
        destruct s as [| d s]; [ reflexivity | ].
        destruct (existsb (Ascii.eqb d) known) eqn:Ee; [ | reflexivity ].
        apply existsb_exists in Ee. destruct Ee as [y [Hy Hd]].
        apply Ascii.eqb_eq in Hd. subst y.
        exfalso. apply (H2 d); [ reflexivity | exact Hy ].
      * right. apply IH. exists i. split; [ exact H1 | exact H2 ].
Qed.

End DurationFormats.

(** X17: [make_duration_formatter] raises [TimeFormatError] exactly for a
    format that is neither "%S" nor "%I" and in which some "%" is not
    followed by one of h, m, s and i; so "%S" and "%I" are accepted only as
    the whole format, and a doubled "%" is rejected. *)
Theorem duration_format_rejected_exactly (fmt : string) :
  (exists directive,
     DurationFormatter.make_duration_formatter fmt
     = DurationFormatter.TimeFormatError directive) <->
  fmt <> "%S"%string /\ fmt <> "%I"%string /\
  exists i, String.get i fmt = Some DurationFormatter.percent /\
            forall c, String.get (S i) fmt = Some c ->
                      ~ In c DurationFormatter.known_directives.
Proof.
  rewrite <- directives_in_false, <- rewritten_format_has_no_percent.
  unfold DurationFormatter.make_duration_formatter.
  destruct (String.eqb fmt "%S") eqn:ES.
  { apply String.eqb_eq in ES. split; [ intros [x H]; discriminate | ].
    intros [H _]. contradiction. }
  destruct (String.eqb fmt "%I") eqn:EI.
  { apply String.eqb_eq in EI. split; [ intros [x H]; discriminate | ].
    intros [_ [H _]]. contradiction. }
  apply String.eqb_neq in ES. apply String.eqb_neq in EI.
  cbv zeta.
  destruct (DurationFormatter.index _ _) as [i |].
  - split; [ intros _; auto | intros _; eexists; reflexivity ].
  - split; [ intros [x H]; discriminate | intros [_ [_ H]]; discriminate ].
Qed.

(** X18: for any duration, the hours, minutes, seconds and milliseconds the
    field formatter prints add up to [int(seconds * 1000)] milliseconds;
    minutes and seconds lie in 0..59 and milliseconds in 0..999, also for a
    negative duration, whose hours alone are negative; hours are not
    bounded. *)
Theorem duration_fields_add_up (seconds : Q) :
  let '(hrs, mins, secs, millis) := DurationFormatter.field_values seconds in
  hrs * 3600000 + mins * 60000 + secs * 1000 + millis = py_int (scale seconds 1000) /\
  0 <= mins < 60 /\ 0 <= secs < 60 /\ 0 <= millis < 1000 /\
  (hrs < 0 <-> py_int (scale seconds 1000) < 0).
Proof.
  unfold DurationFormatter.field_values, DurationFormatter.divmod. cbv zeta.
  set (t := py_int (scale seconds 1000)).
  pose proof (Z.div_mod t 3600000 ltac:(lia)) as H1.
  pose proof (Z.mod_pos_bound t 3600000 ltac:(lia)) as B1.
  set (r1 := t mod 3600000) in *.
  pose proof (Z.div_mod r1 60000 ltac:(lia)) as H2.
  pose proof (Z.mod_pos_bound r1 60000 ltac:(lia)) as B2.
  set (r2 := r1 mod 60000) in *.
  pose proof (Z.div_mod r2 1000 ltac:(lia)) as H3.
  pose proof (Z.mod_pos_bound r2 1000 ltac:(lia)) as B3.
  set (h := t / 3600000) in *. set (m := r1 / 60000) in *. set (s := r2 / 1000) in *.
  set (ms := r2 mod 1000) in *.
  repeat split; try lia.
Qed.

(** ** The keyword arguments of the factory *)

Section Kwargs.
Import ADSFactory.

Lemma get_set (k k' : string) (v : value) (kw : kwargs) :
  get k (set k' v kw) = if String.eqb k' k then Some v else get k kw.
Proof.
  induction kw as [| [k0 v0] kw IH]; simpl.
  - destruct (String.eqb k' k); reflexivity.
  - destruct (String.eqb k0 k') eqn:E0; simpl.
    + apply String.eqb_eq in E0. subst k0.
      destruct (String.eqb k' k); reflexivity.
    + rewrite IH. destruct (String.eqb k0 k) eqn:E1; [ | reflexivity ].
      apply String.eqb_eq in E1. subst k0. rewrite String.eqb_sym, E0. reflexivity.
Qed.

Lemma get_remove (k k' : string) (kw : kwargs) :
  get k (remove k' kw) = if String.eqb k' k then None else get k kw.
Proof.
  unfold remove. induction kw as [| [k0 v0] kw IH]; simpl.
  - destruct (String.eqb k' k); reflexivity.
  - destruct (String.eqb k0 k') eqn:E0; simpl.
    + rewrite IH. apply String.eqb_eq in E0. subst k0.
      destruct (String.eqb k' k); reflexivity.
    + rewrite IH. destruct (String.eqb k0 k) eqn:E1; [ | reflexivity ].
      apply String.eqb_eq in E1. subst k0. rewrite String.eqb_sym, E0. reflexivity.
Qed.

Lemma pop_or_pop_value (long short : string) (kw : kwargs) :
  String.eqb long short = false ->
  fst (pop_or_pop long short kw) = first_true_of long short kw.
Proof.
  intros Hne. unfold pop_or_pop, pop, first_true_of.
  destruct (get long kw) as [v |] eqn:El.
  - destruct (truthy v); [ reflexivity | ].
    cbn [fst]. rewrite get_remove, Hne. reflexivity.
  - cbn [truthy fst]. rewrite get_remove, Hne. reflexivity.
Qed.

Lemma pop_or_pop_rest (k long short : string) (kw : kwargs) :
  String.eqb long short = false ->
  get k (snd (pop_or_pop long short kw))
  = if String.eqb long k then None
    else if String.eqb short k
         then match get long kw with
              | Some v => if truthy v then get k kw else None
              | None => None
              end
         else get k kw.
Proof.
  intros Hne. unfold pop_or_pop, pop.
  destruct (get long kw) as [v |] eqn:El.
  - destruct (truthy v); cbn [snd]; rewrite ?get_remove.
    + destruct (String.eqb long k); [ reflexivity | ].
      destruct (String.eqb short k); reflexivity.
    + destruct (String.eqb short k) eqn:Es.
      * destruct (String.eqb long k); reflexivity.
      * reflexivity.
  - cbn [truthy snd]. rewrite !get_remove.
    destruct (String.eqb short k) eqn:Es.
    + destruct (String.eqb long k); reflexivity.
    + reflexivity.
Qed.

Lemma get_keep_short (k long short : string) (kw : kwargs) :
  String.eqb long short = false ->
  get k (keep_short long short kw)
  = if String.eqb short k then Some (first_true_of long short kw)
    else if String.eqb long k then None else get k kw.
Proof.
  intros Hne. unfold keep_short.
  pose proof (pop_or_pop_value long short kw Hne) as Hv.
  pose proof (pop_or_pop_rest k long short kw Hne) as Hr.
  destruct (pop_or_pop long short kw) as [v kw1]. cbn [fst snd] in Hv, Hr.
  rewrite get_set, Hr, Hv.
  destruct (String.eqb short k); [ reflexivity | ].
  destruct (String.eqb long k); reflexivity.
Qed.

Lemma get_keep_long (k long short : string) (kw : kwargs) :
  String.eqb long short = false ->
  get k (keep_long long short kw)
  = if contains long kw || contains short kw then
      if String.eqb long k then Some (first_true_of long short kw)
      else if String.eqb short k
           then match get long kw with
                | Some v => if truthy v then get k kw else None
                | None => None
                end
           else get k kw
    else get k kw.
Proof.
  intros Hne. unfold keep_long.
  destruct (contains long kw || contains short kw); [ | reflexivity ].
  pose proof (pop_or_pop_value long short kw Hne) as Hv.
  pose proof (pop_or_pop_rest k long short kw Hne) as Hr.
  destruct (pop_or_pop long short kw) as [v kw1]. cbn [fst snd] in Hv, Hr.
  rewrite get_set, Hr, Hv. destruct (String.eqb long k); reflexivity.
Qed.

Lemma get_normalize_record (k : string) (kw kw' : kwargs) :
  normalize_record kw = Normalized kw' ->
  get k kw'
  = if String.eqb "rec" k
    then Some (match get "record" kw with
               | Some v =>
                   if truthy v then v
                   else match get "rec" kw with Some v' => v' | None => v_bool false end
               | None => match get "rec" kw with Some v' => v' | None => v_bool false end
               end)
    else if String.eqb "record" k then None else get k kw.
Proof.
  unfold normalize_record, pop.
  destruct (get "record" kw) as [v |] eqn:Er.
  - destruct (truthy v) eqn:Et.
    + intros H. inversion H; subst kw'. rewrite get_set, get_remove. reflexivity.
    + rewrite get_remove.
      change (String.eqb "record" "rec") with false. cbv iota.
      destruct (isinstance_bool _); [ | discriminate ].
      intros H. inversion H; subst kw'. rewrite get_set, !get_remove.
      destruct (String.eqb "rec" k); [ reflexivity | ].
      destruct (String.eqb "record" k); reflexivity.
  - cbn [truthy]. rewrite get_remove.
      change (String.eqb "record" "rec") with false. cbv iota.
    destruct (isinstance_bool _); [ | discriminate ].
    intros H. inversion H; subst kw'. rewrite get_set, !get_remove.
    destruct (String.eqb "rec" k); [ reflexivity | ].
    destruct (String.eqb "record" k); reflexivity.
Qed.
Lemma get_pop_or_pop_other (k long short : string) (kw : kwargs) :
  String.eqb long k = false ->
  String.eqb short k = false ->
  get k (snd (pop_or_pop long short kw)) = get k kw.
Proof.
  intros Hl Hs. unfold pop_or_pop, pop.
  destruct (truthy _); cbn [snd]; rewrite ?get_remove, ?Hl, ?Hs; reflexivity.
Qed.

Lemma get_keep_short_other (k long short : string) (kw : kwargs) :
  String.eqb long k = false ->
  String.eqb short k = false ->
  get k (keep_short long short kw) = get k kw.
Proof.
  intros Hl Hs. unfold keep_short.
  pose proof (get_pop_or_pop_other k long short kw Hl Hs) as Hr.
  destruct (pop_or_pop long short kw) as [v kw1]. cbn [snd] in Hr.
  rewrite get_set, Hs. exact Hr.
Qed.

Lemma get_keep_long_other (k long short : string) (kw : kwargs) :
  String.eqb long k = false ->
  String.eqb short k = false ->
  get k (keep_long long short kw) = get k kw.
Proof.
  intros Hl Hs. unfold keep_long.
  destruct (contains long kw || contains short kw); [ | reflexivity ].
  pose proof (get_pop_or_pop_other k long short kw Hl Hs) as Hr.
  destruct (pop_or_pop long short kw) as [v kw1]. cbn [snd] in Hr.
  rewrite get_set, Hl. exact Hr.
Qed.

Lemma get_normalize_record_other (k : string) (kw kw' : kwargs) :
  normalize_record kw = Normalized kw' ->
  String.eqb "rec" k = false ->
  String.eqb "record" k = false ->
  get k kw' = get k kw.
Proof.
  intros H H1 H2. rewrite (get_normalize_record k kw kw' H), H1, H2. reflexivity.
Qed.
End Kwargs.

Section Normalized.
Import ADSFactory.

Lemma find_is_none {A : Type} (f : A -> bool) (l : list A) :
  find f l = None <-> forall x, In x l -> f x = false.
Proof.
  split; [ apply find_none | ].
  induction l as [| x l IH]; [ reflexivity | ].
  intros H. simpl. rewrite (H x (or_introl eq_refl)).
  apply IH. intros y Hy. apply H. right. exact Hy.
Qed.

Lemma contains_iff (k : string) (kw : kwargs) :
  contains k kw = true <-> In k (map fst kw).
Proof.
  unfold contains. induction kw as [| [k0 v0] kw IH]; simpl.
  - split; [ discriminate | contradiction ].
  - destruct (String.eqb k0 k) eqn:E.
    + apply String.eqb_eq in E. split; auto.
    + apply String.eqb_neq in E. rewrite IH. split; [ auto | intros [H | H]; tauto ].
Qed.

Lemma passes_the_tests_iff (kw : kwargs) :
  passes_the_tests kw <->
  find (fun k => negb (existsb (String.eqb k) accepted_names)) (map fst kw) = None /\
  find (fun p => contains (fst p) kw && contains (snd p) kw) duplicate_tests = None.
Proof.
  unfold passes_the_tests. rewrite !find_is_none. split.
  - intros [H1 H2]. split.
    + intros k Hk. apply negb_false_iff. apply existsb_exists.
      exists k. split; [ | apply String.eqb_refl ].
      apply H1. apply contains_iff. exact Hk.
    + intros [long short] Hp. cbn [fst snd].
      destruct (contains long kw) eqn:El; [ | reflexivity ].
      rewrite (H2 long short Hp El). reflexivity.
  - intros [H1 H2]. split.
    + intros k Hk. apply contains_iff in Hk. specialize (H1 k Hk).
      apply negb_false_iff in H1. apply existsb_exists in H1.
      destruct H1 as [x [Hx Ex]]. apply String.eqb_eq in Ex. subst x. exact Hx.
    + intros long short Hp Hl. specialize (H2 (long, short) Hp). cbn [fst snd] in H2.
      rewrite Hl in H2. exact H2.
Qed.

Lemma check_normalized (kw kw' : kwargs) :
  _check_normalize_args kw = Normalized kw' ->
  passes_the_tests kw /\
  exists kwr,
    normalize_record
      (keep_short "data_buffer" "db"
         (keep_short "filename" "fn"
            (keep_short "audio_source" "asrc"
               (keep_short "max_time" "mt"
                  (keep_short "hop_size" "hs"
                     (keep_short "block_size" "bs"
                        (keep_short "hop_dur" "hd"
                           (keep_short "block_dur" "bd" kw))))))))
    = Normalized kwr /\
    kw' = keep_long "channels" "ch"
            (keep_long "sample_width" "sw"
               (keep_long "sampling_rate" "sr"
                  (keep_long "frames_per_buffer" "fpb" kwr))).
Proof.
  unfold _check_normalize_args. rewrite passes_the_tests_iff.
  destruct (find _ (map fst kw)) as [k |]; [ discriminate | ].
  destruct (find _ duplicate_tests) as [[l s] |]; [ discriminate | ].
  cbv zeta. destruct (normalize_record _) as [kwr | e] eqn:Er; [ | discriminate ].
  intros H. inversion H. split; [ split; reflexivity | ].
  exists kwr. split; [ reflexivity | reflexivity ].
Qed.

Lemma check_passes (kw : kwargs) :
  passes_the_tests kw ->
  _check_normalize_args kw =
    match normalize_record
            (keep_short "data_buffer" "db"
               (keep_short "filename" "fn"
                  (keep_short "audio_source" "asrc"
                     (keep_short "max_time" "mt"
                        (keep_short "hop_size" "hs"
                           (keep_short "block_size" "bs"
                              (keep_short "hop_dur" "hd"
                                 (keep_short "block_dur" "bd" kw)))))))) with
    | Rejected e => Rejected e
    | Normalized kwr =>
        Normalized
          (keep_long "channels" "ch"
             (keep_long "sample_width" "sw"
                (keep_long "sampling_rate" "sr"
                   (keep_long "frames_per_buffer" "fpb" kwr))))
    end.
Proof.
  intros H. apply passes_the_tests_iff in H. destruct H as [H1 H2].
  unfold _check_normalize_args. rewrite H1, H2. reflexivity.
Qed.

Lemma not_both (kw : kwargs) (long short : string) :
  passes_the_tests kw ->
  In (long, short) duplicate_tests ->
  forall v, get long kw = Some v -> get short kw = None.
Proof.
  intros [_ H] Hin v Hv.
  assert (Hc : contains long kw = true) by (unfold contains; rewrite Hv; reflexivity).
  specialize (H long short Hin Hc). unfold contains in H.
  destruct (get short kw); [ discriminate | reflexivity ].
Qed.
End Normalized.

(** X19: when [_check_normalize_args] returns, each of the eight arguments
    block_dur, hop_dur, block_size, hop_size, max_time, audio_source,
    filename and data_buffer is under its short name only, so that [ads] can
    pop all of them; a value given under the long name is kept only if it is
    true, and becomes [None] otherwise (0, 0.0, an empty string or buffer,
    False), while a value given under the short name is kept as it is; a
    missing argument is [None].  The names sr, sw and ch are gone. *)
Theorem normalized_arguments_have_short_names (kw kw' : ADSFactory.kwargs) :
  ADSFactory._check_normalize_args kw = ADSFactory.Normalized kw' ->
  (forall long short,
     In (long, short) short_name_pairs ->
     ADSFactory.get long kw' = None /\
     (forall v, ADSFactory.get long kw = Some v ->
        ADSFactory.get short kw'
        = Some (if ADSFactory.truthy v then v else ADSFactory.v_None)) /\
     (ADSFactory.get long kw = None ->
        ADSFactory.get short kw'
        = Some (match ADSFactory.get short kw with
                | Some v => v
                | None => ADSFactory.v_None
                end))) /\
  ADSFactory.get "sr" kw' = None /\
  ADSFactory.get "sw" kw' = None /\
  ADSFactory.get "ch" kw' = None.
Proof.
  intros H. destruct (check_normalized kw kw' H) as [Hp [kwr [Hr Hk]]]. subst kw'.
  pose proof (fun k => get_normalize_record_other k _ _ Hr) as Hro.
  pose proof (fun k => get_normalize_record k _ _ Hr) as Hra.
  split; [ | split; [ | split ] ].
  - intros long short Hin.
    pose proof (not_both kw long short Hp) as Hnb.
    assert (Hin' : In (long, short) ADSFactory.duplicate_tests).
    { revert Hin. unfold short_name_pairs, ADSFactory.duplicate_tests.
      cbn [firstn In]. tauto. }
    specialize (Hnb Hin').
    unfold short_name_pairs in Hin. cbn [firstn ADSFactory.duplicate_tests In] in Hin.
    repeat (destruct Hin as [Hin | Hin];
            [ inversion Hin; subst long short; clear Hin;
              (split; [ look_back_with get_keep_long_other get_keep_short_other Hro
      get_keep_long get_keep_short Hra; reflexivity | split ]);
              [ intros v Hv; look_back_with get_keep_long_other get_keep_short_other Hro
      get_keep_long get_keep_short Hra; rewrite Hv; rewrite (Hnb v Hv);
                destruct (ADSFactory.truthy v); reflexivity
              | intros Hv; look_back_with get_keep_long_other get_keep_short_other Hro
      get_keep_long get_keep_short Hra; rewrite Hv; reflexivity ]
            | ]).
    contradiction.
  - look_back_with get_keep_long_other get_keep_short_other Hro
      get_keep_long get_keep_short Hra.
    destruct (ADSFactory.get "sampling_rate" kw) as [v |] eqn:E.
    + rewrite (not_both kw "sampling_rate" "sr" Hp ltac:(vm_compute; tauto) v E).
      cbn [orb]. destruct (ADSFactory.truthy v); reflexivity.
    + destruct (ADSFactory.get "sr" kw); reflexivity.
  - look_back_with get_keep_long_other get_keep_short_other Hro
      get_keep_long get_keep_short Hra.
    destruct (ADSFactory.get "sample_width" kw) as [v |] eqn:E.
    + rewrite (not_both kw "sample_width" "sw" Hp ltac:(vm_compute; tauto) v E).
      cbn [orb]. destruct (ADSFactory.truthy v); reflexivity.
    + destruct (ADSFactory.get "sw" kw); reflexivity.
  - look_back_with get_keep_long_other get_keep_short_other Hro
      get_keep_long get_keep_short Hra.
    destruct (ADSFactory.get "channels" kw) as [v |] eqn:E.
    + rewrite (not_both kw "channels" "ch" Hp ltac:(vm_compute; tauto) v E).
      cbn [orb]. destruct (ADSFactory.truthy v); reflexivity.
    + destruct (ADSFactory.get "ch" kw); reflexivity.
Qed.

(** X19 at block_dur=0, hd=0 and sr=16000. *)
Lemma normalized_arguments_have_short_names_witness :
  exists kw',
    ADSFactory._check_normalize_args
      [("block_dur", ADSFactory.v_int 0); ("hd", ADSFactory.v_int 0);
       ("sr", ADSFactory.v_int 16000)]%string
    = ADSFactory.Normalized kw' /\
    ADSFactory.get "bd" kw' = Some ADSFactory.v_None /\
    ADSFactory.get "hd" kw' = Some (ADSFactory.v_int 0) /\
    ADSFactory.get "sr" kw' = None.
Proof.
  eexists. split; [ vm_compute; reflexivity | ].
  match goal with
  | |- ADSFactory.get _ ?kw' = _ /\ _ =>
      destruct (normalized_arguments_have_short_names
                  [("block_dur", ADSFactory.v_int 0); ("hd", ADSFactory.v_int 0);
                   ("sr", ADSFactory.v_int 16000)]%string kw'
                  ltac:(vm_compute; reflexivity)) as [Hpairs [Hsr _]]
  end.
  split; [ | split; [ | exact Hsr ] ].
  - exact (proj1 (proj2 (Hpairs "block_dur" "bd" ltac:(vm_compute; tauto))%string)
             (ADSFactory.v_int 0) eq_refl).
  - exact (proj2 (proj2 (Hpairs "hop_dur" "hd" ltac:(vm_compute; tauto))%string) eq_refl).
Defined.

Section RecordArgument.
Import ADSFactory.

Lemma normalize_record_rejects (kw : kwargs) (e : error) :
  normalize_record kw = Rejected e ->
  e = record_must_be_a_boolean /\
  match get "record" kw with Some v => truthy v = false | None => True end /\
  exists v, get "rec" kw = Some v /\ isinstance_bool v = false.
Proof.
  unfold normalize_record, pop.
  destruct (get "record" kw) as [v |] eqn:Er.
  - destruct (truthy v); [ discriminate | ].
    rewrite get_remove. change (String.eqb "record" "rec") with false. cbv iota.
    destruct (get "rec" kw) as [v' |]; [ | discriminate ].
    destruct (isinstance_bool v') eqn:Eb; [ discriminate | ].
    intros H. inversion H. split; [ reflexivity | split; [ reflexivity | eauto ] ].
  - cbn [truthy]. rewrite get_remove. change (String.eqb "record" "rec") with false. cbv iota.
    destruct (get "rec" kw) as [v' |]; [ | discriminate ].
    destruct (isinstance_bool v') eqn:Eb; [ discriminate | ].
    intros H. inversion H. split; [ reflexivity | split; [ exact I | eauto ] ].
Qed.

Lemma normalize_record_of_rec (kw : kwargs) :
  get "record" kw = None ->
  normalize_record kw =
    match get "rec" kw with
    | Some v =>
        if isinstance_bool v then Normalized (set "rec" v (remove "rec" (remove "record" kw)))
        else Rejected record_must_be_a_boolean
    | None => Normalized (set "rec" (v_bool false) (remove "rec" (remove "record" kw)))
    end.
Proof.
  intros Hr. unfold normalize_record, pop. rewrite Hr. cbn [truthy].
  rewrite get_remove. change (String.eqb "record" "rec") with false. cbv iota.
  destruct (get "rec" kw); reflexivity.
Qed.
End RecordArgument.

(** X20: among arguments that pass the name tests, a value given as [record]
    is never type-checked: if it is true it becomes [rec] as it is, whatever
    its type, and if it is false [rec] becomes [False]; only a value given
    as [rec] must be a [bool], and [TypeError] is raised when it is not;
    with neither, [rec] is [False]. *)
Theorem record_is_type_checked_only_as_rec (kw : ADSFactory.kwargs) :
  passes_the_tests kw ->
  (forall v, ADSFactory.get "record" kw = Some v ->
     exists kw',
       ADSFactory._check_normalize_args kw = ADSFactory.Normalized kw' /\
       ADSFactory.get "record" kw' = None /\
       ADSFactory.get "rec" kw'
       = Some (if ADSFactory.truthy v then v else ADSFactory.v_bool false)) /\
  (ADSFactory.get "record" kw = None ->
   match ADSFactory.get "rec" kw with
   | Some v =>
       if ADSFactory.isinstance_bool v
       then exists kw',
              ADSFactory._check_normalize_args kw = ADSFactory.Normalized kw' /\
              ADSFactory.get "rec" kw' = Some v
       else ADSFactory._check_normalize_args kw
            = ADSFactory.Rejected ADSFactory.record_must_be_a_boolean
   | None =>
       exists kw',
         ADSFactory._check_normalize_args kw = ADSFactory.Normalized kw' /\
         ADSFactory.get "rec" kw' = Some (ADSFactory.v_bool false)
   end).
Proof.
  intros Hp. rewrite (check_passes kw Hp).
  set (kw8 := ADSFactory.keep_short "data_buffer" "db" _).
  assert (Hrecord : ADSFactory.get "record" kw8 = ADSFactory.get "record" kw)
    by (unfold kw8; repeat rewrite get_keep_short_other by reflexivity; reflexivity).
  assert (Hrec : ADSFactory.get "rec" kw8 = ADSFactory.get "rec" kw)
    by (unfold kw8; repeat rewrite get_keep_short_other by reflexivity; reflexivity).
  split.
  - intros v Hv.
    pose proof (not_both kw "record" "rec" Hp ltac:(vm_compute; tauto) v Hv) as Hnone.
    destruct (ADSFactory.normalize_record kw8) as [kwr | e] eqn:Hr.
    + pose proof (fun k => get_normalize_record_other k _ _ Hr) as Hro.
      pose proof (fun k => get_normalize_record k _ _ Hr) as Hra.
      eexists. split; [ reflexivity | split ].
      * look_back_with get_keep_long_other get_keep_short_other Hro
        get_keep_long get_keep_short Hra. reflexivity.
      * look_back_with get_keep_long_other get_keep_short_other Hro
        get_keep_long get_keep_short Hra. rewrite Hrecord, Hrec, Hv, Hnone. reflexivity.
    + exfalso. destruct (normalize_record_rejects kw8 e Hr) as [_ [_ [v' [Hv' _]]]].
      rewrite Hrec, Hnone in Hv'. discriminate.
  - intros Hnone.
    rewrite (normalize_record_of_rec kw8) by (rewrite Hrecord; exact Hnone).
    rewrite Hrec.
    destruct (ADSFactory.get "rec" kw) as [v |] eqn:Ev.
    + destruct (ADSFactory.isinstance_bool v); [ | reflexivity ].
      eexists. split; [ reflexivity | ].
      repeat rewrite get_keep_long_other by reflexivity.
      rewrite get_set. reflexivity.
    + eexists. split; [ reflexivity | ].
      repeat rewrite get_keep_long_other by reflexivity.
      rewrite get_set. reflexivity.
Qed.

(** X20 at record="yes" and at rec="yes". *)
Lemma record_is_type_checked_only_as_rec_witness :
  (exists kw',
     ADSFactory._check_normalize_args [("record", ADSFactory.v_str "yes")]%string
     = ADSFactory.Normalized kw' /\
     ADSFactory.get "rec" kw' = Some (ADSFactory.v_str "yes")) /\
  ADSFactory._check_normalize_args [("rec", ADSFactory.v_str "yes")]%string
  = ADSFactory.Rejected ADSFactory.record_must_be_a_boolean.
Proof.
  split.
  - destruct (proj1 (record_is_type_checked_only_as_rec
                       [("record", ADSFactory.v_str "yes")]%string
                       ltac:(apply passes_the_tests_iff; split; reflexivity))
                (ADSFactory.v_str "yes") eq_refl) as [kw' [H1 [_ H2]]].
    exists kw'. split; [ exact H1 | exact H2 ].
  - exact (proj2 (record_is_type_checked_only_as_rec
                    [("rec", ADSFactory.v_str "yes")]%string
                    ltac:(apply passes_the_tests_iff; split; reflexivity))
             eq_refl).
Defined.

(** X21: among arguments whose names are all accepted, giving both names of
    one argument raises [DuplicateArgument], for every argument but one:
    the test for frames_per_buffer looks for "fbb", a name the first loop
    rejects, so it never fires, and frames_per_buffer given (true) together
    with fpb comes back with both names still there. *)
Theorem duplicates_are_reported_except_fpb (kw : ADSFactory.kwargs) :
  (forall long short,
     ADSFactory._check_normalize_args kw
     = ADSFactory.Rejected (ADSFactory.DuplicateArgument long short) ->
     long <> "frames_per_buffer"%string) /\
  ((forall k, ADSFactory.contains k kw = true -> In k ADSFactory.accepted_names) ->
   forall long short,
     In (long, short) ADSFactory.duplicate_tests ->
     ADSFactory.contains long kw = true ->
     ADSFactory.contains short kw = true ->
     exists l s,
       ADSFactory._check_normalize_args kw
       = ADSFactory.Rejected (ADSFactory.DuplicateArgument l s)) /\
  (forall kw' v,
     ADSFactory._check_normalize_args kw = ADSFactory.Normalized kw' ->
     ADSFactory.get "frames_per_buffer" kw = Some v ->
     ADSFactory.truthy v = true ->
     ADSFactory.get "frames_per_buffer" kw' = Some v /\
     ADSFactory.get "fpb" kw' = ADSFactory.get "fpb" kw).
Proof.
  split; [ | split ].
  - intros long short. unfold ADSFactory._check_normalize_args.
    destruct (find _ (map fst kw)) as [k |] eqn:Eu; [ discriminate | ].
    destruct (find _ ADSFactory.duplicate_tests) as [[l s] |] eqn:Ed.
    + intros H. inversion H; subst l s. clear H. intros ->.
      apply find_some in Ed. destruct Ed as [Hin Hc].
      assert (Hs : short = "fbb"%string).
      { revert Hin. unfold ADSFactory.duplicate_tests. cbn [In].
        intros Hin.
        repeat (destruct Hin as [Hin | Hin];
                [ inversion Hin; try discriminate; try reflexivity | ]);
          try contradiction. }
      subst short. cbn [fst snd] in Hc. apply andb_true_iff in Hc. destruct Hc as [_ Hc].
      apply contains_iff in Hc.
      pose proof (find_none _ _ Eu _ Hc) as Hf. discriminate Hf.
    + cbv zeta. destruct (ADSFactory.normalize_record _) as [kwr | e] eqn:Er;
        [ discriminate | ].
      destruct (normalize_record_rejects _ e Er) as [He _]. subst e. discriminate.
  - intros Hacc long short Hin Hl Hs.
    unfold ADSFactory._check_normalize_args.
    assert (Eu : find (fun k => negb (existsb (String.eqb k) ADSFactory.accepted_names))
                   (map fst kw) = None).
    { apply find_is_none. intros k Hk. apply negb_false_iff. apply existsb_exists.
      exists k. split; [ | apply String.eqb_refl ].
      apply Hacc. apply contains_iff. exact Hk. }
    rewrite Eu.
    destruct (find _ ADSFactory.duplicate_tests) as [[l s] |] eqn:Ed.
    + exists l, s. reflexivity.
    + exfalso. pose proof (find_none _ _ Ed (long, short) Hin) as Hf.
      cbn [fst snd] in Hf. rewrite Hl, Hs in Hf. discriminate.
  - intros kw' v H Hv Ht.
    destruct (check_normalized kw kw' H) as [Hp [kwr [Hr Hk]]]. subst kw'.
    pose proof (fun k => get_normalize_record_other k _ _ Hr) as Hro.
    pose proof (fun k => get_normalize_record k _ _ Hr) as Hra.
    split.
    + look_back_with get_keep_long_other get_keep_short_other Hro
        get_keep_long get_keep_short Hra. rewrite Hv, Ht. cbn [orb]. reflexivity.
    + look_back_with get_keep_long_other get_keep_short_other Hro
        get_keep_long get_keep_short Hra. rewrite Hv, Ht. cbn [orb]. reflexivity.
Qed.

(** X21 at frames_per_buffer=1024 with fpb=512. *)
Lemma duplicates_are_reported_except_fpb_witness :
  exists kw',
    ADSFactory._check_normalize_args
      [("frames_per_buffer", ADSFactory.v_int 1024); ("fpb", ADSFactory.v_int 512)]%string
    = ADSFactory.Normalized kw' /\
    ADSFactory.get "frames_per_buffer" kw' = Some (ADSFactory.v_int 1024) /\
    ADSFactory.get "fpb" kw' = Some (ADSFactory.v_int 512).
Proof.
  eexists. split; [ vm_compute; reflexivity | ].
  refine (proj2 (proj2 (duplicates_are_reported_except_fpb
                          [("frames_per_buffer", ADSFactory.v_int 1024);
                           ("fpb", ADSFactory.v_int 512)]%string))
            _ (ADSFactory.v_int 1024) _ _ _).
  - vm_compute. reflexivity.
  - reflexivity.
  - reflexivity.
Defined.
